(** * Statistics cache of the items API (backend/src/routes/stats.js)

    A shallow embedding of the stats route: the pure summary computation
    [calculateStats], and the module state of the route (the cached summary,
    its timestamp, the file watcher) driven by the callbacks the event loop
    runs one at a time. *)

From Stdlib Require Import ZArith Zpower QArith Qcanon Qround Lqa Floats.
From stdpp Require Import gmap strings list.

(* Decimal literals denote the nearest binary64 number, as they do in JSON. *)
Set Warnings "-inexact-float".

Local Open Scope string_scope.
Local Open Scope Z_scope.
Local Open Scope list_scope.

(** ** JavaScript numbers

    The computation only uses [+], [*], [/], [Math.round], [Math.min] and
    [Math.max] on numbers, and numbers obtained from [items.length] and from
    the literals [0] and [100].  The embedding is written once over this
    interface and read in two ways: with the IEEE 754 binary64 numbers the
    engine computes with, and with exact rationals, the arithmetic the
    design document reasons in when it says "within floating tolerance".
    What is proved of the sums and the rounding is proved of the binary64
    reading; the exact reading is what its results are measured against,
    and the reading of [Math.min] and [Math.max], which do not round. *)

Class JsNumber (N : Type) := {
  num : nat -> N;                (* an integer literal, or [items.length] *)
  add : N -> N -> N;             (* [a + b] *)
  mul : N -> N -> N;             (* [a * b] *)
  div : N -> N -> N;             (* [a / b] *)
  Math_round : N -> N;
  Math_min : list N -> N;        (* [Math.min(...xs)] *)
  Math_max : list N -> N;        (* [Math.max(...xs)] *)
}.

(** *** Exact rationals *)

Module Exact.

Definition of_nat (n : nat) : Qc := Q2Qc (inject_Z (Z.of_nat n)).

(** [Math.round x] is the integer [floor (x + 1/2)]: halves go up. *)
Definition round (x : Qc) : Qc :=
  Q2Qc (inject_Z (Qfloor (Qplus x (Qmake 1 2)))).

Definition min2 (a b : Qc) : Qc := if Qclt_le_dec b a then b else a.
Definition max2 (a b : Qc) : Qc := if Qclt_le_dec a b then b else a.

(** [Math.min()] of no argument is [Infinity], which the rationals do not
    have; [calculateStats] only calls it on a non-empty array. *)
Definition min_list (xs : list Qc) : Qc :=
  match xs with
  | [] => of_nat 0
  | x :: xs' => fold_left min2 xs' x
  end.

Definition max_list (xs : list Qc) : Qc :=
  match xs with
  | [] => of_nat 0
  | x :: xs' => fold_left max2 xs' x
  end.

(** What the rounding claims are stated with: an amount of [c]
    hundredths, the mathematical sum of a list of numbers, and "[r] is [x]
    rounded to two decimals, a 5 in the third decimal going up": [r] is a
    whole number of hundredths and [r - 0.005 <= x < r + 0.005]. *)
Definition cents (c : Z) : Qc := Q2Qc (c # 100).

Definition half_cent : Qc := Q2Qc (1 # 200).

Definition total_of (xs : list Qc) : Qc := foldr Qcplus (Q2Qc 0) xs.

Definition rounds_half_up_to_cents (x r : Qc) : Prop :=
  exists c : Z,
    r = cents c /\
    Qcle (Qcminus r half_cent) x /\ Qclt x (Qcplus r half_cent).

#[export] Instance number : JsNumber Qc := {|
  num := of_nat;
  add := Qcplus;
  mul := Qcmult;
  div := Qcdiv;
  Math_round := round;
  Math_min := min_list;
  Math_max := max_list;
|}.

End Exact.

(** *** IEEE 754 binary64 *)

Module Binary64.

Definition of_Z (z : Z) : float :=
  if z <? 0 then PrimFloat.opp (PrimFloat.of_uint63 (Uint63.of_Z (- z)))
  else PrimFloat.of_uint63 (Uint63.of_Z z).

Definition of_nat (n : nat) : float := of_Z (Z.of_nat n).

(** [Math.round]: NaN, the infinities and the zeros are returned as they
    are, and so is a number without fractional part; otherwise the result
    is [floor (x + 1/2)], computed exactly, with [-0] for a negative [x]
    that rounds to zero. *)
Definition round (x : float) : float :=
  match Prim2SF x with
  | S754_finite s m e =>
      if 0 <=? e then x
      else
        let n := if s then Z.neg m else Z.pos m in
        let d := 2 ^ (- e) in
        let r := (2 * n + d) / (2 * d) in
        if r =? 0 then (if s then PrimFloat.neg_zero else PrimFloat.zero)
        else of_Z r
  | _ => x
  end.

Definition min2 (a b : float) : float :=
  if PrimFloat.is_nan a || PrimFloat.is_nan b then PrimFloat.nan
  else if PrimFloat.ltb b a then b
  else if PrimFloat.ltb a b then a
  else if PrimFloat.get_sign a then a else b.

Definition max2 (a b : float) : float :=
  if PrimFloat.is_nan a || PrimFloat.is_nan b then PrimFloat.nan
  else if PrimFloat.ltb a b then b
  else if PrimFloat.ltb b a then a
  else if PrimFloat.get_sign a then b else a.

Definition min_list (xs : list float) : float :=
  fold_left min2 xs PrimFloat.infinity.

Definition max_list (xs : list float) : float :=
  fold_left max2 xs PrimFloat.neg_infinity.

(** The rational number a finite binary64 number stands for ([0] for NaN
    and the infinities). *)
Definition to_Qc (x : float) : Qc :=
  match Prim2SF x with
  | S754_finite s m e =>
      let n := if s then Z.neg m else Z.pos m in
      if 0 <=? e then Q2Qc (inject_Z (n * 2 ^ e))
      else Q2Qc (n # Z.to_pos (2 ^ (- e)))
  | _ => Q2Qc 0
  end.

(** What the accuracy of the arithmetic is stated with.  Every finite
    binary64 number is a whole number of units of [2 ^ -1074], and so is
    its product by 100 in units of [2 ^ -1120]: [units x] is the value of
    [x] in these units ([0] for NaN and the infinities). *)
Definition SFunits (x : spec_float) : Z :=
  match x with
  | S754_finite s m e => (if s then Z.neg m else Z.pos m) * 2 ^ (e + 1120)
  | _ => 0
  end.

Definition units (x : float) : Z := SFunits (Prim2SF x).

(** A finite number that is not below zero: a zero of either sign, or a
    finite number above zero. *)
Definition SFnot_below_zero (x : spec_float) : Prop :=
  (exists s, x = S754_zero s) \/
  exists m e, x = S754_finite false m e /\ - 1074 <= e.

Definition not_below_zero (x : float) : Prop :=
  match Prim2SF x with
  | S754_zero _ | S754_finite false _ _ => True
  | _ => False
  end.

(** [+0], or a finite number above zero. *)
Definition SFplain (x : spec_float) : Prop :=
  x = S754_zero false \/
  exists m e, x = S754_finite false m e /\ - 1074 <= e.

Definition plain (x : float) : Prop := SFplain (Prim2SF x).

(** What the rounding of a quotient is stated with.  A mantissa with its
    round and sticky bits locates the ratio [A / B]: the ratio lies from
    the mantissa up to the next integer, the round bit says whether it has
    reached the half in between, and the sticky bit whether it misses both
    the mantissa and that half. *)
Definition locates (mrs : shr_record) (A B : Z) : Prop :=
  shr_m mrs * B <= A < (shr_m mrs + 1) * B /\
  (shr_r mrs = true <-> (2 * shr_m mrs + 1) * B <= 2 * A) /\
  (shr_s mrs = false <->
   A = shr_m mrs * B \/ 2 * A = (2 * shr_m mrs + 1) * B).

(** The error that [n] additions of numbers below [2 ^ k] and the product
    by 100 can add up to, [(n + 2) * 2 ^ (k - 54)]. *)
Definition tolerance (n : nat) (k : Z) : Qc :=
  Q2Qc ((Z.of_nat n + 2) # Z.to_pos (2 ^ (54 - k))).


#[export] Instance number : JsNumber float := {|
  num := of_nat;
  add := PrimFloat.add;
  mul := PrimFloat.mul;
  div := PrimFloat.div;
  Math_round := round;
  Math_min := min_list;
  Math_max := max_list;
|}.

End Binary64.

(** ** Data model *)

Section Stats.

Context {N : Type} `{JsNumber N}.

(** An item record of the store, [{id, name, category, price}]. *)
Record Item := {
  id : Z;
  name : string;
  category : string;
  price : N;
}.

(** A bucket of the category breakdown, [{count, totalValue}]. *)
Record Bucket := {
  count : nat;
  bucketValue : N;             (* the bucket's [totalValue] *)
}.

Record PriceRange := {
  min : N;
  max : N;
}.

(** The statistics summary.  [categories] is a plain object used as a map
    from category name to bucket: its own properties. *)
Record Stats := {
  total : nat;
  averagePrice : N;
  totalValue : N;
  categories : gmap string Bucket;
  priceRange : PriceRange;
}.

(** What [calculateStats] is called with: the array of items the spec
    speaks of, or [null] / [undefined], which its guard also accepts. *)
Inductive JsItems :=
| JsUndefined
| JsNull
| JsArray (items : list Item).

(** ** calculateStats *)

(** The accumulator [{}] of the category reduction is an ordinary object:
    [acc[k]] finds the properties it inherits from [Object.prototype] when
    [acc] has no own property [k].  All of them are functions, except
    [__proto__], which reads as [Object.prototype] itself: all truthy. *)
Definition Object_prototype_keys : list string :=
  [ "constructor"; "hasOwnProperty"; "isPrototypeOf";
    "propertyIsEnumerable"; "toLocaleString"; "toString"; "valueOf";
    "__defineGetter__"; "__defineSetter__"; "__lookupGetter__";
    "__lookupSetter__"; "__proto__" ].

Definition inherited (k : string) : bool :=
  bool_decide (k ∈ Object_prototype_keys).

(** One step of [items.reduce((acc, item) => {...}, {})].
    - [acc] has the own property: [count++] and [totalValue += price] on
      its bucket;
    - [acc[item.category]] is an inherited (truthy) value: no bucket is
      created, and the two updates write [count] and [totalValue] on that
      inherited object, leaving the own properties of [acc] as they are;
    - otherwise a bucket [{count: 0, totalValue: 0}] is created first. *)
Definition categories_step (acc : gmap string Bucket) (item : Item)
  : gmap string Bucket :=
  match acc !! category item with
  | Some b =>
      <[category item :=
          {| count := S (count b);
             bucketValue := add (bucketValue b) (price item) |}]> acc
  | None =>
      if inherited (category item) then acc
      else
        <[category item :=
            {| count := 1; bucketValue := add (num 0) (price item) |}]> acc
  end.

Definition zero_stats : Stats :=
  {| total := 0;
     averagePrice := num 0;
     totalValue := num 0;
     categories := ∅;
     priceRange := {| min := num 0; max := num 0 |} |}.

(** [items.reduce((acc, cur) => acc + cur.price, 0)] *)
Definition sum_prices (items : list Item) : N :=
  fold_left (fun acc cur => add acc (price cur)) items (num 0).

(** [Math.round(x * 100) / 100] *)
Definition round2 (x : N) : N :=
  div (Math_round (mul x (num 100))) (num 100).

Definition calculateStats (input : JsItems) : Stats :=
  match input with
  | JsUndefined | JsNull | JsArray [] => zero_stats
  | JsArray items =>
      let total := length items in
      let totalValue := sum_prices items in
      let averagePrice := div totalValue (num total) in
      let categories := fold_left categories_step items ∅ in
      let prices := map price items in
      let priceRange :=
        {| min := Math_min prices; max := Math_max prices |} in
      {| total := total;
         averagePrice := round2 averagePrice;
         totalValue := round2 totalValue;
         categories := categories;
         priceRange := priceRange |}
  end.

(** *** What the breakdown is compared with *)

(** The items of category [k], in store order, compared as exact strings. *)
Definition in_category (k : string) (items : list Item) : list Item :=
  filter (fun i => category i = k) items.

(** The bucket the breakdown should hold for the items [l] of a category:
    their number, and their prices added up from [0] in store order. *)
Definition bucket_of (l : list Item) : Bucket :=
  {| count := length l; bucketValue := sum_prices l |}.

(** The sum of the prices when each one is rounded to two decimals before
    it is added. *)
Definition sum_rounded_prices (items : list Item) : N :=
  fold_left (fun acc cur => add acc (round2 (price cur))) items (num 0).

End Stats.

Arguments Item N : clear implicits.
Arguments Bucket N : clear implicits.
Arguments PriceRange N : clear implicits.
Arguments Stats N : clear implicits.
Arguments JsItems N : clear implicits.

(** The prices of a binary64 store added up exactly, in the units of
    [Binary64.units], and as a rational number. *)
Definition price_units (items : list (Item float)) : Z :=
  foldr (fun i z => Binary64.units (price i) + z) 0 items.

Definition exact_sum (items : list (Item float)) : Qc :=
  Exact.total_of (map (fun i => Binary64.to_Qc (price i)) items).

(** The mean of the prices of a binary64 store, computed exactly. *)
Definition exact_mean (items : list (Item float)) : Qc :=
  Qcdiv (exact_sum items) (Exact.of_nat (length items)).


(** ** The module state and its callbacks

    The module keeps three variables, [statsCache], [cacheTimestamp] and
    [watcher].  Node runs one callback at a time, to completion: the call of
    [setupFileWatcher], the listener given to [fs.watch], the route handler
    up to its [await], the callback given to [fs.readFile] together with the
    continuations of the promise it settles, and [router._cleanup].  Each is
    a function on the state below that also lists what it does to the
    outside (responses, console). *)

Inductive JsError :=
| SystemError (code : string)      (* what [fs.readFile] and [fs.watch] fail with *)
| SyntaxError (message : string).  (* what [JSON.parse] throws *)

(** How one [fs.readFile(DATA_PATH)] of [loadStats] ends. *)
Inductive ReadOutcome (N : Type) :=
| ReadFailed (err : JsError)       (* the callback is called with [err] *)
| ParseFailed (parseErr : JsError) (* [JSON.parse(raw)] throws *)
| Parsed (items : JsItems N).      (* [JSON.parse(raw)] returns *)

Arguments ReadFailed {N} err.
Arguments ParseFailed {N} parseErr.
Arguments Parsed {N} items.

(** Who awaits the promise of a [loadStats()] call. *)
Inductive Awaiter :=
| FromRequest (req : nat)          (* the route handler, for request [req] *)
| FromWatcher.                     (* the listener of the file watcher *)

(** The JSON body of a response: the summary's fields, [cached], and
    [cacheAge] when the key is there. *)
Record Body (N : Type) := {
  stats : Stats N;
  cached : bool;
  cacheAge : option Z;
}.

Arguments stats {N} _.
Arguments cached {N} _.
Arguments cacheAge {N} _.

Inductive Effect (N : Type) :=
| res_json (req : nat) (body : Body N)
| next (req : nat) (err : JsError)
| console_log (message : string)
| console_error (message : string) (err : JsError).

Arguments res_json {N} req body.
Arguments next {N} req err.
Arguments console_log {N} message.
Arguments console_error {N} message err.

Record State (N : Type) := {
  statsCache : option (Stats N);
  cacheTimestamp : option Z;
  watcher : option nat;            (* the FSWatcher, named by its handle *)
  reading : list Awaiter;          (* the [fs.readFile] calls in flight *)
  open_handles : gset nat;         (* the FSWatchers created and not closed *)
  created : nat;                   (* how many FSWatchers were created *)
}.

Arguments statsCache {N} _.
Arguments cacheTimestamp {N} _.
Arguments watcher {N} _.
Arguments reading {N} _.
Arguments open_handles {N} _.
Arguments created {N} _.

(** How the call [fs.watch(DATA_PATH, listener)] ends. *)
Inductive WatchOutcome :=
| WatchStarted
| WatchThrows (err : JsError).

Inductive Event (N : Type) :=
| call_setupFileWatcher (w : WatchOutcome)
| call_cleanup
| fs_event (handle : nat) (eventType : string)
| http_get (req : nat) (now : Z)
| read_done (i : nat) (outcome : ReadOutcome N) (now : Z).

Arguments call_setupFileWatcher {N} w.
Arguments call_cleanup {N}.
Arguments fs_event {N} handle eventType.
Arguments http_get {N} req now.
Arguments read_done {N} i outcome now.

Section Callbacks.

Context {N : Type} `{JsNumber N}.

(** *** A callback: state in, state and effects out *)

Definition Callback (A : Type) : Type :=
  State N -> A * State N * list (Effect N).

Definition ret {A} (a : A) : Callback A := fun st => (a, st, []).

Definition bind {A B} (m : Callback A) (k : A -> Callback B) : Callback B :=
  fun st =>
    let '(a, st1, out1) := m st in
    let '(b, st2, out2) := k a st1 in
    (b, st2, out1 ++ out2).

#[local] Instance callback_ret : MRet Callback := @ret.
#[local] Instance callback_bind : MBind Callback :=
  fun A B k m => bind m k.

Definition read {A} (f : State N -> A) : Callback A :=
  fun st => (f st, st, []).

Definition emit (e : Effect N) : Callback unit :=
  fun st => (tt, st, [e]).

(** Assignments to the module variables and to the two tables of the
    runtime, one field at a time. *)
Definition set_statsCache (v : option (Stats N)) (st : State N) : State N :=
  {| statsCache := v;
     cacheTimestamp := cacheTimestamp st;
     watcher := watcher st;
     reading := reading st;
     open_handles := open_handles st;
     created := created st |}.

Definition set_cacheTimestamp (v : option Z) (st : State N) : State N :=
  {| statsCache := statsCache st;
     cacheTimestamp := v;
     watcher := watcher st;
     reading := reading st;
     open_handles := open_handles st;
     created := created st |}.

Definition set_watcher (v : option nat) (st : State N) : State N :=
  {| statsCache := statsCache st;
     cacheTimestamp := cacheTimestamp st;
     watcher := v;
     reading := reading st;
     open_handles := open_handles st;
     created := created st |}.

Definition set_reading (v : list Awaiter) (st : State N) : State N :=
  {| statsCache := statsCache st;
     cacheTimestamp := cacheTimestamp st;
     watcher := watcher st;
     reading := v;
     open_handles := open_handles st;
     created := created st |}.

Definition set_handles (v : gset nat) (n : nat) (st : State N) : State N :=
  {| statsCache := statsCache st;
     cacheTimestamp := cacheTimestamp st;
     watcher := watcher st;
     reading := reading st;
     open_handles := v;
     created := n |}.

Definition modify (f : State N -> State N) : Callback unit :=
  fun st => (tt, f st, []).

Definition assign_statsCache (v : option (Stats N)) : Callback unit :=
  modify (set_statsCache v).

Definition assign_cacheTimestamp (v : option Z) : Callback unit :=
  modify (set_cacheTimestamp v).

Definition assign_watcher (v : option nat) : Callback unit :=
  modify (set_watcher v).

(** [fs.readFile(DATA_PATH, 'utf-8', callback)]: the read is in flight
    until [read_done] calls it back. *)
Definition fs_readFile (a : Awaiter) : Callback unit :=
  modify (fun st => set_reading (reading st ++ [a]) st).

(** The read at position [i] is over. *)
Definition settle_read (i : nat) : Callback unit :=
  modify (fun st => set_reading (delete i (reading st)) st).

(** [fs.watch(DATA_PATH, listener)] returning a new FSWatcher. *)
Definition fs_watch : Callback nat :=
  fun st =>
    (created st,
     set_handles ({[created st]} ∪ open_handles st) (S (created st)) st,
     []).

(** [w.close()] *)
Definition close (w : nat) : Callback unit :=
  modify (fun st => set_handles (open_handles st ∖ {[w]}) (created st) st).

(** *** loadStats *)

(** The call starts the read and returns the promise; [a] awaits it. *)
Definition loadStats (a : Awaiter) : Callback unit := fs_readFile a.

(** What runs after [await loadStats()] when the promise is fulfilled. *)
Definition resolved (a : Awaiter) (stats : Stats N) : Callback unit :=
  match a with
  | FromRequest req =>
      emit (res_json req
              {| stats := stats; cached := false; cacheAge := None |})
  | FromWatcher => emit (console_log "Stats cache refreshed")
  end.

(** What runs after [await loadStats()] when the promise is rejected. *)
Definition rejected (a : Awaiter) (err : JsError) : Callback unit :=
  match a with
  | FromRequest req => emit (next req err)
  | FromWatcher => emit (console_error "Error refreshing stats cache:" err)
  end.

(** The callback [(err, raw) => {...}] given to [fs.readFile], run with
    [Date.now()] reading [now]. *)
Definition loadStats_callback (a : Awaiter) (outcome : ReadOutcome N)
    (now : Z) : Callback unit :=
  match outcome with
  | ReadFailed err => rejected a err
  | ParseFailed parseErr => rejected a parseErr
  | Parsed items =>
      let stats := calculateStats items in
      assign_statsCache (Some stats) ;;
      assign_cacheTimestamp (Some now) ;;
      resolved a stats
  end.

(** *** The file watcher *)

(** The listener [async (eventType) => {...}] given to [fs.watch], up to
    its [await]. *)
Definition watch_listener (eventType : string) : Callback unit :=
  if decide (eventType = "change") then
    emit (console_log "Data file changed, invalidating stats cache...") ;;
    assign_statsCache None ;;
    assign_cacheTimestamp None ;;
    loadStats FromWatcher
  else ret tt.

Definition setupFileWatcher (w : WatchOutcome) : Callback unit :=
  cur ← read watcher;
  match cur with
  | Some _ => ret tt
  | None =>
      match w with
      | WatchStarted =>
          h ← fs_watch;
          assign_watcher (Some h) ;;
          emit (console_log "File watcher initialized for stats caching")
      | WatchThrows err =>
          emit (console_error "Error setting up file watcher:" err)
      end
  end.

(** [router._cleanup] *)
Definition cleanup : Callback unit :=
  cur ← read watcher;
  match cur with
  | Some w => close w ;; assign_watcher None
  | None => ret tt
  end.

(** *** GET /api/stats *)

(** [Date.now() - cacheTimestamp]: [null] counts as [0]. *)
Definition minus_timestamp (now : Z) (t : option Z) : Z :=
  now - default 0 t.

(** The route handler, up to its [await], with [Date.now()] reading
    [now]. *)
Definition router_get (req : nat) (now : Z) : Callback unit :=
  c ← read statsCache;
  match c with
  | Some stats =>
      t ← read cacheTimestamp;
      emit (res_json req
              {| stats := stats; cached := true;
                 cacheAge := Some (minus_timestamp now t) |})
  | None => loadStats (FromRequest req)
  end.

(** *** The event loop *)

Definition run_callback (c : Callback unit) (st : State N)
  : State N * list (Effect N) :=
  let '(_, st', out) := c st in (st', out).

Definition step (st : State N) (ev : Event N) : State N * list (Effect N) :=
  match ev with
  | call_setupFileWatcher w => run_callback (setupFileWatcher w) st
  | call_cleanup => run_callback cleanup st
  | fs_event handle eventType =>
      if decide (handle ∈ open_handles st)
      then run_callback (watch_listener eventType) st
      else (st, [])
  | http_get req now => run_callback (router_get req now) st
  | read_done i outcome now =>
      match reading st !! i with
      | Some a =>
          run_callback (settle_read i ;; loadStats_callback a outcome now) st
      | None => (st, [])
      end
  end.

Fixpoint run (st : State N) (evs : list (Event N))
  : State N * list (Effect N) :=
  match evs with
  | [] => (st, [])
  | ev :: evs' =>
      let '(st1, out1) := step st ev in
      let '(st2, out2) := run st1 evs' in
      (st2, out1 ++ out2)
  end.

(** The state when the module starts to load: nothing cached, no watcher,
    nothing in flight. *)
Definition initial : State N :=
  {| statsCache := None;
     cacheTimestamp := None;
     watcher := None;
     reading := [];
     open_handles := ∅;
     created := 0 |}.

(** *** What the properties are stated with *)

(** The two cache variables are set together or not at all. *)
Definition paired (st : State N) : Prop :=
  (statsCache st = None /\ cacheTimestamp st = None) \/
  (is_Some (statsCache st) /\ is_Some (cacheTimestamp st)).





(** The read or the parse failed, with [err]. *)
Definition fails_with (outcome : ReadOutcome N) (err : JsError) : Prop :=
  outcome = ReadFailed err \/ outcome = ParseFailed err.

(** The FSWatchers that are open are the one the module holds. *)
Definition handles_tracked (st : State N) : Prop :=
  open_handles st =
  match watcher st with
  | Some h => {[h]}
  | None => ∅
  end.

End Callbacks.

(** ** Sample stores *)

Module Samples.

Definition item {N} (i : Z) (n c : string) (p : N) : Item N :=
  {| id := i; name := n; category := c; price := p |}.

(** Five items, two of them in "Electronics", priced 999.99 and 29.99. *)
Definition store : list (Item float) :=
  [ item 1 "Laptop" "Electronics" 999.99%float;
    item 2 "Desk" "Furniture" 349.5%float;
    item 3 "Mouse" "Electronics" 29.99%float;
    item 4 "Chair" "Furniture" 120%float;
    item 5 "Mug" "Kitchen" 7.25%float ].

Definition store_exact : list (Item Qc) :=
  [ item 1 "Laptop" "Electronics" (Exact.cents 99999);
    item 2 "Desk" "Furniture" (Exact.cents 34950);
    item 3 "Mouse" "Electronics" (Exact.cents 2999);
    item 4 "Chair" "Furniture" (Exact.cents 12000);
    item 5 "Mug" "Kitchen" (Exact.cents 725) ].

(** Two items priced 0.004 each. *)
Definition fractions : list (Item float) :=
  [ item 1 "Washer" "Hardware" 0.004%float;
    item 2 "Rivet" "Hardware" 0.004%float ].

Definition fractions_exact : list (Item Qc) :=
  [ item 1 "Washer" "Hardware" (Q2Qc (4 # 1000));
    item 2 "Rivet" "Hardware" (Q2Qc (4 # 1000)) ].

(** A single item priced 1.005, and a single item priced 1.105. *)
Definition gauge : list (Item float) :=
  [ item 1 "Gauge" "Tools" 1.005%float ].

Definition gauge_exact : list (Item Qc) :=
  [ item 1 "Gauge" "Tools" (Q2Qc (1005 # 1000)) ].

Definition valve : list (Item float) :=
  [ item 1 "Valve" "Tools" 1.105%float ].

(** A single item priced 1e307. *)
Definition ingot : list (Item float) :=
  [ item 1 "Ingot" "Metals" 1e307%float ].

(** The module loads and starts its watcher; a first request at time
    1000 finds no cache and its read of the store comes back at 1010. *)
Definition session : list (Event float) :=
  [ call_setupFileWatcher WatchStarted;
    http_get 1 1000;
    read_done 0 (Parsed (JsArray store)) 1010 ].

(** The state after that session, and the state right after the module
    has loaded. *)
Definition loaded : State float :=
  (run (H := Binary64.number) initial session).1.

Definition watching : State float :=
  (run (H := Binary64.number) initial
     [call_setupFileWatcher WatchStarted]).1.

Definition enoent : JsError := SystemError "ENOENT".

(** The store after a sixth item was appended to it. *)
Definition store6 : list (Item float) :=
  store ++ [ item 999 "New Item" "Test" 100%float ].

End Samples.

(** ** What the further properties of the summary are stated with *)

Section Measures.

Context {N : Type} `{JsNumber N}.

(** The items a breakdown counts: its [count]s added up. *)
Definition counted (m : gmap string (Bucket N)) : nat :=
  map_fold (fun _ b n => (count b + n)%nat) 0%nat m.

(** The items whose category is not a name an object inherits. *)
Definition bucketed (items : list (Item N)) : list (Item N) :=
  filter (fun i => inherited (category i) = false) items.

End Measures.

(** ** What the further properties of the cache are stated with *)

Section Accounting.

Context {N : Type}.

(** The requests a sequence of events brings in, in order. *)
Definition requested (evs : list (Event N)) : list nat :=
  omap (fun ev => match ev with http_get req _ => Some req | _ => None end) evs.

(** The requests answered by a list of effects, with a body or an error. *)
Definition answered (out : list (Effect N)) : list nat :=
  omap (fun e => match e with
                 | res_json req _ | next req _ => Some req
                 | _ => None
                 end) out.

(** The requests whose read of the store is in flight. *)
Definition awaiting (st : State N) : list nat :=
  omap (fun a => match a with FromRequest req => Some req | _ => None end)
    (reading st).

(** The answers among a list of effects, bodies and errors, in order. *)
Definition answers (out : list (Effect N)) : list (Effect N) :=
  omap (fun e => match e with
                 | res_json _ _ | next _ _ => Some e
                 | _ => None
                 end) out.

(** One answer from a cache holding [s] since [t] for each request the
    events bring in, in order. *)
Definition cached_answers (s : Stats N) (t : option Z)
    (evs : list (Event N)) : list (Effect N) :=
  omap (fun ev => match ev with
                  | http_get req now =>
                      Some (res_json req
                              {| stats := s; cached := true;
                                 cacheAge := Some (minus_timestamp now t) |})
                  | _ => None
                  end) evs.

(** A cache holding [s] since [t], with no watcher open and no read in
    flight. *)
Definition settled (s : Stats N) (t : option Z) (st : State N) : Prop :=
  statsCache st = Some s /\ cacheTimestamp st = t /\
  open_handles st = ∅ /\ reading st = [].

(** The event starts a watcher. *)
Definition starts_watcher (ev : Event N) : Prop :=
  ev = call_setupFileWatcher WatchStarted.

End Accounting.

(** ** The items route (backend/src/routes/items.js)

    The three handlers read the whole store with [readData] and answer from
    what they read; [POST] then writes the whole store back with
    [writeData].  The handlers are functions of the array they read; the
    reads and writes in flight are driven by the events of [Store] below. *)

Module ItemsRoute.

(** What [parseInt(s, 10)] returns, and what the handler computes from it:
    [NaN], an integer that binary64 holds, or an infinity (a numeral beyond
    the range of binary64 parses to one).  [-0] is read as [0]: the handler
    answers the same for both. *)
Inductive ParsedInt :=
| NaN
| Int (z : Z)
| Infinity (neg : bool).

(** The binary64 number nearest to the integer [z], ties to even: [z]
    itself up to [2 ^ 53], an infinity from [2 ^ 1024 - 2 ^ 970] on. *)
Definition nearest (z : Z) : ParsedInt :=
  let a := Z.abs z in
  if a <=? 2 ^ 53 then Int z
  else
    let shift := Z.log2 a - 52 in
    let q := a / 2 ^ shift in
    let r := a mod 2 ^ shift in
    let half := 2 ^ (shift - 1) in
    let q' := if (r <? half) || ((r =? half) && Z.even q) then q else q + 1 in
    if 2 ^ 1024 <=? q' * 2 ^ shift then Infinity (z <? 0)
    else Int (Z.sgn z * (q' * 2 ^ shift)).

(** [a - b] *)
Definition minus (a b : ParsedInt) : ParsedInt :=
  match a, b with
  | NaN, _ | _, NaN => NaN
  | Int x, Int y => nearest (x - y)
  | Int _, Infinity s => Infinity (negb s)
  | Infinity s, Int _ => Infinity s
  | Infinity s, Infinity s' => if bool_decide (s = s') then NaN else Infinity s
  end.

(** [a * b] *)
Definition times (a b : ParsedInt) : ParsedInt :=
  match a, b with
  | NaN, _ | _, NaN => NaN
  | Int x, Int y => nearest (x * y)
  | Int x, Infinity s | Infinity s, Int x =>
      if x =? 0 then NaN else Infinity (xorb s (x <? 0))
  | Infinity s, Infinity s' => Infinity (xorb s s')
  end.

(** [a + b] *)
Definition plus (a b : ParsedInt) : ParsedInt :=
  match a, b with
  | NaN, _ | _, NaN => NaN
  | Int x, Int y => nearest (x + y)
  | Int _, Infinity s | Infinity s, Int _ => Infinity s
  | Infinity s, Infinity s' => if bool_decide (s = s') then Infinity s else NaN
  end.

(** A number as [res.json] writes it: [NaN] and the infinities as [null]. *)
Definition to_json (a : ParsedInt) : option Z :=
  match a with
  | Int z => Some z
  | NaN | Infinity _ => None
  end.

(** The index [Array.prototype.slice] starts or stops at: [NaN] counts as
    [0], a negative index counts from the end, and the result is clamped to
    the array. *)
Definition relative_index (len : nat) (i : ParsedInt) : nat :=
  match i with
  | NaN => 0
  | Int z =>
      if z <? 0 then Z.to_nat (Z.max (Z.of_nat len + z) 0)
      else Z.to_nat (Z.min z (Z.of_nat len))
  | Infinity true => 0
  | Infinity false => len
  end.

(** [l.slice(start, stop)] *)
Definition slice {A} (l : list A) (start stop : ParsedInt) : list A :=
  let k := relative_index (length l) start in
  let final := relative_index (length l) stop in
  take (final - k) (drop k l).

(** [Math.ceil(len / d)] as [res.json] writes it: [len / 0] is an infinity
    or [NaN], and [len / Infinity] is [0].  For another [d] the quotient
    is rounded to binary64 before [Math.ceil]; with [len] the length of an
    array this never takes it to or across an integer. *)
Definition ceil_div (len : nat) (d : ParsedInt) : option Z :=
  match d with
  | NaN => None
  | Int z => if z =? 0 then None else Some (- ((- Z.of_nat len) / z))
  | Infinity _ => Some 0
  end.

(** [a < len] *)
Definition less_than (a : ParsedInt) (len : nat) : bool :=
  match a with
  | NaN => false
  | Int z => z <? Z.of_nat len
  | Infinity s => s
  end.

(** [z === a], for the [id] [z] of an item: never true of [NaN]. *)
Definition strict_equal (z : Z) (a : ParsedInt) : bool :=
  match a with
  | Int x => z =? x
  | NaN | Infinity _ => false
  end.

(** [s.includes(t)] *)
Fixpoint includes (s t : string) : bool :=
  if String.prefix t s then true
  else match s with
       | EmptyString => false
       | String _ s' => includes s' t
       end.

(** [req.query]: each of [page] and [limit] is absent or is given, and then
    stands here as what [parseInt] makes of it; [q] is absent or a
    string. *)
Record Query := {
  query_page : option ParsedInt;
  query_limit : option ParsedInt;
  query_q : option string;
}.

Record Pagination := {
  page : option Z;
  limit : option Z;
  total : nat;
  totalPages : option Z;
  hasMore : bool;
}.

Record ListBody (N : Type) := {
  data : list (Item N);
  pagination : Pagination;
}.

Arguments data {N} _.
Arguments pagination {N} _.

(** A value of the JSON body of a request, as far as the validation tells
    values apart; [JsOther] is an object or an array.  The number of
    [JsNumber] is any number [JSON.parse] returns, [Infinity] for [1e999]
    included. *)
Inductive JsValue (N : Type) :=
| JsUndefinedV
| JsNullV
| JsBoolean (b : bool)
| JsNumber (n : N)
| JsString (s : string)
| JsOther.

Arguments JsUndefinedV {N}.
Arguments JsNullV {N}.
Arguments JsBoolean {N} b.
Arguments JsNumber {N} n.
Arguments JsString {N} s.
Arguments JsOther {N}.

(** [req.body], destructured. *)
Record PostBody (N : Type) := {
  body_name : JsValue N;
  body_category : JsValue N;
  body_price : JsValue N;
}.

Arguments body_name {N} _.
Arguments body_category {N} _.
Arguments body_price {N} _.

(** What a handler answers with.  The items of a body are written as
    JSON: their price is a number or [null]. *)
Inductive Reply (N : Type) :=
| json_list (body : ListBody (option N))     (* [res.json({data, pagination})] *)
| json_item (status : nat) (item : Item (option N))
                                             (* [res.json(item)], [res.status(201).json(newItem)] *)
| next_status (status : nat) (message : string)  (* [next(err)], [err.status] set *)
| next_error (err : JsError).                (* [next(err)], an error of [fs] or of [JSON.parse] *)

Arguments json_list {N} body.
Arguments json_item {N} status item.
Arguments next_status {N} status message.
Arguments next_error {N} err.

(** [x < 0] on the numbers of the body. *)
Class JsNegative (N : Type) := negative : N -> bool.

#[export] Instance negative_exact : JsNegative Qc :=
  fun x => bool_decide (Qclt x (Q2Qc 0)).

#[export] Instance negative_binary64 : JsNegative float :=
  fun x => PrimFloat.ltb x PrimFloat.zero.

(** A number as [JSON.stringify] writes it and [JSON.parse] reads it
    back: [NaN] and the infinities are written [null], [-0] is written
    [0], and any other number is read back as it was. *)
Class JsonNumber (N : Type) := JSON_number : N -> option N.

#[export] Instance JSON_exact : JsonNumber Qc := Some.

#[export] Instance JSON_binary64 : JsonNumber float :=
  fun x =>
    if PrimFloat.is_nan x || PrimFloat.is_infinity x then None
    else if PrimFloat.eqb x PrimFloat.zero then Some PrimFloat.zero
    else Some x.

Section Handlers.

Context {N : Type} `{JsNegative N}.

(** [String.prototype.toLowerCase] and [String.prototype.trim], which the
    engine provides. *)
Variables (toLowerCase trim : string -> string).

(** *** GET /api/items *)

Definition pageNum (query : Query) : ParsedInt :=
  default (Int 1) (query_page query).

Definition limitNum (query : Query) : ParsedInt :=
  default (Int 10) (query_limit query).

(** The callback of [results.filter]. *)
Definition matches (searchTerm : string) (item : Item N) : bool :=
  includes (toLowerCase (name item)) searchTerm ||
  includes (toLowerCase (category item)) searchTerm.

(** [results] after the search filter: [if (q)] skips an absent and an
    empty [q]. *)
Definition search (q : option string) (data : list (Item N))
  : list (Item N) :=
  match q with
  | None => data
  | Some s =>
      if decide (s = "") then data
      else
        let searchTerm := trim (toLowerCase s) in
        filter (fun item => matches searchTerm item = true) data
  end.

Definition startIndex (query : Query) : ParsedInt :=
  times (minus (pageNum query) (Int 1)) (limitNum query).

Definition endIndex (query : Query) : ParsedInt :=
  plus (startIndex query) (limitNum query).

(** The handler, from the array it read. *)
Definition list_items (query : Query) (data : list (Item N)) : ListBody N :=
  let results := search (query_q query) data in
  let paginatedResults := slice results (startIndex query) (endIndex query) in
  {| data := paginatedResults;
     pagination :=
       {| page := to_json (pageNum query);
          limit := to_json (limitNum query);
          total := length results;
          totalPages := ceil_div (length results) (limitNum query);
          hasMore := less_than (endIndex query) (length results) |} |}.

(** *** GET /api/items/:id *)

(** [data.find(i => i.id === parseInt(req.params.id, 10))] *)
Definition find_item (wanted : ParsedInt) (data : list (Item N))
  : option (Item N) :=
  List.find (fun i => strict_equal (id i) wanted) data.

(** *** POST /api/items *)

(** [!v || typeof v !== 'string' || v.trim().length === 0], for a string. *)
Definition blank (s : string) : bool :=
  bool_decide (s = "") || bool_decide (trim s = "").

(** The three checks of the handler, in their order: the message of the
    first that fails, or the name, the category and the price when all
    pass. *)
Definition validate (b : PostBody N) : string + (string * string * N) :=
  match body_name b with
  | JsString n =>
      if blank n
      then inl "Name is required and must be a non-empty string"
      else
        match body_category b with
        | JsString c =>
            if blank c
            then inl "Category is required and must be a non-empty string"
            else
              match body_price b with
              | JsNumber p =>
                  if negative p
                  then inl "Price is required and must be a non-negative number"
                  else inr (n, c, p)
              | _ => inl "Price is required and must be a non-negative number"
              end
        | _ => inl "Category is required and must be a non-empty string"
        end
  | _ => inl "Name is required and must be a non-empty string"
  end.

(** [newItem], with [Date.now()] reading [now]. *)
Definition newItem (n c : string) (p : N) (now : Z) : Item N :=
  {| id := now; name := trim n; category := trim c; price := p |}.

(** The query for page [p] (from 1), [n] items a page, of the search [q]. *)
Definition page_of (q : option string) (n p : Z) : Query :=
  {| query_page := Some (Int p); query_limit := Some (Int n);
     query_q := q |}.

End Handlers.

(** *** The store and the requests in flight *)

Section Store.

Context {N : Type} `{JsNegative N} `{JsonNumber N}.

Variables (toLowerCase trim : string -> string).

(** An item as JSON has it: its price is a number or [null].  [new_json]
    is the item the handler has built, written by [JSON.stringify];
    [rewritten] is an item read from JSON, written again. *)
Definition new_json (item : Item N) : Item (option N) :=
  {| id := id item; name := name item; category := category item;
     price := JSON_number (price item) |}.

Definition rewritten (item : Item (option N)) : Item (option N) :=
  {| id := id item; name := name item; category := category item;
     price := price item ≫= JSON_number |}.

(** The body of a listing, as [res.json] writes it. *)
Definition sent (body : ListBody (option N)) : ListBody (option N) :=
  {| data := rewritten <$> data body; pagination := pagination body |}.

(** What the data file holds: the array [JSON.parse] makes of its text, or
    a text on which [JSON.parse] throws [parseErr]. *)
Inductive Content :=
| Holds (arr : list (Item (option N)))
| Garbled (parseErr : JsError).

(** A handler suspended at an [await].  [written] is the array in the
    text that [JSON.stringify(data, null, 2)] made when [writeData] was
    called. *)
Inductive Job :=
| list_reads (req : nat) (query : Query)      (* [GET /] at [readData()] *)
| item_reads (req : nat) (i : ParsedInt)      (* [GET /:id] at [readData()] *)
| post_reads (req : nat) (n c : string) (p : N)  (* [POST /] at [readData()] *)
| post_writes (req : nat) (item : Item N) (written : list (Item (option N))).
                                              (* [POST /] at [writeData(data)] *)

Inductive Request :=
| get_list (query : Query)
| get_item (i : ParsedInt)
| post_item (b : PostBody N).

(** The data file, and the handlers in flight. *)
Record Store := {
  file : Content;
  jobs : list Job;
}.

(** What a write that failed has left of the file: the file as it was, a
    part of the new text (on which [JSON.parse] throws), or the whole new
    text.  A read and a write are each one step: a read that meets a
    write under way and finds a text it cannot parse is a read that
    fails. *)
Inductive Remains :=
| Untouched
| Cut_short (parseErr : JsError)
| Written_out.

Inductive StoreEvent :=
| arrives (req : nat) (r : Request)
| io_done (j : nat) (now : Z)          (* the read or the write of job [j] is over *)
| read_fails (j : nat) (err : JsError) (* [fs.readFile] of job [j] fails *)
| write_fails (j : nat) (err : JsError) (rest : Remains).
                                       (* [fs.writeFile] of job [j] fails *)

(** The handler of job [j] is over, with [reply] for request [req]. *)
Definition finish (st : Store) (j req : nat) (reply : Reply N)
  : Store * list (nat * Reply N) :=
  ({| file := file st; jobs := delete j (jobs st) |}, [(req, reply)]).

Definition store_step (st : Store) (ev : StoreEvent)
  : Store * list (nat * Reply N) :=
  match ev with
  | arrives req (get_list query) =>
      ({| file := file st; jobs := jobs st ++ [list_reads req query] |}, [])
  | arrives req (get_item i) =>
      ({| file := file st; jobs := jobs st ++ [item_reads req i] |}, [])
  | arrives req (post_item b) =>
      match validate trim b with
      | inl message => (st, [(req, next_status 400 message)])
      | inr (n, c, p) =>
          ({| file := file st; jobs := jobs st ++ [post_reads req n c p] |}, [])
      end
  | io_done j now =>
      match jobs st !! j, file st with
      | Some (list_reads req query), Holds arr =>
          finish st j req
            (json_list (sent (list_items toLowerCase trim query arr)))
      | Some (item_reads req i), Holds arr =>
          finish st j req
            match find_item i arr with
            | Some item => json_item 200 (rewritten item)
            | None => next_status 404 "Item not found"
            end
      | Some (post_reads req n c p), Holds arr =>
          let item := newItem trim n c p now in
          ({| file := file st;
              jobs := <[j := post_writes req item
                               ((rewritten <$> arr) ++ [new_json item])]>
                        (jobs st) |}, [])
      | Some (list_reads req _), Garbled parseErr
      | Some (item_reads req _), Garbled parseErr
      | Some (post_reads req _ _ _), Garbled parseErr =>
          finish st j req (next_error parseErr)
      | Some (post_writes req item written), _ =>
          ({| file := Holds written; jobs := delete j (jobs st) |},
           [(req, json_item 201 (new_json item))])
      | None, _ => (st, [])
      end
  | read_fails j err =>
      match jobs st !! j with
      | Some (list_reads req _) | Some (item_reads req _)
      | Some (post_reads req _ _ _) => finish st j req (next_error err)
      | _ => (st, [])
      end
  | write_fails j err rest =>
      match jobs st !! j with
      | Some (post_writes req item written) =>
          ({| file := match rest with
                      | Untouched => file st
                      | Cut_short parseErr => Garbled parseErr
                      | Written_out => Holds written
                      end;
              jobs := delete j (jobs st) |},
           [(req, next_error err)])
      | _ => (st, [])
      end
  end.

Fixpoint store_run (st : Store) (evs : list StoreEvent)
  : Store * list (nat * Reply N) :=
  match evs with
  | [] => (st, [])
  | ev :: evs' =>
      let '(st1, out1) := store_step st ev in
      let '(st2, out2) := store_run st1 evs' in
      (st2, out1 ++ out2)
  end.

(** *** What the properties of the route are stated with *)

(** An item of the file as the route lets one in: a name and a category
    that are not empty, and a price that is [null] or not below zero. *)
Definition well_formed (item : Item (option N)) : Prop :=
  name item <> "" /\ category item <> "" /\
  match price item with
  | Some p => negative p = false
  | None => True
  end.

Definition file_well_formed (c : Content) : Prop :=
  match c with
  | Holds arr => Forall well_formed arr
  | Garbled _ => True
  end.

(** The items written by the jobs that are about to write. *)
Definition job_well_formed (job : Job) : Prop :=
  match job with
  | post_reads _ n c p =>
      trim n <> "" /\ trim c <> "" /\ negative p = false
  | post_writes _ item written => Forall well_formed written
  | _ => True
  end.

(** The request a job belongs to, the requests in flight, the requests a
    sequence of events brings in, and the requests a list of replies
    answers. *)
Definition job_request (job : Job) : nat :=
  match job with
  | list_reads req _ | item_reads req _ | post_reads req _ _ _
  | post_writes req _ _ => req
  end.

Definition pending (st : Store) : list nat := job_request <$> jobs st.

Definition arrived (evs : list StoreEvent) : list nat :=
  omap (fun ev => match ev with arrives req _ => Some req | _ => None end) evs.

Definition replied (out : list (nat * Reply N)) : list nat := fst <$> out.

End Store.

Arguments Content N : clear implicits.
Arguments Job N : clear implicits.
Arguments Request N : clear implicits.
Arguments Store N : clear implicits.
Arguments StoreEvent N : clear implicits.

End ItemsRoute.

(** ** The pagination bar of the items page (frontend/src/pages/Items.js) *)

Module ItemsPage.

Definition maxPagesToShow : Z := 5.

(** The [useMemo] that computes [pageNumbers] from [currentPage] and
    [pagination.totalPages]. *)
Definition pageNumbers (currentPage totalPages : Z) : list Z :=
  let startPage := Z.max 1 (currentPage - maxPagesToShow / 2) in
  let endPage := Z.min totalPages (startPage + maxPagesToShow - 1) in
  let startPage :=
    if endPage - startPage <? maxPagesToShow - 1
    then Z.max 1 (endPage - maxPagesToShow + 1)
    else startPage in
  seqZ startPage (endPage - startPage + 1).

End ItemsPage.


(** ** Sample requests *)

Module RouteSamples.

Import ItemsRoute.

(** [toLowerCase] and [trim] on ASCII text, for the examples: the letters
    [A] to [Z] are lowered, the blanks (space, tab, line feed, vertical
    tab, form feed, carriage return) at both ends are removed. *)
Definition lower_ascii (a : Ascii.ascii) : Ascii.ascii :=
  let n := Ascii.nat_of_ascii a in
  if (65 <=? n)%nat && (n <=? 90)%nat then Ascii.ascii_of_nat (n + 32) else a.

Definition toLowerCase (s : string) : string :=
  String.string_of_list_ascii (map lower_ascii (String.list_ascii_of_string s)).

Definition is_blank (a : Ascii.ascii) : bool :=
  let n := Ascii.nat_of_ascii a in
  (n =? 32)%nat || ((9 <=? n)%nat && (n <=? 13)%nat).

Fixpoint drop_blanks (l : list Ascii.ascii) : list Ascii.ascii :=
  match l with
  | a :: l' => if is_blank a then drop_blanks l' else l
  | [] => []
  end.

Definition trim (s : string) : string :=
  String.string_of_list_ascii
    (rev (drop_blanks (rev (drop_blanks (String.list_ascii_of_string s))))).

(** The sample store as the data file holds it, and that file with
    nothing in flight. *)
Definition on_file : list (Item (option float)) := new_json <$> Samples.store.

Definition at_rest : Store float :=
  {| file := Holds on_file; jobs := [] |}.

(** A body that is let in, and one whose name is blank. *)
Definition lamp : PostBody float :=
  {| body_name := JsString " Lamp ";
     body_category := JsString "Furniture";
     body_price := JsNumber 15.5%float |}.

Definition rug : PostBody float :=
  {| body_name := JsString "Rug";
     body_category := JsString "Furniture ";
     body_price := JsNumber 80%float |}.

Definition nameless : PostBody float :=
  {| body_name := JsString "   ";
     body_category := JsString "Furniture";
     body_price := JsNumber 15.5%float |}.

(** A body whose price is written [1e999]: [JSON.parse] reads it as
    [Infinity]. *)
Definition priceless : PostBody float :=
  {| body_name := JsString "Vase";
     body_category := JsString "Kitchen";
     body_price := JsNumber PrimFloat.infinity |}.

(** The cache of the stats route after the sample session and a cleanup. *)
Definition cleaned_up : State float :=
  (run (H := Binary64.number) Samples.loaded [call_cleanup]).1.

End RouteSamples.

(** * Properties

    ** calculateStats, for any reading of the numbers *)

Section StatsFacts.

Context {N : Type} `{JsNumber N}.

Implicit Types (items : list (Item N)) (k : string).

Lemma fold_left_snoc {A B} (f : A -> B -> A) (l : list B) (x : B) (a : A) :
  fold_left f (l ++ [x]) a = f (fold_left f l a) x.
Proof. by rewrite fold_left_app. Qed.

Lemma in_category_snoc k items i :
  in_category k (items ++ [i]) =
  if decide (category i = k) then in_category k items ++ [i]
  else in_category k items.
Proof.
  unfold in_category. rewrite filter_app, filter_cons, filter_nil.
  case_decide; [done | by rewrite app_nil_r].
Qed.

Lemma bucket_of_snoc (l : list (Item N)) i :
  bucket_of (l ++ [i]) =
  {| count := S (count (bucket_of l));
     bucketValue := add (bucketValue (bucket_of l)) (price i) |}.
Proof.
  unfold bucket_of, sum_prices; simpl.
  rewrite fold_left_snoc, length_app; simpl. f_equal. lia.
Qed.

(** What the category reduction leaves under each key. *)
Lemma categories_lookup items k :
  fold_left categories_step items ∅ !! k =
  if inherited k then None
  else match in_category k items with
       | [] => None
       | l => Some (bucket_of l)
       end.
Proof.
  induction items as [|i items IH] using rev_ind.
  - simpl. rewrite lookup_empty. by destruct (inherited k).
  - rewrite fold_left_snoc, in_category_snoc.
    set (acc := fold_left categories_step items ∅) in *.
    unfold categories_step.
    destruct (decide (category i = k)) as [->|Hne].
    + rewrite IH. destruct (inherited k) eqn:Hk.
      * done.
      * assert (Hsnoc : forall l : list (Item N),
                   match l ++ [i] with
                   | [] => None
                   | l' => Some (bucket_of l')
                   end = Some (bucket_of (l ++ [i])))
          by (by intros [|? ?]).
        rewrite Hsnoc, bucket_of_snoc.
        by destruct (in_category k items); rewrite lookup_insert_eq.
    + destruct (acc !! category i);
        [|destruct (inherited (category i))];
        rewrite ?lookup_insert_ne by done; apply IH.
Qed.

Lemma calculateStats_total items :
  total (calculateStats (JsArray items)) = length items.
Proof. by destruct items. Qed.

Lemma calculateStats_categories items :
  categories (calculateStats (JsArray items)) =
  fold_left categories_step items ∅.
Proof. by destruct items. Qed.

(** C5. For the empty sequence of items the computation returns exactly
    [{total: 0, averagePrice: 0, totalValue: 0, categories: {},
    priceRange: {min: 0, max: 0}}]: the guard returns before the division
    by [items.length]. *)
Theorem calculateStats_empty :
  calculateStats (JsArray []) = zero_stats /\
  zero_stats =
    {| total := 0; averagePrice := num 0; totalValue := num 0;
       categories := ∅; priceRange := {| min := num 0; max := num 0 |} |}.
Proof. split; reflexivity. Qed.

(** C10. For [null] and for [undefined] the computation returns the same
    all-zero summary as for the empty sequence, rather than failing. *)
Theorem calculateStats_null_undefined :
  calculateStats JsNull = zero_stats /\
  calculateStats JsUndefined = zero_stats /\
  calculateStats JsNull = calculateStats (JsArray []).
Proof. repeat split; reflexivity. Qed.

(** Away from the names an object inherits, the breakdown is what the
    design says: a key for each category that occurs, compared as exact
    strings, with the number of its items and the sum of their prices. *)
Lemma categories_own items k :
  inherited k = false ->
  categories (calculateStats (JsArray items)) !! k =
  match in_category k items with
  | [] => None
  | l => Some (bucket_of l)
  end.
Proof.
  intros Hk. by rewrite calculateStats_categories, categories_lookup, Hk.
Qed.

Lemma categories_dom items k :
  k ∈ dom (categories (calculateStats (JsArray items))) <->
  inherited k = false /\ exists i, i ∈ items /\ category i = k.
Proof.
  rewrite elem_of_dom, calculateStats_categories, categories_lookup.
  destruct (inherited k).
  - split; [by intros [? ?] | by intros [? _]].
  - unfold in_category.
    destruct (filter _ items) as [|j l] eqn:Hf.
    + split; [by intros [? ?]|]. intros [_ (i & Hi & Hc)].
      assert (i ∈ filter (fun i => category i = k) items) as Hin
        by (by apply list_elem_of_filter).
      rewrite Hf in Hin. by apply elem_of_nil in Hin.
    + split; [|by eexists]. intros _. split; [done|]. exists j.
      assert (j ∈ filter (fun i => category i = k) items) as Hin
        by (rewrite Hf; left).
      apply list_elem_of_filter in Hin. destruct Hin; eauto.
Qed.

(** C4, at the input where it fails. An item whose category is
    ["constructor"] (or any other name in [Object_prototype_keys]) is
    counted in [total] but gets no key in [categories]: the lookup
    [acc[item.category]] finds the inherited property, so no bucket is
    created for it. *)
Theorem categories_misses_inherited_name (p : N) :
  let items :=
    [ {| id := 1; name := "Widget"; category := "constructor";
         price := p |} ] in
  total (calculateStats (JsArray items)) = 1%nat /\
  in_category "constructor" items = items /\
  categories (calculateStats (JsArray items)) !! "constructor" = None /\
  categories (calculateStats (JsArray items)) = ∅.
Proof. repeat split; reflexivity. Qed.

End StatsFacts.

(** ** The rounding in exact arithmetic *)

Section ExactFacts.

Import Exact.

Implicit Types (x r : Qc) (c : Z).

Lemma Qmake_hundredths c : (c # 100 == inject_Z c * (1 # 100))%Q.
Proof. unfold Qeq; simpl. lia. Qed.

(** [Math.round] of a number of hundredths times [100]. *)
Lemma round2_value x :
  round2 x = cents (Qfloor (x * inject_Z 100 + (1 # 2))%Q).
Proof.
  unfold round2. cbn [div mul num Math_round number].
  unfold Qcdiv, Qcmult, Qcinv, round, of_nat, cents.
  apply Q2Qc_eq_iff. cbn [this Q2Qc].
  rewrite !Qred_correct.
  change (inject_Z (Z.of_nat 100)) with (inject_Z 100).
  rewrite Qmake_hundredths. reflexivity.
Qed.

(** With numbers read as exact rationals, [Math.round(x * 100) / 100] is
    [x] rounded to two decimals, a 5 in the third decimal going up: the
    formula of the code is the rule of the design, and it is the binary64
    product [x * 100] that takes the code away from it. *)
Lemma round2_rounds_half_up x : rounds_half_up_to_cents x (round2 x).
Proof.
  rewrite round2_value. set (k := Qfloor _).
  pose proof (Qfloor_le (x * inject_Z 100 + (1 # 2))%Q) as Hle.
  pose proof (Qlt_floor (x * inject_Z 100 + (1 # 2))%Q) as Hlt.
  fold k in Hle, Hlt. rewrite inject_Z_plus in Hlt.
  exists k. split; [done|].
  unfold Qcle, Qclt, Qcminus, Qcplus, Qcopp, cents, half_cent.
  cbn [this Q2Qc]. rewrite !Qred_correct, Qmake_hundredths.
  change (inject_Z 100) with (100 # 1)%Q in Hle, Hlt.
  change (inject_Z 1) with 1%Q in Hlt. clearbody k.
  split; lra.
Qed.

End ExactFacts.

(** ** Binary64 arithmetic

    How far the sums and the products of [calculateStats] are from the
    numbers they stand for.  [Prim2SF] reads a binary64 number as a sign,
    a mantissa and an exponent, on which the operations are specified. *)

Section Binary64Facts.

Import Binary64.

Lemma digits2_bounds (p : positive) :
  2 ^ (Z.pos (digits2_pos p) - 1) <= Z.pos p < 2 ^ Z.pos (digits2_pos p).
Proof.
  induction p as [p IH|p IH|]; cbn [digits2_pos].
  - rewrite Pos2Z.inj_succ.
    replace (Z.succ (Z.pos (digits2_pos p)) - 1)
      with (Z.succ (Z.pos (digits2_pos p) - 1)) by lia.
    rewrite !Z.pow_succ_r by lia. lia.
  - rewrite Pos2Z.inj_succ.
    replace (Z.succ (Z.pos (digits2_pos p)) - 1)
      with (Z.succ (Z.pos (digits2_pos p) - 1)) by lia.
    rewrite !Z.pow_succ_r by lia. lia.
  - cbn. lia.
Qed.

Lemma shr_1_spec (m : Z) (r s : bool) :
  0 <= m ->
  shr_1 {| shr_m := m; shr_r := r; shr_s := s |} =
  {| shr_m := m / 2; shr_r := Z.odd m; shr_s := r || s |}.
Proof.
  intros Hm. rewrite <-Z.div2_div.
  destruct m as [|[p|p|]|p]; try done; lia.
Qed.

Lemma iter_pos_nat {A} (f : A -> A) (p : positive) (x : A) :
  SpecFloat.iter_pos f p x = Nat.iter (Pos.to_nat p) f x.
Proof.
  revert x. induction p as [p IH|p IH|]; intros x; cbn [SpecFloat.iter_pos].
  - rewrite !IH, Pos2Nat.inj_xI.
    replace (2 * Pos.to_nat p)%nat with (Pos.to_nat p + Pos.to_nat p)%nat by lia.
    by rewrite Nat.iter_succ_r, Nat.iter_add.
  - rewrite !IH, Pos2Nat.inj_xO.
    replace (2 * Pos.to_nat p)%nat with (Pos.to_nat p + Pos.to_nat p)%nat by lia.
    by rewrite Nat.iter_add.
  - done.
Qed.


Lemma shr_iter (k : nat) (m : Z) :
  0 <= m -> (0 < k)%nat ->
  Nat.iter k shr_1 {| shr_m := m; shr_r := false; shr_s := false |} =
  {| shr_m := m / 2 ^ Z.of_nat k;
     shr_r := Z.odd (m / 2 ^ (Z.of_nat k - 1));
     shr_s := negb (m mod 2 ^ (Z.of_nat k - 1) =? 0) |}.
Proof.
  intros Hm Hk. destruct k as [|k]; [lia|]. clear Hk.
  induction k as [|k IH].
  - cbn [Nat.iter nat_rect]. rewrite shr_1_spec by done.
    cbn. by rewrite Z.div_1_r, Z.mod_1_r.
  - rewrite Nat.iter_succ, IH.
    assert (0 < 2 ^ Z.of_nat (S k)) as Hpow by (apply Z.pow_pos_nonneg; lia).
    rewrite shr_1_spec by (apply Z.div_pos; lia).
    replace (Z.of_nat (S (S k)) - 1) with (Z.of_nat (S k)) by lia.
    replace (Z.of_nat (S (S k))) with (Z.succ (Z.of_nat (S k))) by lia.
    rewrite Z.pow_succ_r by lia.
    rewrite (Z.mul_comm 2), <-Z.div_div by lia.
    f_equal.
    set (j := Z.of_nat (S k) - 1).
    replace (Z.of_nat (S k)) with (Z.succ j) by lia.
    assert (0 <= j) as Hj by lia.
    assert (0 < 2 ^ j) as Hpj by (apply Z.pow_pos_nonneg; lia).
    rewrite Z.pow_succ_r by lia. rewrite (Z.mul_comm 2).
    rewrite Z.rem_mul_r by lia.
    rewrite Zmod_odd.
    pose proof (Z.mod_pos_bound m (2 ^ j) Hpj) as Hlow.
    destruct (Z.odd (m / 2 ^ j)); cbn [orb].
    + symmetry. apply negb_true_iff, Z.eqb_neq. lia.
    + by rewrite Z.mul_0_r, Z.add_0_r.
Qed.

Lemma fexp_eq (x : Z) : fexp prec emax x = Z.max (x - 53) (- 1074).
Proof. reflexivity. Qed.

(** The first shift of a rounding: the mantissa loses its [n] low bits,
    which are remembered by the round and sticky bits. *)
Lemma shr_fexp_shifts (m : positive) (e n : Z) :
  n = fexp prec emax (Z.pos (digits2_pos m) + e) - e -> 0 < n ->
  shr_fexp prec emax (Z.pos m) e loc_Exact =
  ({| shr_m := Z.pos m / 2 ^ n;
      shr_r := Z.odd (Z.pos m / 2 ^ (n - 1));
      shr_s := negb (Z.pos m mod 2 ^ (n - 1) =? 0) |}, e + n).
Proof.
  intros Hn Hpos. unfold shr_fexp. cbn [Zdigits2 shr_record_of_loc].
  rewrite <-Hn. destruct n as [|p|p]; try lia. cbn [shr].
  rewrite iter_pos_nat, shr_iter by lia.
  by rewrite positive_nat_Z.
Qed.

(** Rounding to nearest, ties to even, of the mantissa and its lost bits:
    the result is within half a unit of the value before the shift. *)
Lemma round_nearest_even_spec (m n : Z) :
  0 <= m -> 0 < n ->
  let m2 :=
    round_nearest_even (m / 2 ^ n)
      (loc_of_shr_record
         {| shr_m := m / 2 ^ n;
            shr_r := Z.odd (m / 2 ^ (n - 1));
            shr_s := negb (m mod 2 ^ (n - 1) =? 0) |}) in
  m / 2 ^ n <= m2 <= m / 2 ^ n + 1 /\
  Z.abs (m2 * 2 ^ n - m) <= 2 ^ (n - 1).
Proof.
  intros Hm Hn.
  assert (0 < 2 ^ (n - 1)) as Hp1 by (apply Z.pow_pos_nonneg; lia).
  assert (2 ^ n = 2 ^ (n - 1) * 2) as Hp.
  { replace n with (Z.succ (n - 1)) at 1 by lia.
    rewrite Z.pow_succ_r by lia. lia. }
  pose proof (Z.div_mod m (2 ^ n) ltac:(lia)) as Hdm.
  pose proof (Z.mod_pos_bound m (2 ^ (n - 1)) Hp1) as Hlow.
  assert (m mod 2 ^ n =
          m mod 2 ^ (n - 1) + 2 ^ (n - 1) * ((m / 2 ^ (n - 1)) mod 2)) as Hrem
    by (rewrite Hp; apply Z.rem_mul_r; lia).
  rewrite Zmod_odd in Hrem.
  cbn zeta. cbn [loc_of_shr_record].
  destruct (Z.odd (m / 2 ^ (n - 1)));
    destruct (m mod 2 ^ (n - 1) =? 0) eqn:Hs; cbn [negb];
    [apply Z.eqb_eq in Hs|apply Z.eqb_neq in Hs
    |apply Z.eqb_eq in Hs|apply Z.eqb_neq in Hs];
    cbn [round_nearest_even]; try (split; lia).
  destruct (Z.even (m / 2 ^ n)); split; lia.
Qed.

(** The second shift of a rounding: nothing is lost, the mantissa is
    halved when the rounding has carried to [2 ^ 53]. *)
Lemma shr_fexp_carry (m2 e : Z) :
  0 < m2 <= 2 ^ 53 -> - 1074 <= e ->
  exists m3 e3 r3 s3,
    shr_fexp prec emax m2 e loc_Exact =
    ({| shr_m := Z.pos m3; shr_r := r3; shr_s := s3 |}, e3) /\
    e <= e3 <= e + 1 /\ Z.pos m3 * 2 ^ (e3 - e) = m2.
Proof.
  intros Hm He. destruct m2 as [|q|q]; try lia.
  unfold shr_fexp. cbn [Zdigits2 shr_record_of_loc].
  pose proof (digits2_bounds q) as Hd. rewrite fexp_eq.
  set (d := Z.pos (digits2_pos q)) in *.
  destruct (decide (Z.pos q = 2 ^ 53)) as [Heq|Hne].
  - assert (d = 54) as Hd54.
    { destruct (decide (d <= 53)) as [Hle|Hgt].
      - assert (2 ^ d <= 2 ^ 53) by (apply Z.pow_le_mono_r; lia). lia.
      - destruct (decide (55 <= d)) as [Hge|Hlt]; [|lia].
        assert (2 ^ 54 <= 2 ^ (d - 1)) by (apply Z.pow_le_mono_r; lia). lia. }
    rewrite Hd54. replace (Z.max (54 + e - 53) (-1074) - e) with 1 by lia.
    cbn [shr SpecFloat.iter_pos]. rewrite shr_1_spec by lia.
    assert (Z.pos q / 2 = 2 ^ 52) as Hhalf by (rewrite Heq; reflexivity).
    rewrite Hhalf. exists (Z.to_pos (2 ^ 52)), (e + 1). eexists _, _.
    split; [reflexivity|]. split; [lia|].
    replace (e + 1 - e) with 1 by lia. rewrite Heq. reflexivity.
  - assert (d <= 53) as Hd53.
    { destruct (decide (d <= 53)) as [Hle|Hgt]; [done|].
      assert (2 ^ 53 <= 2 ^ (d - 1)) by (apply Z.pow_le_mono_r; lia). lia. }
    destruct (Z.max (d + e - 53) (-1074) - e) as [|p|p] eqn:Hn; try lia;
      cbn [shr]; exists q, e; eexists _, _;
      (split; [reflexivity|]); (split; [lia|]);
      rewrite Z.sub_diag; lia.
Qed.

(** *** Rounding a mantissa and an exponent to binary64 *)

(** A mantissa that fits is kept. *)
Lemma round_aux_fits (s : bool) (m : positive) (e : Z) :
  fexp prec emax (Z.pos (digits2_pos m) + e) <= e -> e <= 971 ->
  binary_round_aux prec emax s (Z.pos m) e loc_Exact = S754_finite s m e.
Proof.
  intros Hfit He. unfold binary_round_aux, shr_fexp.
  cbn [Zdigits2 shr_record_of_loc].
  destruct (fexp prec emax (Z.pos (digits2_pos m) + e) - e) as [|p|p] eqn:Hn;
    try lia; cbn [shr shr_m loc_of_shr_record round_nearest_even Zdigits2
                  shr_record_of_loc]; rewrite Hn; cbn [shr shr_m];
    change (emax - prec) with 971;
    by rewrite (proj2 (Z.leb_le e 971)) by lia.
Qed.

(** A mantissa that does not fit is rounded to nearest, ties to even: the
    result is zero or a number within half a unit of the last place that
    is kept. *)
Lemma round_aux_shifts (s : bool) (m : positive) (e n : Z) :
  n = fexp prec emax (Z.pos (digits2_pos m) + e) - e ->
  0 < n -> e + n <= 970 ->
  (binary_round_aux prec emax s (Z.pos m) e loc_Exact = S754_zero s /\
   2 * Z.pos m <= 2 ^ n) \/
  (exists m3 e3,
     binary_round_aux prec emax s (Z.pos m) e loc_Exact = S754_finite s m3 e3 /\
     e + n <= e3 <= e + n + 1 /\
     Z.abs (Z.pos m3 * 2 ^ (e3 - e) - Z.pos m) <= 2 ^ (n - 1)).
Proof.
  intros Hn Hpos Hmax. unfold binary_round_aux.
  rewrite (shr_fexp_shifts m e n Hn Hpos). cbn [shr_m].
  destruct (round_nearest_even_spec (Z.pos m) n ltac:(lia) Hpos) as [Hm2 Herr].
  cbn zeta in Hm2, Herr.
  set (m2 := round_nearest_even _ _) in *.
  pose proof (digits2_bounds m) as Hd. rewrite fexp_eq in Hn.
  set (d := Z.pos (digits2_pos m)) in *.
  assert (0 < 2 ^ n) as Hpn by (apply Z.pow_pos_nonneg; lia).
  assert (0 < 2 ^ (n - 1)) as Hpn1 by (apply Z.pow_pos_nonneg; lia).
  assert (0 <= Z.pos m / 2 ^ n) as Hm1 by (apply Z.div_pos; lia).
  assert (Z.pos m / 2 ^ n < 2 ^ 53) as Hm1'.
  { apply Z.div_lt_upper_bound; [lia|].
    rewrite <-Z.pow_add_r by lia.
    eapply Z.lt_le_trans; [apply Hd|]. apply Z.pow_le_mono_r; lia. }
  destruct (decide (m2 = 0)) as [Hz|Hnz].
  - left.
    assert (2 * Z.pos m <= 2 ^ n) as Hsmall.
    { rewrite Hz in Herr.
      replace (2 ^ n) with (2 ^ (n - 1) * 2); [lia|].
      replace n with (Z.succ (n - 1)) at 2 by lia.
      rewrite Z.pow_succ_r by lia. lia. }
    rewrite Hz. unfold shr_fexp. cbn [Zdigits2 shr_record_of_loc].
    rewrite fexp_eq.
    by destruct (Z.max (0 + (e + n) - 53) (-1074) - (e + n)) as [|p|p] eqn:Hn2;
      try lia; cbn [shr shr_m].
  - right.
    destruct (shr_fexp_carry m2 (e + n) ltac:(lia) ltac:(lia))
      as (m3 & e3 & r3 & s3 & -> & He3 & Hval).
    cbn [shr_m]. exists m3, e3.
    change (emax - prec) with 971.
    rewrite (proj2 (Z.leb_le e3 971)) by lia.
    split; [done|]. split; [lia|].
    replace (e3 - e) with ((e3 - (e + n)) + n) by lia.
    rewrite Z.pow_add_r by lia. rewrite Z.mul_assoc, Hval. done.
Qed.

(** *** Values, in units of [2 ^ -1120]

    Every finite binary64 number is a whole number of units of
    [2 ^ -1074], and so is its product by 100 in units of [2 ^ -1120]. *)

(** The size of a value bounds the exponent it is rounded at. *)
Lemma fexp_bound (m : positive) (e k : Z) :
  - 1120 <= e -> Z.pos m * 2 ^ (e + 1120) < 2 ^ (k + 1120) ->
  - 1021 <= k ->
  fexp prec emax (Z.pos (digits2_pos m) + e) <= k - 53.
Proof.
  intros He Hlt Hk. pose proof (digits2_bounds m) as Hd.
  set (d := Z.pos (digits2_pos m)) in *. rewrite fexp_eq.
  assert (0 < 2 ^ (e + 1120)) as Hp by (apply Z.pow_pos_nonneg; lia).
  assert (2 ^ (d - 1 + (e + 1120)) < 2 ^ (k + 1120)) as Hpow.
  { rewrite Z.pow_add_r by lia. nia. }
  apply Z.pow_lt_mono_r_iff in Hpow; lia.
Qed.

Lemma round_aux_units (m : positive) (e k : Z) :
  - 1120 <= e -> e <= 971 ->
  Z.pos m * 2 ^ (e + 1120) < 2 ^ (k + 1120) ->
  - 1021 <= k <= 1023 ->
  let r := binary_round_aux prec emax false (Z.pos m) e loc_Exact in
  SFplain r /\
  Z.abs (SFunits r - Z.pos m * 2 ^ (e + 1120)) <= 2 ^ (k - 54 + 1120).
Proof.
  intros He He' Hlt Hk r. subst r.
  pose proof (fexp_bound m e k He Hlt ltac:(lia)) as HF.
  set (F := fexp prec emax (Z.pos (digits2_pos m) + e)) in *.
  assert (- 1074 <= F) as HF' by (subst F; rewrite fexp_eq; lia).
  assert (0 < 2 ^ (k - 54 + 1120)) as Hpk by (apply Z.pow_pos_nonneg; lia).
  assert (0 < 2 ^ (e + 1120)) as Hpe by (apply Z.pow_pos_nonneg; lia).
  destruct (decide (F <= e)) as [Hfit|Hshift].
  - rewrite round_aux_fits by done. split.
    + right. exists m, e. split; [done|lia].
    + cbn [SFunits]. rewrite Z.sub_diag. cbn. lia.
  - assert (2 ^ (F - e - 1) * 2 ^ (e + 1120) <= 2 ^ (k - 54 + 1120)) as Hhalf.
    { rewrite <-Z.pow_add_r by lia. apply Z.pow_le_mono_r; lia. }
    destruct (round_aux_shifts false m e (F - e) eq_refl ltac:(lia) ltac:(lia))
      as [[-> Hsmall]|(m3 & e3 & -> & He3 & Herr)].
    + split; [by left|]. cbn [SFunits].
      assert (2 ^ (F - e) = 2 ^ (F - e - 1) * 2) as Hp2.
      { replace (F - e) with (Z.succ (F - e - 1)) at 1 by lia.
        rewrite Z.pow_succ_r by lia. lia. }
      nia.
    + split; [right; exists m3, e3; split; [done|lia]|]. cbn [SFunits].
      replace (e3 + 1120) with ((e3 - e) + (e + 1120)) by lia.
      rewrite Z.pow_add_r by lia. nia.
Qed.

Lemma shl_align_units (m : positive) (e e' : Z) :
  e' <= e ->
  Z.pos (shl_align m e e').1 = Z.pos m * 2 ^ (e - e') /\
  (shl_align m e e').2 = e'.
Proof.
  intros He. unfold shl_align.
  destruct (e' - e) as [|p|p] eqn:Hd; try lia; cbn [fst snd].
  - replace (e - e') with 0 by lia. split; lia.
  - change (Pos.iter xO m p) with (shift_pos p m).
    rewrite shift_pos_correct, Z.pow_pos_fold.
    replace (e - e') with (Z.pos p) by lia. split; lia.
Qed.

Lemma binary_round_units (m : positive) (e k : Z) :
  - 1120 <= e ->
  Z.pos m * 2 ^ (e + 1120) < 2 ^ (k + 1120) ->
  - 1021 <= k <= 1023 ->
  let r := binary_round prec emax false m e in
  SFplain r /\
  Z.abs (SFunits r - Z.pos m * 2 ^ (e + 1120)) <= 2 ^ (k - 54 + 1120).
Proof.
  intros He Hlt Hk r. subst r. unfold binary_round.
  pose proof (fexp_bound m e k He Hlt ltac:(lia)) as HF.
  set (F := fexp prec emax (Z.pos (digits2_pos m) + e)) in *.
  assert (- 1074 <= F) as HF' by (subst F; rewrite fexp_eq; lia).
  destruct (decide (F <= e)) as [Hfit|Hshift].
  - destruct (shl_align_units m e F Hfit) as [Hmz Hez].
    destruct (shl_align m e F) as [mz ez]. cbn [fst snd] in Hmz, Hez. subst ez.
    assert (Z.pos mz * 2 ^ (F + 1120) = Z.pos m * 2 ^ (e + 1120)) as Hval.
    { rewrite Hmz, <-Z.mul_assoc, <-Z.pow_add_r by lia. do 2 f_equal. lia. }
    rewrite <-Hval. apply round_aux_units; [lia|lia|by rewrite Hval|done].
  - unfold shl_align.
    destruct (F - e) as [|p|p] eqn:Hd; try lia.
    apply round_aux_units; [done| |done..].
    subst F. rewrite fexp_eq in *. lia.
Qed.

(** *** Rounding a quotient

    The division hands the rounding a quotient with a remainder: the
    mantissa comes with a location that is not exact. *)

Ltac bool_iff := split; intros ?; first [done | exfalso; lia | lia].

Lemma locates_bits m r s A B :
  locates {| shr_m := m; shr_r := r; shr_s := s |} A B ->
  m * B <= A < (m + 1) * B /\
  (if r then (2 * m + 1) * B <= 2 * A else 2 * A < (2 * m + 1) * B) /\
  (if s then A <> m * B /\ 2 * A <> (2 * m + 1) * B
   else A = m * B \/ 2 * A = (2 * m + 1) * B).
Proof.
  intros (Hin & Hr & Hs). cbn [shr_m shr_r shr_s] in *.
  split; [done|]. split.
  - destruct r; [by apply Hr|].
    destruct (decide ((2 * m + 1) * B <= 2 * A)) as [Hle|Hgt]; [|lia].
    by apply Hr in Hle.
  - destruct s; [|by apply Hs].
    destruct (decide (A = m * B \/ 2 * A = (2 * m + 1) * B)) as [Heq|Hne];
      [by apply Hs in Heq|lia].
Qed.

Lemma shr_1_locates mrs A B :
  0 <= shr_m mrs -> 0 < B -> locates mrs A B ->
  0 <= shr_m (shr_1 mrs) /\ locates (shr_1 mrs) A (2 * B).
Proof.
  destruct mrs as [m r s]. cbn [shr_m]. intros Hm HB (Hin & Hr & Hs)%locates_bits.
  rewrite shr_1_spec by done. unfold locates. cbn [shr_m shr_r shr_s].
  pose proof (Z.div_mod m 2 ltac:(done)) as Hdm.
  rewrite Zmod_odd in Hdm. set (h := m / 2) in *.
  assert (0 <= h) by (apply Z.div_pos; lia). split; [done|].
  clearbody h.
  destruct (Z.odd m), r, s; cbn [orb]; subst m;
    (split; [lia|]); split; bool_iff.
Qed.

Lemma iter_shr_1_locates (n : nat) mrs A B :
  0 <= shr_m mrs -> 0 < B -> locates mrs A B ->
  0 <= shr_m (Nat.iter n shr_1 mrs) /\
  locates (Nat.iter n shr_1 mrs) A (2 ^ Z.of_nat n * B).
Proof.
  intros Hm HB Hloc. induction n as [|n [IHm IH]].
  - cbn [Nat.iter nat_rect]. split; [done|]. by rewrite Z.mul_1_l.
  - rewrite Nat.iter_succ.
    assert (0 < 2 ^ Z.of_nat n) as Hp by (apply Z.pow_pos_nonneg; lia).
    destruct (shr_1_locates _ A (2 ^ Z.of_nat n * B) IHm ltac:(lia) IH)
      as [Hm' Hloc'].
    split; [done|].
    replace (2 ^ Z.of_nat (S n) * B) with (2 * (2 ^ Z.of_nat n * B)); [done|].
    rewrite Nat2Z.inj_succ, Z.pow_succ_r by lia. ring.
Qed.

Lemma round_nearest_even_locates mrs A B :
  0 < B -> locates mrs A B ->
  let R := round_nearest_even (shr_m mrs) (loc_of_shr_record mrs) in
  shr_m mrs <= R <= shr_m mrs + 1 /\ Z.abs (2 * R * B - 2 * A) <= B.
Proof.
  destruct mrs as [m r s]. intros HB (Hin & Hr & Hs)%locates_bits.
  cbn [shr_m loc_of_shr_record].
  destruct r, s; cbn [round_nearest_even]; try (split; lia).
  destruct (Z.even m); split; lia.
Qed.

Lemma new_location_locates (A B : Z) :
  0 <= A -> 0 < B ->
  locates (shr_record_of_loc (A / B) (new_location B (A mod B))) A B.
Proof.
  intros HA HB.
  pose proof (Z.div_mod A B ltac:(lia)) as Hdm.
  pose proof (Z.mod_pos_bound A B HB) as Hmod.
  set (q := A / B) in *. set (r := A mod B) in *.
  replace (B * q) with (q * B) in Hdm by ring.
  unfold new_location, new_location_even, new_location_odd.
  pose proof (Z.div_mod B 2 ltac:(done)) as HB2.
  rewrite Zmod_odd in HB2. rewrite <-Z.negb_even in HB2.
  destruct (Z.even B); cbn [negb] in HB2.
  - destruct (r =? 0) eqn:Hr0.
    + apply Z.eqb_eq in Hr0. unfold locates. cbn.
      split; [lia|]. split; bool_iff.
    + apply Z.eqb_neq in Hr0.
      destruct (Z.compare_spec (2 * r) B) as [Hc|Hc|Hc];
        unfold locates; cbn; (split; [lia|]); split; bool_iff.
  - destruct (r =? 0) eqn:Hr0.
    + apply Z.eqb_eq in Hr0. unfold locates. cbn.
      split; [lia|]. split; bool_iff.
    + apply Z.eqb_neq in Hr0.
      destruct (Z.compare_spec (2 * r + 1) B) as [Hc|Hc|Hc];
        unfold locates; cbn; (split; [lia|]); split; bool_iff.
Qed.

Lemma shr_record_of_loc_m q loc : shr_m (shr_record_of_loc q loc) = q.
Proof. by destruct loc as [|[| |]]. Qed.

(** The first shift of a rounding, whatever the location. *)
Lemma shr_fexp_locates (q e : Z) (loc : location) (A B : Z) :
  0 <= q -> 0 < B -> locates (shr_record_of_loc q loc) A B ->
  exists (n : nat) mrs,
    shr_fexp prec emax q e loc = (mrs, e + Z.of_nat n) /\
    e + Z.of_nat n = Z.max e (fexp prec emax (Zdigits2 q + e)) /\
    0 <= shr_m mrs /\ locates mrs A (2 ^ Z.of_nat n * B).
Proof.
  intros Hq HB Hloc. unfold shr_fexp.
  set (F := fexp prec emax (Zdigits2 q + e)).
  destruct (F - e) as [|p|p] eqn:Hn; cbn [shr].
  - exists 0%nat, (shr_record_of_loc q loc). rewrite Z.add_0_r.
    split; [done|]. split; [lia|]. rewrite shr_record_of_loc_m.
    split; [done|]. by rewrite Z.mul_1_l.
  - exists (Pos.to_nat p), (SpecFloat.iter_pos shr_1 p (shr_record_of_loc q loc)).
    rewrite positive_nat_Z. split; [done|]. split; [lia|].
    rewrite iter_pos_nat. rewrite <-(positive_nat_Z p).
    apply iter_shr_1_locates; [by rewrite shr_record_of_loc_m|done..].
  - exists 0%nat, (shr_record_of_loc q loc). rewrite Z.add_0_r.
    split; [done|]. split; [lia|]. rewrite shr_record_of_loc_m.
    split; [done|]. by rewrite Z.mul_1_l.
Qed.

Lemma Zdigits2_bounds (q : Z) :
  0 <= q -> 0 <= Zdigits2 q /\ q < 2 ^ Zdigits2 q.
Proof.
  intros Hq. destruct q as [|p|p]; [done| |lia].
  cbn [Zdigits2]. pose proof (digits2_bounds p). lia.
Qed.

(** Rounding a quotient [A / B] located by [q] and [loc], at exponent
    [e]: zero or a number above zero, within half a unit of the last place
    of the quotient. *)
Lemma round_aux_locates (q e : Z) (loc : location) (A B k : Z) :
  0 <= q -> 0 < B -> - 1074 <= e -> e <= k - 53 -> - 1021 <= k <= 1023 ->
  locates (shr_record_of_loc q loc) A B ->
  A * 2 ^ (e + 1120) < B * 2 ^ (k + 1120) ->
  let z := binary_round_aux prec emax false q e loc in
  SFplain z /\
  Z.abs (2 * SFunits z * B - 2 * A * 2 ^ (e + 1120)) <= B * 2 ^ (k - 53 + 1120).
Proof.
  intros Hq HB He Hek Hk Hloc Hlt z. subst z.
  assert (0 < 2 ^ (e + 1120)) as Hpe by (apply Z.pow_pos_nonneg; lia).
  (* the exponent the quotient is rounded at *)
  assert (fexp prec emax (Zdigits2 q + e) <= k - 53) as HF.
  { destruct q as [|p|p]; [|cbn [Zdigits2]|lia].
    - cbn [Zdigits2]. rewrite fexp_eq. lia.
    - apply fexp_bound; [lia| |lia].
      destruct Hloc as [[Hlo _] _]. rewrite shr_record_of_loc_m in Hlo.
      assert (Z.pos p * 2 ^ (e + 1120) * B < 2 ^ (k + 1120) * B) as Hc by nia.
      by apply Z.mul_lt_mono_pos_r in Hc. }
  destruct (Zdigits2_bounds q Hq) as [Hd0 Hd].
  pose proof Hloc as [[Hqlo Hqhi] _]. rewrite shr_record_of_loc_m in Hqlo, Hqhi.
  destruct (shr_fexp_locates q e loc A B Hq HB Hloc)
    as (n & mrs & Hshr & He1 & Hm & Hloc1).
  unfold binary_round_aux. rewrite Hshr.
  set (e1 := e + Z.of_nat n) in *.
  set (F := fexp prec emax (Zdigits2 q + e)) in *.
  assert (0 < 2 ^ Z.of_nat n) as Hpn by (apply Z.pow_pos_nonneg; lia).
  assert (2 ^ (e1 + 1120) = 2 ^ Z.of_nat n * 2 ^ (e + 1120)) as Hpe1.
  { unfold e1. rewrite <-Z.pow_add_r by lia. f_equal. lia. }
  assert (2 ^ (e1 + 1120) <= 2 ^ (k - 53 + 1120)) as Hpk
    by (apply Z.pow_le_mono_r; lia).
  destruct (round_nearest_even_locates mrs A (2 ^ Z.of_nat n * B) ltac:(lia) Hloc1)
    as [HR Herr]. cbn zeta in HR, Herr.
  set (R := round_nearest_even (shr_m mrs) (loc_of_shr_record mrs)) in *.
  (* the mantissa kept has 53 bits at most *)
  assert (shr_m mrs < 2 ^ 53) as Hm53.
  { destruct Hloc1 as [[Hlo _] _].
    assert (Zdigits2 q <= 53 + Z.of_nat n) as Hdn
      by (unfold F in He1; rewrite fexp_eq in He1; lia).
    assert (2 ^ Zdigits2 q <= 2 ^ 53 * 2 ^ Z.of_nat n) as Hpd
      by (rewrite <-Z.pow_add_r by lia; apply Z.pow_le_mono_r; lia).
    assert (shr_m mrs * 2 ^ Z.of_nat n * B < 2 ^ 53 * 2 ^ Z.of_nat n * B) as Hc by nia.
    apply Z.mul_lt_mono_pos_r in Hc; [|done].
    by apply Z.mul_lt_mono_pos_r in Hc. }
  assert (- 1074 <= e1) as He1' by lia.
  destruct (decide (R = 0)) as [Hz|Hnz].
  - rewrite Hz. unfold shr_fexp. cbn [Zdigits2 shr_record_of_loc].
    rewrite fexp_eq.
    assert (binary_zero :
      (let '(mrs'', e'') := shr {| shr_m := 0; shr_r := false; shr_s := false |} e1
                              (Z.max (0 + e1 - 53) (-1074) - e1) in
       match shr_m mrs'' with
       | 0 => S754_zero false
       | Z.pos m => if e'' <=? emax - prec then S754_finite false m e''
                    else S754_infinity false
       | Z.neg _ => S754_nan
       end) = S754_zero false).
    { by destruct (Z.max (0 + e1 - 53) (-1074) - e1) as [|p|p] eqn:Hn2;
        try lia; cbn [shr shr_m]. }
    rewrite binary_zero. split; [by left|]. cbn [SFunits].
    rewrite Hz in Herr. nia.
  - destruct (shr_fexp_carry R e1 ltac:(lia) He1')
      as (m3 & e3 & r3 & s3 & -> & He3 & Hval).
    cbn [shr_m]. change (emax - prec) with 971.
    rewrite (proj2 (Z.leb_le e3 971)) by lia.
    split; [right; exists m3, e3; split; [done|lia]|]. cbn [SFunits].
    assert (Z.pos m3 * 2 ^ (e3 + 1120) = R * 2 ^ (e1 + 1120)) as ->.
    { rewrite <-Hval. rewrite <-Z.mul_assoc, <-Z.pow_add_r by lia.
      do 2 f_equal. lia. }
    rewrite Hpe1.
    replace (2 * (R * (2 ^ Z.of_nat n * 2 ^ (e + 1120))) * B -
             2 * A * 2 ^ (e + 1120))
      with ((2 * R * (2 ^ Z.of_nat n * B) - 2 * A) * 2 ^ (e + 1120)) by ring.
    rewrite Z.abs_mul, (Z.abs_eq (2 ^ (e + 1120))) by lia.
    trans (2 ^ Z.of_nat n * B * 2 ^ (e + 1120)).
    + apply Z.mul_le_mono_nonneg_r; lia.
    + rewrite Hpe1 in Hpk. nia.
Qed.

(** [x / y] for a divisor that is the whole number [N]: the quotient,
    rounded once. *)
Lemma SFdiv_units (x : spec_float) (my : positive) (ey N k : Z) :
  SFplain x -> 0 < N -> ey <= 0 -> Z.pos my = N * 2 ^ (- ey) ->
  SFunits x < 2 ^ (k + 1120) -> - 1021 <= k <= 1023 ->
  let z := SFdiv prec emax x (S754_finite false my ey) in
  SFplain z /\ Z.abs (SFunits z * N - SFunits x) <= N * 2 ^ (k - 54 + 1120).
Proof.
  intros Hx HN Hey Hmy Hlt Hk z. subst z.
  assert (0 < 2 ^ (k - 54 + 1120)) as Hpk by (apply Z.pow_pos_nonneg; lia).
  destruct Hx as [->|(mx & ex & -> & Hex)].
  - cbn. split; [by left|]. nia.
  - cbn [SFdiv xorb]. unfold SFdiv_core_binary. cbn [Zdigits2 SFunits] in *.
    pose proof (digits2_bounds mx) as Hd1. pose proof (digits2_bounds my) as Hd2.
    set (d1 := Z.pos (digits2_pos mx)) in *.
    set (d2 := Z.pos (digits2_pos my)) in *.
    set (P := 2 ^ (- ey)) in *.
    assert (0 < P) as HP by (apply Z.pow_pos_nonneg; lia).
    assert (0 < 2 ^ (ex + 1120)) as Hpex by (apply Z.pow_pos_nonneg; lia).
    assert (d1 + ex <= k) as Hmag1.
    { assert (2 ^ (d1 - 1 + (ex + 1120)) < 2 ^ (k + 1120)) as Hpow
        by (rewrite Z.pow_add_r by lia; nia).
      apply Z.pow_lt_mono_r_iff in Hpow; lia. }
    assert (1 <= d2 + ey) as Hmag2.
    { assert (2 ^ (- ey) < 2 ^ d2) as Hpow by (fold P; nia).
      apply Z.pow_lt_mono_r_iff in Hpow; lia. }
    pose proof (fexp_eq (d1 + ex - (d2 + ey))) as HF.
    set (F := fexp prec emax (d1 + ex - (d2 + ey))) in *.
    set (e' := Z.min F (ex - ey)).
    set (s := ex - ey - e').
    assert (0 <= s) as Hs by lia.
    set (m' := match s with
               | 0 => Z.pos mx
               | Z.pos _ => Z.shiftl (Z.pos mx) s
               | Z.neg _ => 0
               end).
    assert (m' = Z.pos mx * 2 ^ s) as Hm'.
    { subst m'. destruct s as [|p|p] eqn:Hsp; [lia| |lia].
      by rewrite Z.shiftl_mul_pow2. }
    assert (0 < 2 ^ s) as Hps by (apply Z.pow_pos_nonneg; lia).
    assert (Z.div_eucl m' (Z.pos my) = (m' / Z.pos my, m' mod Z.pos my)) as ->
      by (unfold Z.div, Z.modulo; by destruct (Z.div_eucl m' (Z.pos my))).
    assert (m' * 2 ^ (e' + 1120) = Z.pos mx * 2 ^ (ex + 1120) * P) as Hval.
    { rewrite Hm'. unfold P.
      rewrite <-!Z.mul_assoc, <-!Z.pow_add_r by lia. do 2 f_equal. lia. }
    destruct (round_aux_locates (m' / Z.pos my) e' (new_location (Z.pos my) (m' mod Z.pos my))
                m' (Z.pos my) k) as [Hplain Herr];
      [apply Z.div_pos; lia|lia|lia|lia|done
      |apply new_location_locates; lia| |].
    { rewrite Hval, Hmy.
      assert (2 ^ (k + 1120) <= N * 2 ^ (k + 1120)) by nia.
      assert (Z.pos mx * 2 ^ (ex + 1120) * P < N * 2 ^ (k + 1120) * P)
        by (apply Z.mul_lt_mono_pos_r; lia).
      lia. }
    split; [done|].
    set (U := SFunits _) in *.
    replace (2 * m' * 2 ^ (e' + 1120))
      with (2 * (Z.pos mx * 2 ^ (ex + 1120) * P)) in Herr by lia.
    rewrite Hmy in Herr.
    replace (2 * U * (N * P) - 2 * (Z.pos mx * 2 ^ (ex + 1120) * P))
      with ((U * N - Z.pos mx * 2 ^ (ex + 1120)) * (2 * P)) in Herr by ring.
    rewrite Z.abs_mul, (Z.abs_eq (2 * P)) in Herr by lia.
    replace (k - 53 + 1120) with (Z.succ (k - 54 + 1120)) in Herr by lia.
    rewrite Z.pow_succ_r in Herr by lia.
    replace (N * P * (2 * 2 ^ (k - 54 + 1120)))
      with (N * 2 ^ (k - 54 + 1120) * (2 * P)) in Herr by ring.
    apply Z.mul_le_mono_pos_r in Herr; lia.
Qed.

(** A whole number below [2 ^ 53] is a binary64 number. *)
Lemma binary_round_whole (m : positive) :
  Z.pos m < 2 ^ 53 ->
  exists my ey,
    binary_round prec emax false m 0 = S754_finite false my ey /\
    - 1074 <= ey <= 0 /\ Z.pos my = Z.pos m * 2 ^ (- ey).
Proof.
  intros Hm. unfold binary_round.
  pose proof (digits2_bounds m) as Hd. rewrite fexp_eq.
  set (d := Z.pos (digits2_pos m)) in *.
  assert (d <= 53) as Hd53.
  { destruct (decide (d <= 53)) as [Hle|Hgt]; [done|].
    assert (2 ^ 53 <= 2 ^ (d - 1)) by (apply Z.pow_le_mono_r; lia). lia. }
  assert (1 <= d) as Hd1 by (unfold d; lia).
  set (F := Z.max (d + 0 - 53) (- 1074)).
  assert (F = d - 53) as HF by lia.
  destruct (shl_align_units m 0 F ltac:(lia)) as [Hmz Hez].
  destruct (shl_align m 0 F) as [mz ez]. cbn [fst snd] in Hmz, Hez. subst ez.
  exists mz, F. split; [|split; [lia|by rewrite Hmz]].
  apply round_aux_fits; [|lia].
  pose proof (digits2_bounds mz) as Hdz. rewrite fexp_eq.
  set (dz := Z.pos (digits2_pos mz)) in *.
  assert (Z.pos mz < 2 ^ 53) as Hmz53.
  { rewrite Hmz. replace (0 - F) with (53 - d) by lia.
    assert (2 ^ d * 2 ^ (53 - d) = 2 ^ 53) as <-
      by (rewrite <-Z.pow_add_r by lia; f_equal; lia).
    apply Z.mul_lt_mono_pos_r; [apply Z.pow_pos_nonneg|]; lia. }
  assert (dz <= 53).
  { destruct (decide (dz <= 53)) as [Hle|Hgt]; [done|].
    assert (2 ^ 53 <= 2 ^ (dz - 1)) by (apply Z.pow_le_mono_r; lia). lia. }
  lia.
Qed.

Lemma of_nat_whole (n : nat) :
  (0 < n)%nat -> Z.of_nat n < 2 ^ 53 ->
  exists my ey,
    Prim2SF (of_nat n) = S754_finite false my ey /\
    - 1074 <= ey <= 0 /\ Z.pos my = Z.of_nat n * 2 ^ (- ey).
Proof.
  intros Hn Hlt. unfold of_nat, of_Z.
  rewrite (proj2 (Z.ltb_ge (Z.of_nat n) 0)) by lia.
  rewrite of_uint63_spec, Uint63.of_Z_spec.
  rewrite Z.mod_small
    by (split; [lia|]; eapply Z.lt_trans; [exact Hlt|done]).
  destruct (Z.of_nat n) as [|p|p] eqn:Hp; [lia| |lia].
  cbn [binary_normalize]. by apply binary_round_whole.
Qed.

(** [a / n], for the number [n] of items of a store. *)
Lemma div_units (a : float) (n : nat) (k : Z) :
  plain a -> (0 < n)%nat -> Z.of_nat n < 2 ^ 53 ->
  units a < 2 ^ (k + 1120) -> - 1021 <= k <= 1023 ->
  plain (a / of_nat n) /\
  Z.abs (units (a / of_nat n) * Z.of_nat n - units a) <=
    Z.of_nat n * 2 ^ (k - 54 + 1120).
Proof.
  intros Ha Hn Hlt Hu Hk. unfold plain, units. rewrite div_spec.
  destruct (of_nat_whole n Hn Hlt) as (my & ey & -> & Hey & Hmy).
  apply SFdiv_units; [done|lia|lia|done..].
Qed.

Lemma SFplain_units (x : spec_float) : SFplain x -> 0 <= SFunits x.
Proof.
  intros [->|(m & e & -> & He)]; cbn [SFunits]; [done|].
  assert (0 < 2 ^ (e + 1120)) by (apply Z.pow_pos_nonneg; lia). lia.
Qed.

Lemma SFnot_below_zero_units (x : spec_float) :
  SFnot_below_zero x -> 0 <= SFunits x.
Proof.
  intros [[s ->]|(m & e & -> & He)]; cbn [SFunits]; [done|].
  assert (0 < 2 ^ (e + 1120)) by (apply Z.pow_pos_nonneg; lia). lia.
Qed.

(** [x + y]: the sum, rounded once. *)
Lemma SFadd_units (x y : spec_float) (k : Z) :
  SFplain x -> SFnot_below_zero y ->
  SFunits x + SFunits y < 2 ^ (k + 1120) -> - 1021 <= k <= 1023 ->
  SFplain (SFadd prec emax x y) /\
  Z.abs (SFunits (SFadd prec emax x y) - (SFunits x + SFunits y)) <=
    2 ^ (k - 54 + 1120).
Proof.
  intros Hx Hy Hlt Hk.
  assert (0 < 2 ^ (k - 54 + 1120)) as Hpk by (apply Z.pow_pos_nonneg; lia).
  destruct Hx as [->|(mx & ex & -> & Hex)],
    Hy as [[sy ->]|(my & ey & -> & Hey)].
  - split; [left; by destruct sy|]. destruct sy; cbn; lia.
  - split; [right; by exists my, ey|]. cbn [SFadd SFunits]. lia.
  - split; [right; by exists mx, ex|]. cbn [SFadd SFunits]. lia.
  - cbn [SFadd cond_Zopp].
    destruct (shl_align_units mx ex (Z.min ex ey) ltac:(lia)) as [Hmx _].
    destruct (shl_align_units my ey (Z.min ex ey) ltac:(lia)) as [Hmy _].
    set (ez := Z.min ex ey) in *.
    set (mx' := (shl_align mx ex ez).1) in *.
    set (my' := (shl_align my ey ez).1) in *.
    change (Z.pos mx' + Z.pos my') with (Z.pos (mx' + my')).
    cbn [binary_normalize].
    assert (Z.pos (mx' + my') * 2 ^ (ez + 1120) =
            SFunits (S754_finite false mx ex) +
            SFunits (S754_finite false my ey)) as Hval.
    { rewrite Pos2Z.inj_add, Hmx, Hmy. cbn [SFunits].
      rewrite Z.mul_add_distr_r, <-!Z.mul_assoc, <-!Z.pow_add_r by lia.
      do 2 f_equal; f_equal; lia. }
    rewrite <-Hval in *. apply binary_round_units; [lia|done..].
Qed.

(** [x * 100]: the product, rounded once. *)
Lemma SFmul_100_units (x : spec_float) (k : Z) :
  SFplain x ->
  100 * SFunits x < 2 ^ (k + 1120) -> - 1021 <= k <= 1023 ->
  let y := SFmul prec emax x (Prim2SF 100%float) in
  SFplain y /\ Z.abs (SFunits y - 100 * SFunits x) <= 2 ^ (k - 54 + 1120).
Proof.
  intros Hx Hlt Hk y. subst y.
  assert (0 < 2 ^ (k - 54 + 1120)) as Hpk by (apply Z.pow_pos_nonneg; lia).
  change (Prim2SF 100%float) with (S754_finite false 7036874417766400 (-46)).
  destruct Hx as [->|(mx & ex & -> & Hex)].
  - split; [by left|]. cbn. lia.
  - cbn [SFmul xorb].
    assert (Z.pos (mx * 7036874417766400) * 2 ^ (ex + -46 + 1120) =
            100 * SFunits (S754_finite false mx ex)) as Hval.
    { cbn [SFunits]. rewrite Pos2Z.inj_mul.
      replace (ex + 1120) with (46 + (ex + -46 + 1120)) by lia.
      rewrite (Z.pow_add_r 2 46 (ex + -46 + 1120)) by lia.
      change (Z.pos 7036874417766400) with (100 * 2 ^ 46). ring. }
    rewrite <-Hval in *.
    assert (0 < 2 ^ (ex + -46 + 1120)) as Hpe by (apply Z.pow_pos_nonneg; lia).
    apply round_aux_units; [lia| |done..].
    (* the exponent of the product is not above 971 *)
    assert (2 ^ (52 + (ex + -46 + 1120)) < 2 ^ (k + 1120)) as Hpow.
    { rewrite Z.pow_add_r by lia. rewrite Pos2Z.inj_mul in Hlt.
      change (Z.pos 7036874417766400) with (100 * 2 ^ 46) in Hlt.
      change (2 ^ 52) with (64 * 2 ^ 46). nia. }
    apply Z.pow_lt_mono_r_iff in Hpow; lia.
Qed.

Lemma Prim2SF_canonical (x : float) s m e :
  Prim2SF x = S754_finite s m e ->
  fexp prec emax (Z.pos (digits2_pos m) + e) = e /\ e <= 971.
Proof.
  intros Hx. pose proof (Prim2SF_valid x) as Hv. rewrite Hx in Hv.
  cbn [valid_binary] in Hv. unfold bounded, canonical_mantissa in Hv.
  apply andb_true_iff in Hv as [Hc He].
  apply Z.eqb_eq in Hc. apply Z.leb_le in He. done.
Qed.

Lemma Prim2SF_exponent (x : float) s m e :
  Prim2SF x = S754_finite s m e -> - 1074 <= e.
Proof.
  intros [Hc _]%Prim2SF_canonical. rewrite fexp_eq in Hc. lia.
Qed.

Lemma not_below_zero_SF (x : float) :
  not_below_zero x -> SFnot_below_zero (Prim2SF x).
Proof.
  unfold not_below_zero. intros Hx.
  destruct (Prim2SF x) as [s|s| |[|] m e] eqn:Hsf; try done.
  - left. by exists s.
  - right. exists m, e. split; [done|]. by eapply Prim2SF_exponent.
Qed.

Lemma units_not_below_zero (x : float) : not_below_zero x -> 0 <= units x.
Proof. intros Hx. by apply SFnot_below_zero_units, not_below_zero_SF. Qed.

Lemma add_units (a b : float) (k : Z) :
  plain a -> not_below_zero b ->
  units a + units b < 2 ^ (k + 1120) -> - 1021 <= k <= 1023 ->
  plain (a + b) /\
  Z.abs (units (a + b) - (units a + units b)) <= 2 ^ (k - 54 + 1120).
Proof.
  intros Ha Hb Hlt Hk. unfold plain, units. rewrite add_spec.
  apply SFadd_units; [done|by apply not_below_zero_SF|done..].
Qed.

Lemma mul_100_units (a : float) (k : Z) :
  plain a -> 100 * units a < 2 ^ (k + 1120) -> - 1021 <= k <= 1023 ->
  plain (a * 100) /\
  Z.abs (units (a * 100) - 100 * units a) <= 2 ^ (k - 54 + 1120).
Proof.
  intros Ha Hlt Hk. unfold plain, units. rewrite mul_spec.
  by apply SFmul_100_units.
Qed.

(** [Math.round] of a number below [2 ^ 52] is the integer
    [floor (y + 1/2)]. *)
Lemma round_units (y : float) :
  plain y -> units y < 2 ^ (52 + 1120) ->
  round y = of_Z ((2 * units y + 2 ^ 1120) / 2 ^ 1121).
Proof.
  unfold plain, units, round. intros Hy Hlt.
  destruct Hy as [Hz|(m & e & Hf & He)].
  - rewrite Hz. cbn [SFunits]. apply Prim2SF_inj. rewrite Hz.
    vm_compute. reflexivity.
  - rewrite Hf in *. cbn [SFunits] in *.
    destruct (Prim2SF_canonical y _ _ _ Hf) as [Hc _].
    pose proof (fexp_bound m e 52 ltac:(lia) Hlt ltac:(lia)) as HF.
    rewrite Hc in HF.
    rewrite (proj2 (Z.leb_gt 0 e)) by lia.
    assert (0 < 2 ^ (e + 1120)) as Hp by (apply Z.pow_pos_nonneg; lia).
    assert (0 < 2 ^ (- e)) as Hd by (apply Z.pow_pos_nonneg; lia).
    assert (2 ^ 1120 = 2 ^ (- e) * 2 ^ (e + 1120)) as H1120
      by (rewrite <-Z.pow_add_r by lia; f_equal; lia).
    assert ((2 * (Z.pos m * 2 ^ (e + 1120)) + 2 ^ 1120) / 2 ^ 1121 =
            (2 * Z.pos m + 2 ^ (- e)) / (2 * 2 ^ (- e))) as ->.
    { change (2 ^ 1121) with (2 * 2 ^ 1120). rewrite H1120.
      replace (2 * (Z.pos m * 2 ^ (e + 1120)) + 2 ^ (- e) * 2 ^ (e + 1120))
        with ((2 * Z.pos m + 2 ^ (- e)) * 2 ^ (e + 1120)) by ring.
      replace (2 * (2 ^ (- e) * 2 ^ (e + 1120)))
        with (2 * 2 ^ (- e) * 2 ^ (e + 1120)) by ring.
      apply Z.div_mul_cancel_r; lia. }
    destruct ((2 * Z.pos m + 2 ^ (- e)) / (2 * 2 ^ (- e)) =? 0) eqn:Hr; [|done].
    apply Z.eqb_eq in Hr. rewrite Hr. vm_compute. reflexivity.
Qed.

(** *** The running sum of the prices *)

Implicit Types (items : list (Item float)).

Lemma price_units_nonneg items :
  Forall (fun i => not_below_zero (price i)) items -> 0 <= price_units items.
Proof.
  induction 1 as [|i items Hi _ IH]; cbn [price_units foldr]; [done|].
  apply units_not_below_zero in Hi. fold (price_units items). lia.
Qed.

Lemma fold_prices_units items (acc : float) (k : Z) :
  plain acc -> Forall (fun i => not_below_zero (price i)) items ->
  - 1021 <= k <= 1023 ->
  units acc + price_units items +
    Z.of_nat (length items) * 2 ^ (k - 54 + 1120) < 2 ^ (k + 1120) ->
  plain (fold_left (fun acc cur => add acc (price cur)) items acc) /\
  Z.abs (units (fold_left (fun acc cur => add acc (price cur)) items acc) -
         (units acc + price_units items)) <=
    Z.of_nat (length items) * 2 ^ (k - 54 + 1120).
Proof.
  intros Hacc Hall Hk. revert acc Hacc.
  assert (0 < 2 ^ (k - 54 + 1120)) as Hpk by (apply Z.pow_pos_nonneg; lia).
  induction Hall as [|i items Hi Hall IH]; intros acc Hacc Hlt.
  - cbn. split; [done|lia].
  - cbn [fold_left price_units foldr length] in *.
    fold (price_units items) in *.
    pose proof (price_units_nonneg items Hall) as Hrest.
    pose proof (units_not_below_zero _ Hi) as Hi0.
    destruct (add_units acc (price i) k Hacc Hi ltac:(lia) Hk) as [Hp Herr].
    change (add acc (price i)) with (acc + price i)%float.
    destruct (IH (acc + price i)%float Hp ltac:(lia)) as [Hp' Herr'].
    split; [done|]. lia.
Qed.

Lemma sum_prices_units items (k : Z) :
  Forall (fun i => not_below_zero (price i)) items ->
  - 1021 <= k <= 1023 ->
  price_units items + Z.of_nat (length items) * 2 ^ (k - 54 + 1120)
    < 2 ^ (k + 1120) ->
  plain (sum_prices items) /\
  Z.abs (units (sum_prices items) - price_units items) <=
    Z.of_nat (length items) * 2 ^ (k - 54 + 1120).
Proof.
  intros Hall Hk Hlt. unfold sum_prices.
  assert (plain (num 0)) as H0 by (left; vm_compute; reflexivity).
  assert (units (num 0) = 0) as Hu by (vm_compute; reflexivity).
  destruct (fold_prices_units items (num 0) k H0 Hall Hk) as [Hp Herr];
    [rewrite Hu; lia|].
  rewrite Hu in Herr. done.
Qed.

(** [Math.round(x * 100) / 100] of the running sum: an integer of
    hundredths, within the rounding and the tolerance of a hundred times
    the exact sum. *)
Lemma round2_sum_units items (k : Z) :
  Forall (fun i => not_below_zero (price i)) items ->
  1 <= k <= 44 ->
  price_units items <= 2 ^ (k - 1 + 1120) ->
  Z.of_nat (length items) < 2 ^ 53 ->
  exists c : Z,
    round2 (sum_prices items) = (of_Z c / 100)%float /\
    Z.abs (c * 2 ^ 1120 - 100 * price_units items) <=
      2 ^ 1119 +
      (100 * Z.of_nat (length items) + 128) * 2 ^ (k - 54 + 1120).
Proof.
  intros Hall Hk Hsum Hlen.
  set (eps := 2 ^ (k - 54 + 1120)).
  assert (0 < eps) as Hpk by (apply Z.pow_pos_nonneg; lia).
  assert (2 ^ (k - 1 + 1120) = 2 ^ 53 * eps) as Hhalf
    by (unfold eps; rewrite <-Z.pow_add_r by lia; f_equal; lia).
  assert (2 ^ (k + 1120) = 2 ^ 54 * eps) as Hfull
    by (unfold eps; rewrite <-Z.pow_add_r by lia; f_equal; lia).
  assert (2 ^ (k + 7 + 1120) = 2 ^ 61 * eps) as Hmul
    by (unfold eps; rewrite <-Z.pow_add_r by lia; f_equal; lia).
  assert (2 ^ (k + 7 - 54 + 1120) = 2 ^ 7 * eps) as Hmul'
    by (unfold eps; rewrite <-Z.pow_add_r by lia; f_equal; lia).
  assert (2 ^ 62 * eps <= 2 ^ (52 + 1120)) as Hround.
  { unfold eps. rewrite <-Z.pow_add_r by lia. apply Z.pow_le_mono_r; lia. }
  pose proof (price_units_nonneg items Hall) as Hnonneg.
  assert (Z.of_nat (length items) * eps < 2 ^ 53 * eps) as Hn
    by (apply Z.mul_lt_mono_pos_r; lia).
  destruct (sum_prices_units items k Hall ltac:(lia)) as [Hp Herr];
    [fold eps; lia|].
  fold eps in Herr. set (S := sum_prices items) in *.
  destruct (mul_100_units S (k + 7) Hp) as [Hy Herr']; [lia|lia|].
  rewrite Hmul' in Herr'.
  unfold round2. cbn [div mul Math_round num number].
  change (of_nat 100) with 100%float.
  set (y := (S * 100)%float) in *.
  rewrite (round_units y Hy) by lia.
  set (c := (2 * units y + 2 ^ 1120) / 2 ^ 1121).
  exists c. split; [done|].
  assert (0 <= units y) as Hy0 by (by apply SFplain_units).
  pose proof (Z.div_mod (2 * units y + 2 ^ 1120) (2 ^ 1121) ltac:(done)) as Hdm.
  pose proof (Z.mod_pos_bound (2 * units y + 2 ^ 1120) (2 ^ 1121)
                ltac:(done)) as Hmod.
  fold c in Hdm. change (2 ^ 1121) with (2 * 2 ^ 1120) in *.
  change (2 ^ 1120) with (2 * 2 ^ 1119) in *. lia.
Qed.

(** [Math.round(y * 100) / 100]: an integer of hundredths, within the
    rounding of a hundred times [y]. *)
Lemma round2_units (y : float) (k : Z) :
  plain y -> units y <= 2 ^ (k + 1120) -> 1 <= k <= 44 ->
  exists c : Z,
    round2 y = (of_Z c / 100)%float /\
    Z.abs (c * 2 ^ 1120 - 100 * units y) <=
      2 ^ 1119 + 128 * 2 ^ (k - 54 + 1120).
Proof.
  intros Hp Hle Hk.
  set (eps := 2 ^ (k - 54 + 1120)).
  assert (0 < eps) as Hpk by (apply Z.pow_pos_nonneg; lia).
  assert (2 ^ (k + 1120) = 2 ^ 54 * eps) as Hfull
    by (unfold eps; rewrite <-Z.pow_add_r by lia; f_equal; lia).
  assert (2 ^ (k + 7 + 1120) = 2 ^ 61 * eps) as Hmul
    by (unfold eps; rewrite <-Z.pow_add_r by lia; f_equal; lia).
  assert (2 ^ (k + 7 - 54 + 1120) = 2 ^ 7 * eps) as Hmul'
    by (unfold eps; rewrite <-Z.pow_add_r by lia; f_equal; lia).
  assert (2 ^ 62 * eps <= 2 ^ (52 + 1120)) as Hround.
  { unfold eps. rewrite <-Z.pow_add_r by lia. apply Z.pow_le_mono_r; lia. }
  destruct (mul_100_units y (k + 7) Hp) as [Hy Herr']; [lia|lia|].
  rewrite Hmul' in Herr'.
  unfold round2. cbn [div mul Math_round num number].
  change (of_nat 100) with 100%float.
  set (y' := (y * 100)%float) in *.
  rewrite (round_units y' Hy) by lia.
  set (c := (2 * units y' + 2 ^ 1120) / 2 ^ 1121).
  exists c. split; [done|].
  assert (0 <= units y') as Hy0 by (by apply SFplain_units).
  pose proof (Z.div_mod (2 * units y' + 2 ^ 1120) (2 ^ 1121) ltac:(done)) as Hdm.
  pose proof (Z.mod_pos_bound (2 * units y' + 2 ^ 1120) (2 ^ 1121)
                ltac:(done)) as Hmod.
  fold c in Hdm. change (2 ^ 1121) with (2 * 2 ^ 1120) in *.
  change (2 ^ 1120) with (2 * 2 ^ 1119) in *. lia.
Qed.

(** [averagePrice]: an integer of hundredths, within the rounding and
    the tolerance of a hundred times the exact sum, divided by the number
    of items. *)
Lemma round2_average_units items (k : Z) :
  items <> [] ->
  Forall (fun i => not_below_zero (price i)) items ->
  1 <= k <= 44 ->
  price_units items <= 2 ^ (k - 1 + 1120) ->
  Z.of_nat (length items) < 2 ^ 53 ->
  exists c : Z,
    round2 (sum_prices items / of_nat (length items))%float =
      (of_Z c / 100)%float /\
    Z.abs (c * 2 ^ 1120 * Z.of_nat (length items) - 100 * price_units items) <=
      Z.of_nat (length items) * (2 ^ 1119 + 328 * 2 ^ (k - 54 + 1120)).
Proof.
  intros Hne Hall Hk Hsum Hlen.
  set (n := length items) in *.
  assert (0 < n)%nat as Hn by (subst n; destruct items; [done|cbn; lia]).
  set (eps := 2 ^ (k - 54 + 1120)).
  assert (0 < eps) as Hpk by (apply Z.pow_pos_nonneg; lia).
  assert (2 ^ (k - 1 + 1120) = 2 ^ 53 * eps) as Hhalf
    by (unfold eps; rewrite <-Z.pow_add_r by lia; f_equal; lia).
  assert (2 ^ (k + 1120) = 2 ^ 54 * eps) as Hfull
    by (unfold eps; rewrite <-Z.pow_add_r by lia; f_equal; lia).
  pose proof (price_units_nonneg items Hall) as Hnonneg.
  assert (Z.of_nat n * eps < 2 ^ 53 * eps) as Hneps
    by (apply Z.mul_lt_mono_pos_r; lia).
  destruct (sum_prices_units items k Hall ltac:(lia)) as [Hp Herr];
    [fold eps n; lia|].
  fold eps n in Herr. set (S := sum_prices items) in *.
  destruct (div_units S n k Hp Hn Hlen ltac:(lia) ltac:(lia)) as [Hpa Herra].
  fold eps in Herra. set (a := (S / of_nat n)%float) in *.
  assert (0 <= units a) as Ha0 by (by apply SFplain_units).
  assert (units a <= 2 ^ (k + 1120)) as Hale.
  { assert (units a * Z.of_nat n <= (2 ^ 53 * eps + 2 * eps) * Z.of_nat n)
      as Hc by nia.
    apply Z.mul_le_mono_pos_r in Hc; lia. }
  destruct (round2_units a k Hpa Hale Hk) as (c & Hc & Herrc).
  fold eps in Herrc. exists c. split; [done|].
  set (D := 2 ^ 1120) in *. set (h := 2 ^ 1119) in *.
  assert (Z.abs (c * D * Z.of_nat n - 100 * (units a * Z.of_nat n)) <=
          Z.of_nat n * (h + 128 * eps)) as Hcn.
  { replace (c * D * Z.of_nat n - 100 * (units a * Z.of_nat n))
      with ((c * D - 100 * units a) * Z.of_nat n) by ring.
    rewrite Z.abs_mul, (Z.abs_eq (Z.of_nat n)) by lia.
    rewrite (Z.mul_comm (Z.of_nat n)). apply Z.mul_le_mono_nonneg_r; lia. }
  lia.
Qed.

(** *** From units to rational numbers *)

Lemma to_Qc_units (x : float) :
  to_Qc x = Q2Qc (units x # 2 ^ 1120).
Proof.
  unfold to_Qc, units.
  destruct (Prim2SF x) as [s|s| |s m e] eqn:Hx; cbn [SFunits];
    try (by apply Q2Qc_eq_iff).
  pose proof (Prim2SF_exponent x _ _ _ Hx) as He.
  set (n := if s then Z.neg m else Z.pos m).
  destruct (0 <=? e) eqn:Hsign; apply Q2Qc_eq_iff; unfold Qeq; cbn [Qnum Qden].
  - apply Z.leb_le in Hsign. change (Z.pos (2 ^ 1120)) with (2 ^ 1120).
    unfold inject_Z. cbn [Qnum Qden]. rewrite Z.pow_add_r by lia. lia.
  - apply Z.leb_gt in Hsign. change (Z.pos (2 ^ 1120)) with (2 ^ 1120).
    assert (0 < 2 ^ (- e)) as Hp by (apply Z.pow_pos_nonneg; lia).
    rewrite Z2Pos.id by done.
    rewrite <-Z.mul_assoc, <-Z.pow_add_r by lia.
    do 2 f_equal. lia.
Qed.

Lemma exact_sum_units items :
  exact_sum items = Q2Qc (price_units items # 2 ^ 1120).
Proof.
  unfold exact_sum.
  induction items as [|i items IH]; cbn [map Exact.total_of foldr price_units].
  - by apply Q2Qc_eq_iff.
  - fold (Exact.total_of (map (fun i => to_Qc (price i)) items)).
    fold (price_units items). rewrite IH, to_Qc_units.
    unfold Qcplus. apply Q2Qc_eq_iff. cbn [this Q2Qc].
    rewrite !Qred_correct. unfold Qeq, Qplus. cbn [Qnum Qden].
    rewrite Pos2Z.inj_mul. ring.
Qed.

(** The integer of hundredths of [round2_sum_units], against the exact
    sum as a rational number. *)
Lemma cents_within (c U : Z) (n : nat) (k : Z) :
  1 <= k <= 44 ->
  Z.abs (c * 2 ^ 1120 - 100 * U) <=
    2 ^ 1119 + (100 * Z.of_nat n + 128) * 2 ^ (k - 54 + 1120) ->
  let sum := Q2Qc (U # 2 ^ 1120) in
  Qcle (Qcminus (Qcminus sum Exact.half_cent) (tolerance n k))
    (Exact.cents c) /\
  Qcle (Exact.cents c)
    (Qcplus (Qcplus sum Exact.half_cent) (tolerance n k)).
Proof.
  intros Hk Herr sum. subst sum.
  set (T := 2 ^ (54 - k)).
  assert (0 < T) as HT by (apply Z.pow_pos_nonneg; lia).
  assert (2 ^ (k - 54 + 1120) * T = 2 ^ 1120) as HD.
  { unfold T. rewrite <-Z.pow_add_r by lia. f_equal. lia. }
  set (eps := 2 ^ (k - 54 + 1120)) in *.
  assert (T * Z.abs (c * 2 ^ 1120 - 100 * U) <=
          T * 2 ^ 1119 + (100 * Z.of_nat n + 128) * 2 ^ 1120) as Herr'.
  { assert (T * (2 ^ 1119 + (100 * Z.of_nat n + 128) * eps) =
            T * 2 ^ 1119 + (100 * Z.of_nat n + 128) * 2 ^ 1120) as <-
      by (rewrite <-HD; ring).
    apply Z.mul_le_mono_nonneg_l; lia. }
  clear Herr HD. clearbody eps.
  unfold Qcle, Qcminus, Qcplus, Qcopp, Exact.cents, Exact.half_cent, tolerance.
  fold T. cbn [this Q2Qc]. rewrite !Qred_correct.
  unfold Qle, Qplus, Qopp. cbn [Qnum Qden].
  rewrite !Pos2Z.inj_mul, !Z2Pos.id by done.
  change (Z.pos (2 ^ 1120)) with (2 ^ 1120).
  change (2 ^ 1120) with (2 * 2 ^ 1119) in *.
  set (h := 2 ^ 1119) in *.
  assert (0 < h) as Hh by done. clearbody h T.
  split; nia.
Qed.

Lemma price_units_filter (P : Item float -> Prop)
    `{!forall i, Decision (P i)} items :
  Forall (fun i => not_below_zero (price i)) items ->
  price_units (filter P items) <= price_units items.
Proof.
  induction 1 as [|i items Hi _ IH]; [done|].
  apply units_not_below_zero in Hi.
  rewrite filter_cons. cbn [price_units foldr] in *.
  fold (price_units items) in *.
  case_decide; cbn [price_units foldr]; fold (price_units (filter P items)); lia.
Qed.


(** A sum of [2 ^ (k - 1)] at most leaves room for the errors of fewer
    than [2 ^ 53] additions. *)
Lemma price_units_room (U : Z) (n : nat) (k : Z) :
  - 1021 <= k <= 1023 -> U <= 2 ^ (k - 1 + 1120) -> Z.of_nat n < 2 ^ 53 ->
  U + Z.of_nat n * 2 ^ (k - 54 + 1120) < 2 ^ (k + 1120).
Proof.
  intros Hk HU Hn.
  set (eps := 2 ^ (k - 54 + 1120)).
  assert (0 < eps) as Hpk by (apply Z.pow_pos_nonneg; lia).
  assert (2 ^ (k - 1 + 1120) = 2 ^ 53 * eps) as Hhalf
    by (unfold eps; rewrite <-Z.pow_add_r by lia; f_equal; lia).
  assert (2 ^ (k + 1120) = 2 ^ 54 * eps) as Hfull
    by (unfold eps; rewrite <-Z.pow_add_r by lia; f_equal; lia).
  assert (Z.of_nat n * eps < 2 ^ 53 * eps)
    by (apply Z.mul_lt_mono_pos_r; lia).
  lia.
Qed.

(** A number of units within [n] errors of another, as rational
    numbers. *)
Lemma units_within (u U : Z) (n : nat) (k : Z) :
  1 <= k <= 44 ->
  Z.abs (u - U) <= Z.of_nat n * 2 ^ (k - 54 + 1120) ->
  Qcle (Qcminus (Q2Qc (U # 2 ^ 1120)) (tolerance n k)) (Q2Qc (u # 2 ^ 1120)) /\
  Qcle (Q2Qc (u # 2 ^ 1120)) (Qcplus (Q2Qc (U # 2 ^ 1120)) (tolerance n k)).
Proof.
  intros Hk Herr.
  set (T := 2 ^ (54 - k)).
  assert (0 < T) as HT by (apply Z.pow_pos_nonneg; lia).
  assert (2 ^ (k - 54 + 1120) * T = 2 ^ 1120) as HD.
  { unfold T. rewrite <-Z.pow_add_r by lia. f_equal. lia. }
  set (eps := 2 ^ (k - 54 + 1120)) in *.
  assert (T * Z.abs (u - U) <= Z.of_nat n * 2 ^ 1120) as Herr'.
  { rewrite <-HD.
    replace (Z.of_nat n * (eps * T)) with (T * (Z.of_nat n * eps)) by ring.
    apply Z.mul_le_mono_nonneg_l; lia. }
  clear Herr HD. clearbody eps.
  unfold Qcle, Qcminus, Qcplus, Qcopp, tolerance.
  fold T. cbn [this Q2Qc]. rewrite !Qred_correct.
  unfold Qle, Qplus, Qopp. cbn [Qnum Qden].
  rewrite !Pos2Z.inj_mul, !Z2Pos.id by done.
  change (Z.pos (2 ^ 1120)) with (2 ^ 1120).
  set (h := 2 ^ 1120) in *.
  assert (0 < h) as Hh by done. clearbody h T.
  assert (U * T - (Z.of_nat n + 2) * h <= u * T <=
          U * T + (Z.of_nat n + 2) * h) as [Hlo Hhi] by nia.
  split.
  - replace (u * (h * T)) with (u * T * h) by ring.
    apply Z.mul_le_mono_nonneg_r; lia.
  - replace (u * (h * T)) with (u * T * h) by ring.
    apply Z.mul_le_mono_nonneg_r; lia.
Qed.

Lemma exact_sum_bound items (k : Z) :
  1 <= k ->
  Qcle (exact_sum items) (Q2Qc (inject_Z (2 ^ (k - 1)))) ->
  price_units items <= 2 ^ (k - 1 + 1120).
Proof.
  intros Hk. rewrite exact_sum_units. unfold Qcle. cbn [this Q2Qc].
  rewrite !Qred_correct. unfold Qle, inject_Z. cbn [Qnum Qden].
  change (Z.pos (2 ^ 1120)) with (2 ^ 1120).
  rewrite (Z.pow_add_r 2 (k - 1) 1120) by lia. lia.
Qed.

Lemma exact_mean_units items :
  items <> [] ->
  exact_mean items =
  Q2Qc (price_units items # (2 ^ 1120 * Pos.of_nat (length items))).
Proof.
  intros Hne. unfold exact_mean. rewrite exact_sum_units.
  assert (0 < length items)%nat as Hn by (destruct items; [done|cbn; lia]).
  unfold Qcdiv, Qcmult, Qcinv, Exact.of_nat. apply Q2Qc_eq_iff.
  cbn [this Q2Qc]. rewrite !Qred_correct.
  replace (Z.of_nat (length items)) with (Z.pos (Pos.of_nat (length items)))
    by (rewrite <-(Nat2Pos.id (length items)) at 2 by lia;
        by rewrite positive_nat_Z).
  unfold Qeq, Qmult, Qinv, inject_Z. cbn [Qnum Qden].
  rewrite !Pos2Z.inj_mul. ring.
Qed.

Lemma mean_cents_within (c U : Z) (n : positive) (k : Z) :
  1 <= k <= 44 ->
  Z.abs (c * 2 ^ 1120 * Z.pos n - 100 * U) <=
    Z.pos n * (2 ^ 1119 + 328 * 2 ^ (k - 54 + 1120)) ->
  let mean := Q2Qc (U # (2 ^ 1120 * n)) in
  Qcle (Qcminus (Qcminus mean Exact.half_cent) (tolerance 2 k))
    (Exact.cents c) /\
  Qcle (Exact.cents c)
    (Qcplus (Qcplus mean Exact.half_cent) (tolerance 2 k)).
Proof.
  intros Hk Herr mean. subst mean.
  set (T := 2 ^ (54 - k)).
  assert (0 < T) as HT by (apply Z.pow_pos_nonneg; lia).
  assert (2 ^ (k - 54 + 1120) * T = 2 ^ 1120) as HD.
  { unfold T. rewrite <-Z.pow_add_r by lia. f_equal. lia. }
  set (eps := 2 ^ (k - 54 + 1120)) in *.
  assert (T * Z.abs (c * 2 ^ 1120 * Z.pos n - 100 * U) <=
          Z.pos n * (T * 2 ^ 1119 + 328 * 2 ^ 1120)) as Herr'.
  { assert (T * (Z.pos n * (2 ^ 1119 + 328 * eps)) =
            Z.pos n * (T * 2 ^ 1119 + 328 * 2 ^ 1120)) as <-
      by (rewrite <-HD; ring).
    apply Z.mul_le_mono_nonneg_l; lia. }
  clear Herr HD. clearbody eps.
  unfold Qcle, Qcminus, Qcplus, Qcopp, Exact.cents, Exact.half_cent, tolerance.
  fold T. cbn [this Q2Qc]. rewrite !Qred_correct.
  unfold Qle, Qplus, Qopp. cbn [Qnum Qden].
  rewrite !Pos2Z.inj_mul, !Z2Pos.id by done.
  change (Z.pos (2 ^ 1120)) with (2 ^ 1120).
  change (2 ^ 1120) with (2 * 2 ^ 1119) in *.
  set (h := 2 ^ 1119) in *.
  assert (0 < h) as Hh by done. clearbody h T.
  set (m := Z.pos n) in *. assert (0 < m) as Hm by done. clearbody m.
  change (Z.of_nat 2) with 2.
  split; nia.
Qed.

(** *** The least and the greatest price *)

Lemma ltb_units (x y : float) :
  not_below_zero x -> not_below_zero y ->
  PrimFloat.ltb x y = (units x <? units y).
Proof.
  unfold not_below_zero, units. intros Hx Hy. rewrite ltb_spec. unfold SFltb.
  destruct (Prim2SF x) as [sx|sx| |[|] mx ex] eqn:Hsx; try done;
    destruct (Prim2SF y) as [sy|sy| |[|] my ey] eqn:Hsy; try done;
    cbn [SFcompare SFunits].
  - pose proof (Prim2SF_exponent y _ _ _ Hsy).
    assert (0 < 2 ^ (ey + 1120)) by (apply Z.pow_pos_nonneg; lia).
    symmetry. apply Z.ltb_lt. lia.
  - pose proof (Prim2SF_exponent x _ _ _ Hsx).
    assert (0 < 2 ^ (ex + 1120)) by (apply Z.pow_pos_nonneg; lia).
    symmetry. apply Z.ltb_ge. lia.
  - destruct (Prim2SF_canonical x _ _ _ Hsx) as [Hcx _].
    destruct (Prim2SF_canonical y _ _ _ Hsy) as [Hcy _].
    rewrite fexp_eq in Hcx, Hcy.
    pose proof (digits2_bounds mx) as Hdx. pose proof (digits2_bounds my) as Hdy.
    set (dx := Z.pos (digits2_pos mx)) in *.
    set (dy := Z.pos (digits2_pos my)) in *.
    assert (forall m d e m' d' e',
              2 ^ (d - 1) <= m < 2 ^ d -> 2 ^ (d' - 1) <= m' < 2 ^ d' ->
              0 < d -> 0 < d' ->
              Z.max (d + e - 53) (- 1074) = e ->
              Z.max (d' + e' - 53) (- 1074) = e' -> e < e' ->
              m * 2 ^ (e + 1120) < m' * 2 ^ (e' + 1120)) as Hexp.
    { intros m d e m' d' e' Hm Hm' Hd Hd' Hc Hc' Hlt.
      assert (d <= 53) by lia. assert (d' = 53) as -> by lia.
      assert (2 ^ d <= 2 ^ 53) by (apply Z.pow_le_mono_r; lia).
      assert (0 < 2 ^ (e + 1120)) by (apply Z.pow_pos_nonneg; lia).
      assert (2 ^ (e' + 1120) = 2 ^ (e' - e) * 2 ^ (e + 1120)) as ->
        by (rewrite <-Z.pow_add_r by lia; f_equal; lia).
      assert (2 ^ 1 <= 2 ^ (e' - e)) by (apply Z.pow_le_mono_r; lia).
      change (2 ^ (53 - 1)) with (2 ^ 52) in Hm'. change (2 ^ 1) with 2 in *.
      set (P := 2 ^ (e + 1120)) in *. set (Q := 2 ^ (e' - e)) in *.
      assert (m * P < 2 ^ 53 * P) by (apply Z.mul_lt_mono_pos_r; lia).
      assert (2 ^ 52 * (Q * P) <= m' * (Q * P))
        by (apply Z.mul_le_mono_nonneg_r; lia).
      assert (2 * P <= Q * P) by (apply Z.mul_le_mono_nonneg_r; lia).
      change (2 ^ 53) with (2 ^ 52 * 2) in *. lia. }
    destruct (Z.compare_spec ex ey) as [Heq|Hlt|Hgt].
    + subst ey. change (Pos.compare_cont Eq mx my) with (Pos.compare mx my).
      assert (0 < 2 ^ (ex + 1120)) by (apply Z.pow_pos_nonneg; lia).
      destruct (Pos.compare_spec mx my) as [Hm|Hm|Hm]; symmetry.
      * apply Z.ltb_ge. subst. lia.
      * apply Z.ltb_lt. apply Z.mul_lt_mono_pos_r; lia.
      * apply Z.ltb_ge. apply Z.mul_le_mono_nonneg_r; lia.
    + symmetry. apply Z.ltb_lt. apply (Hexp _ dx _ _ dy); (done || lia).
    + symmetry. apply Z.ltb_ge. apply Z.lt_le_incl.
      apply (Hexp _ dy _ _ dx); (done || lia).
Qed.

Lemma is_nan_not_below_zero (x : float) :
  not_below_zero x -> PrimFloat.is_nan x = false.
Proof.
  unfold not_below_zero, PrimFloat.is_nan. intros Hx.
  rewrite FloatAxioms.eqb_spec. unfold SFeqb.
  destruct (Prim2SF x) as [sx|sx| |[|] mx ex]; try done.
  cbn [SFcompare]. rewrite Z.compare_refl, Pos.compare_cont_refl. done.
Qed.

Lemma min2_units (a b : float) :
  not_below_zero a -> not_below_zero b ->
  not_below_zero (min2 a b) /\ units (min2 a b) = Z.min (units a) (units b).
Proof.
  intros Ha Hb. unfold min2.
  rewrite !is_nan_not_below_zero by done. cbn [orb].
  rewrite !ltb_units by done.
  destruct (Z.ltb_spec (units b) (units a)); [split; [done|lia]|].
  destruct (Z.ltb_spec (units a) (units b)); [split; [done|lia]|].
  destruct (get_sign a); split; (done || lia).
Qed.

Lemma max2_units (a b : float) :
  not_below_zero a -> not_below_zero b ->
  not_below_zero (max2 a b) /\ units (max2 a b) = Z.max (units a) (units b).
Proof.
  intros Ha Hb. unfold max2.
  rewrite !is_nan_not_below_zero by done. cbn [orb].
  rewrite !ltb_units by done.
  destruct (Z.ltb_spec (units a) (units b)); [split; [done|lia]|].
  destruct (Z.ltb_spec (units b) (units a)); [split; [done|lia]|].
  destruct (get_sign a); split; (done || lia).
Qed.

Lemma min2_infinity (b : float) :
  not_below_zero b -> min2 infinity b = b.
Proof.
  intros Hb. unfold min2.
  rewrite (is_nan_not_below_zero b) by done.
  change (is_nan infinity) with false. cbn [orb].
  assert (PrimFloat.ltb b infinity = true) as ->; [|done].
  rewrite ltb_spec. unfold not_below_zero in Hb.
  change (Prim2SF infinity) with (S754_infinity false).
  by destruct (Prim2SF b) as [sx|sx| |[|] mx ex].
Qed.

Lemma max2_neg_infinity (b : float) :
  not_below_zero b -> max2 neg_infinity b = b.
Proof.
  intros Hb. unfold max2.
  rewrite (is_nan_not_below_zero b) by done.
  change (is_nan neg_infinity) with false. cbn [orb].
  assert (PrimFloat.ltb neg_infinity b = true) as ->; [|done].
  rewrite ltb_spec. unfold not_below_zero in Hb.
  change (Prim2SF neg_infinity) with (S754_infinity true).
  by destruct (Prim2SF b) as [sx|sx| |[|] mx ex].
Qed.

Lemma fold_min2_units (xs : list float) (acc : float) :
  not_below_zero acc -> Forall not_below_zero xs ->
  not_below_zero (fold_left min2 xs acc) /\
  units (fold_left min2 xs acc) <= units acc /\
  Forall (fun x => units (fold_left min2 xs acc) <= units x) xs.
Proof.
  intros Hacc Hall. revert acc Hacc.
  induction Hall as [|x xs Hx _ IH]; intros acc Hacc; cbn [fold_left].
  - split; [done|]. split; [lia|constructor].
  - destruct (min2_units acc x Hacc Hx) as [Hm Hu].
    destruct (IH (min2 acc x) Hm) as (Hn & Hle & Hrest).
    split; [done|]. split; [lia|]. constructor; [lia|done].
Qed.

Lemma fold_max2_units (xs : list float) (acc : float) :
  not_below_zero acc -> Forall not_below_zero xs ->
  not_below_zero (fold_left max2 xs acc) /\
  units acc <= units (fold_left max2 xs acc) /\
  Forall (fun x => units x <= units (fold_left max2 xs acc)) xs.
Proof.
  intros Hacc Hall. revert acc Hacc.
  induction Hall as [|x xs Hx _ IH]; intros acc Hacc; cbn [fold_left].
  - split; [done|]. split; [lia|constructor].
  - destruct (max2_units acc x Hacc Hx) as [Hm Hu].
    destruct (IH (max2 acc x) Hm) as (Hn & Hle & Hrest).
    split; [done|]. split; [lia|]. constructor; [lia|done].
Qed.

Lemma price_units_between items (lo hi : Z) :
  Forall (fun i => lo <= units (price i) <= hi) items ->
  lo * Z.of_nat (length items) <= price_units items <=
    hi * Z.of_nat (length items).
Proof.
  induction 1 as [|i items Hi _ IH]; [cbn; lia|].
  cbn [length price_units foldr]. fold (price_units items). lia.
Qed.

(** The least and the greatest of prices that are finite and not below
    zero bound every price, and so their sum. *)
Lemma price_range_units items :
  items <> [] ->
  Forall (fun i => not_below_zero (price i)) items ->
  let lo := min_list (map price items) in
  let hi := max_list (map price items) in
  not_below_zero lo /\ not_below_zero hi /\
  units lo * Z.of_nat (length items) <= price_units items /\
  price_units items <= units hi * Z.of_nat (length items).
Proof.
  intros Hne Hall lo hi.
  assert (not_below_zero lo /\ not_below_zero hi /\
          Forall (fun i => units lo <= units (price i) <= units hi) items)
    as (Hlo & Hhi & Hbetween).
  { subst lo hi. destruct items as [|i items]; [done|]. clear Hne.
    apply Forall_cons in Hall as [Hi Hall].
    assert (Forall not_below_zero (map price items)) as Hall'
      by (by apply Forall_fmap).
    unfold min_list, max_list. cbn [map fold_left].
    rewrite min2_infinity, max2_neg_infinity by done.
    destruct (fold_min2_units (map price items) (price i) Hi Hall')
      as (Hlo & Hloi & Hlos).
    destruct (fold_max2_units (map price items) (price i) Hi Hall')
      as (Hhi & Hhii & Hhis).
    split; [done|]. split; [done|]. constructor; [lia|].
    rewrite Forall_forall in Hlos, Hhis. apply Forall_forall. intros j Hj.
    assert (price j ∈ map price items) as Hin
      by (apply (list_elem_of_fmap_2 price), Hj).
    split; [by apply Hlos|by apply Hhis]. }
  split; [done|]. split; [done|].
  by apply price_units_between.
Qed.

Lemma mean_between (u v U : Z) (n : positive) :
  u * Z.pos n <= U -> U <= v * Z.pos n ->
  Qcle (Q2Qc (u # 2 ^ 1120)) (Q2Qc (U # (2 ^ 1120 * n))) /\
  Qcle (Q2Qc (U # (2 ^ 1120 * n))) (Q2Qc (v # 2 ^ 1120)).
Proof.
  intros Hlo Hhi. unfold Qcle. cbn [this Q2Qc]. rewrite !Qred_correct.
  unfold Qle. cbn [Qnum Qden]. rewrite !Pos2Z.inj_mul.
  set (D := Z.pos (2 ^ 1120)). assert (0 < D) by done. clearbody D.
  split; nia.
Qed.

(** [totalValue], for a store whose prices are finite and not below zero
    and add up to [2 ^ (k - 1)] at most. *)
Lemma totalValue_within items (k : Z) :
  Forall (fun i => not_below_zero (price i)) items ->
  1 <= k <= 44 ->
  Z.of_nat (length items) < 2 ^ 53 ->
  Qcle (exact_sum items) (Q2Qc (inject_Z (2 ^ (k - 1)))) ->
  exists c : Z,
    round2 (sum_prices items) = (of_Z c / 100)%float /\
    Qcle (Qcminus (Qcminus (exact_sum items) Exact.half_cent)
            (tolerance (length items) k))
      (Exact.cents c) /\
    Qcle (Exact.cents c)
      (Qcplus (Qcplus (exact_sum items) Exact.half_cent)
         (tolerance (length items) k)).
Proof.
  intros Hall Hk Hlen Hsum.
  pose proof (exact_sum_bound items k ltac:(lia) Hsum) as HU.
  destruct (round2_sum_units items k Hall Hk HU Hlen) as (c & Hc & Herr).
  exists c. split; [done|]. rewrite exact_sum_units.
  by apply cents_within.
Qed.

(** The prices that the rounding leaves as they are add up to the same
    sum whether they are rounded first or not. *)
Lemma sum_rounded_prices_fixed items :
  Forall (fun i => round2 (price i) = price i) items ->
  sum_rounded_prices items = sum_prices items.
Proof.
  unfold sum_rounded_prices, sum_prices. generalize (num 0 : float) as acc.
  intros acc Hall. revert acc.
  induction Hall as [|i items Hi _ IH]; intros acc; [done|].
  cbn [fold_left]. by rewrite Hi, IH.
Qed.

(** C2, as the code has it. For every non-empty sequence of items,
    [total] is the length of the sequence.  [totalValue] is computed from
    the running sum of the prices as they are, not from the prices rounded
    one by one: the sum is rounded once, by [Math.round(x * 100) / 100].
    For prices that the rounding leaves as they are, this is the sum of
    the rounded prices, rounded once more.  In binary64, for prices that
    are finite and not below zero and add up to [2 ^ (k - 1)] at most,
    [totalValue] is the quotient [c / 100] of an integer [c] of hundredths
    that lies within half a hundredth and the tolerance
    [(n + 2) * 2 ^ (k - 54)] of the exact sum of the [n] prices. *)
Theorem total_and_totalValue items :
  items <> [] ->
  let s := calculateStats (JsArray items) in
  total s = length items /\
  totalValue s = round2 (sum_prices items) /\
  (Forall (fun i => round2 (price i) = price i) items ->
   totalValue s = round2 (sum_rounded_prices items)) /\
  forall k : Z,
    Forall (fun i => not_below_zero (price i)) items ->
    1 <= k <= 44 ->
    Z.of_nat (length items) < 2 ^ 53 ->
    Qcle (exact_sum items) (Q2Qc (inject_Z (2 ^ (k - 1)))) ->
    exists c : Z,
      totalValue s = (of_Z c / 100)%float /\
      Qcle (Qcminus (Qcminus (exact_sum items) Exact.half_cent)
              (tolerance (length items) k))
        (Exact.cents c) /\
      Qcle (Exact.cents c)
        (Qcplus (Qcplus (exact_sum items) Exact.half_cent)
           (tolerance (length items) k)).
Proof.
  intros Hne s.
  assert (totalValue s = round2 (sum_prices items)) as Htv
    by (subst s; by destruct items).
  split; [by destruct items|]. split; [done|]. split.
  - intros Hfix. by rewrite sum_rounded_prices_fixed.
  - intros k Hall Hk Hlen Hsum. rewrite Htv. by apply totalValue_within.
Qed.

End Binary64Facts.

(** ** calculateStats on the sample stores *)

Section Scenarios.

Import Binary64 Exact Samples.

Ltac qc_compute := apply Qc_is_canon; vm_compute; reflexivity.

Lemma store_not_below_zero :
  Forall (fun i : Item float => not_below_zero (price i)) store.
Proof. repeat constructor. Qed.

Lemma total_and_totalValue_store :
  store <> [] /\
  Forall (fun i : Item float => round2 (price i) = price i) store /\
  Forall (fun i : Item float => not_below_zero (price i)) store /\
  1 <= 12 <= 44 /\
  Z.of_nat (length store) < 2 ^ 53 /\
  Qcle (exact_sum store) (Q2Qc (inject_Z (2 ^ (12 - 1)))) /\
  total (calculateStats (JsArray store)) = length store /\
  totalValue (calculateStats (JsArray store)) =
    round2 (sum_rounded_prices store) /\
  exists c : Z,
    totalValue (calculateStats (JsArray store)) = (of_Z c / 100)%float /\
    Qcle (Qcminus (Qcminus (exact_sum store) half_cent)
            (tolerance (length store) 12))
      (cents c) /\
    Qcle (cents c)
      (Qcplus (Qcplus (exact_sum store) half_cent)
         (tolerance (length store) 12)).
Proof.
  assert (store <> []) as Hne by discriminate.
  assert (Forall (fun i : Item float => round2 (price i) = price i) store)
    as Hfix by (repeat constructor; vm_compute; reflexivity).
  assert (1 <= 12 <= 44) as Hk by lia.
  assert (Z.of_nat (length store) < 2 ^ 53) as Hlen by (cbn; lia).
  assert (Qcle (exact_sum store) (Q2Qc (inject_Z (2 ^ (12 - 1))))) as Hsum
    by (vm_compute; discriminate).
  split; [exact Hne|]. split; [exact Hfix|].
  split; [exact store_not_below_zero|].
  split; [exact Hk|]. split; [exact Hlen|]. split; [exact Hsum|].
  destruct (total_and_totalValue store Hne) as (Htotal & _ & Hrounded & Hc).
  split; [exact Htotal|]. split; [exact (Hrounded Hfix)|].
  exact (Hc 12 store_not_below_zero Hk Hlen Hsum).
Defined.

(** The summary of the sample store, in both readings of the numbers. *)
Example store_summary :
  total (calculateStats (JsArray store)) = 5%nat /\
  totalValue (calculateStats (JsArray store)) = 1506.73%float /\
  averagePrice (calculateStats (JsArray store)) = 301.35%float /\
  priceRange (calculateStats (JsArray store)) =
    {| min := 7.25%float; max := 999.99%float |}.
Proof. repeat split; vm_compute; reflexivity. Qed.

Example store_exact_summary :
  total (calculateStats (JsArray store_exact)) = 5%nat /\
  totalValue (calculateStats (JsArray store_exact)) = cents 150673 /\
  averagePrice (calculateStats (JsArray store_exact)) = cents 30135.
Proof. split; [reflexivity|]. split; qc_compute. Qed.

(** The scenario of the design: with exactly two "Electronics" items,
    priced 999.99 and 29.99, the bucket is [{count: 2, totalValue:
    1029.98}], and the keys are compared as exact strings. *)
Example store_electronics :
  categories (calculateStats (JsArray store)) !! "Electronics" =
    Some {| count := 2; bucketValue := 1029.98%float |} /\
  categories (calculateStats (JsArray store)) !! "electronics" = None /\
  dom (categories (calculateStats (JsArray store))) =
    {[ "Electronics"; "Furniture"; "Kitchen" ]}.
Proof. repeat split; vm_compute; reflexivity. Qed.

Example store_exact_electronics :
  categories (calculateStats (JsArray store_exact)) !! "Electronics" =
    Some {| count := 2; bucketValue := cents 102998 |}.
Proof.
  rewrite categories_own by reflexivity.
  cbn. unfold bucket_of. f_equal. f_equal. qc_compute.
Qed.

(** C2, as stated, fails. Two items priced 0.004 each: [totalValue] is
    0.01, the sum 0.008 rounded once, while the sum of the prices rounded
    one by one is 0. *)
Example totalValue_not_sum_of_rounded_prices :
  (totalValue (calculateStats (JsArray fractions_exact)) = cents 1 /\
   sum_rounded_prices fractions_exact = cents 0) /\
  (totalValue (calculateStats (JsArray fractions)) = 0.01%float /\
   sum_rounded_prices fractions = 0%float).
Proof.
  split; split; [qc_compute | qc_compute | |]; vm_compute; reflexivity.
Qed.

(** C3, at inputs where the code misses it. For a single item priced
    1.005 the average is 1.005 and the answer is 1, where a 5 in the third
    decimal going up gives 1.01 (as the same formula does in exact
    arithmetic).  Nor is the answer the binary64 value rounded by that
    rule: the number 1.105 stands for lies below 1.105 and rounds to 1.10,
    and the answer is 1.11.  For a single item priced 1e307 the answer is
    [Infinity].  The product [x * 100] is rounded to binary64, or
    overflows, before [Math.round]. *)
Example binary64_halves_not_up :
  (div (sum_prices gauge) (num (length gauge)) = 1.005%float /\
   averagePrice (calculateStats (JsArray gauge)) = 1%float /\
   totalValue (calculateStats (JsArray gauge)) = 1%float /\
   averagePrice (calculateStats (JsArray gauge_exact)) = cents 101) /\
  (div (sum_prices valve) (num (length valve)) = 1.105%float /\
   rounds_half_up_to_cents (to_Qc 1.105%float) (cents 110) /\
   averagePrice (calculateStats (JsArray valve)) = 1.11%float) /\
  (div (sum_prices ingot) (num (length ingot)) = 1e307%float /\
   averagePrice (calculateStats (JsArray ingot)) = infinity /\
   totalValue (calculateStats (JsArray ingot)) = infinity).
Proof.
  split; [repeat split; try (vm_compute; reflexivity); qc_compute|].
  split; [|repeat split; vm_compute; reflexivity].
  split; [vm_compute; reflexivity|]. split; [|vm_compute; reflexivity].
  exists 110. split; [reflexivity|].
  split; vm_compute; [discriminate | reflexivity].
Qed.

End Scenarios.

(** ** The cache and the watcher *)

Section CallbackFacts.

Context {N : Type} `{JsNumber N}.

Implicit Types (st : State N) (ev : Event N) (evs : list (Event N)).

Ltac run_step :=
  unfold step, run_callback, router_get, setupFileWatcher, cleanup,
    watch_listener, loadStats_callback, loadStats, resolved, rejected,
    settle_read, fs_readFile, fs_watch, close, assign_statsCache,
    assign_cacheTimestamp, assign_watcher, modify, emit, read, ret,
    mbind, callback_bind, bind.

(** *** Each callback, as one step *)

Lemma step_get_cached st req now s :
  statsCache st = Some s ->
  step st (http_get req now) =
  (st, [res_json req
          {| stats := s; cached := true;
             cacheAge := Some (minus_timestamp now (cacheTimestamp st)) |}]).
Proof. intros Hs. run_step. by rewrite Hs. Qed.

Lemma step_get_absent st req now :
  statsCache st = None ->
  step st (http_get req now) =
  (set_reading (reading st ++ [FromRequest req]) st, []).
Proof. intros Hs. run_step. by rewrite Hs. Qed.

Lemma step_read_parsed st i a items now :
  reading st !! i = Some a ->
  step st (read_done i (Parsed items) now) =
  (set_cacheTimestamp (Some now)
     (set_statsCache (Some (calculateStats items))
        (set_reading (delete i (reading st)) st)),
   match a with
   | FromRequest req =>
       [res_json req {| stats := calculateStats items; cached := false;
                        cacheAge := None |}]
   | FromWatcher => [console_log "Stats cache refreshed"]
   end).
Proof. intros Hi. run_step. rewrite Hi. by destruct a. Qed.

Lemma step_read_failed st i a outcome err now :
  reading st !! i = Some a ->
  fails_with outcome err ->
  step st (read_done i outcome now) =
  (set_reading (delete i (reading st)) st,
   match a with
   | FromRequest req => [next req err]
   | FromWatcher => [console_error "Error refreshing stats cache:" err]
   end).
Proof.
  intros Hi [-> | ->]; run_step; rewrite Hi; by destruct a.
Qed.

Lemma step_change st h :
  h ∈ open_handles st ->
  step st (fs_event h "change") =
  (set_reading (reading st ++ [FromWatcher])
     (set_cacheTimestamp None (set_statsCache None st)),
   [console_log "Data file changed, invalidating stats cache..."]).
Proof. intros Hh. run_step. by rewrite decide_True. Qed.

Lemma step_setup_watching st h w :
  watcher st = Some h -> step st (call_setupFileWatcher w) = (st, []).
Proof. intros Hw. run_step. by rewrite Hw. Qed.

Lemma step_cleanup_unstarted st :
  watcher st = None -> step st call_cleanup = (st, []).
Proof. intros Hw. run_step. by rewrite Hw. Qed.

Lemma step_cleanup_watching st h :
  watcher st = Some h ->
  step st call_cleanup =
  (set_watcher None
     (set_handles (open_handles st ∖ {[h]}) (created st) st), []).
Proof. intros Hw. run_step. by rewrite Hw. Qed.

(** *** Invariants of the event loop *)

Ltac step_cases ev :=
  destruct ev as [[|?]| |? ?|? ?|? [?|?|?] ?]; run_step;
  repeat match goal with
    | |- context [match ?x with _ => _ end] =>
        match type of x with
        | option _ => destruct x eqn:?
        | Awaiter => destruct x eqn:?
        | sumbool _ _ => destruct x
        end
    end; cbn.

Lemma step_paired st ev : paired st -> paired (step st ev).1.
Proof.
  unfold paired. intros Hp.
  step_cases ev; try done; try (right; split; by eexists);
    try (by left);
    match goal with He : statsCache st = _ |- _ => by rewrite He end.
Qed.

Lemma run_app st evs evs' :
  run st (evs ++ evs') =
  let '(st1, out1) := run st evs in
  let '(st2, out2) := run st1 evs' in
  (st2, out1 ++ out2).
Proof.
  revert st. induction evs as [|ev evs IH]; intros st; simpl.
  - by destruct (run st evs').
  - destruct (step st ev) as [st1 out1]. rewrite IH.
    destruct (run st1 evs) as [st2 out2].
    destruct (run st2 evs') as [st3 out3]. by rewrite app_assoc.
Qed.

Lemma run_paired st evs : paired st -> paired (run st evs).1.
Proof.
  revert st. induction evs as [|ev evs IH]; intros st Hp; simpl; [done|].
  pose proof (step_paired st ev Hp) as Hp1.
  destruct (step st ev) as [st1 out1]. specialize (IH st1 Hp1).
  by destruct (run st1 evs).
Qed.

Lemma initial_paired : paired (initial (N := N)).
Proof. by left. Qed.

Lemma step_handles_tracked st ev :
  handles_tracked st -> handles_tracked (step st ev).1.
Proof.
  unfold handles_tracked. intros Ht.
  destruct ev as [w| | |req now|i outcome now].
  - destruct (watcher st) as [h|] eqn:Hw.
    + rewrite (step_setup_watching st h) by done. cbn. by rewrite Hw.
    + destruct w; run_step; rewrite Hw; cbn; [|by rewrite Hw].
      rewrite Ht. apply union_empty_r_L.
  - destruct (watcher st) as [h|] eqn:Hw.
    + rewrite (step_cleanup_watching st h) by done. cbn.
      rewrite Ht. apply difference_diag_L.
    + rewrite step_cleanup_unstarted by done. cbn. by rewrite Hw.
  - run_step. repeat case_decide; done.
  - destruct (statsCache st) eqn:Hc.
    + by erewrite step_get_cached.
    + by rewrite step_get_absent.
  - destruct (reading st !! i) as [a|] eqn:Hi.
    + destruct outcome.
      * by erewrite step_read_failed; [|done|by left].
      * by erewrite step_read_failed; [|done|by right].
      * by erewrite step_read_parsed.
    + run_step. by rewrite Hi.
Qed.

Lemma run_handles_tracked st evs :
  handles_tracked st -> handles_tracked (run st evs).1.
Proof.
  revert st. induction evs as [|ev evs IH]; intros st Ht; simpl; [done|].
  pose proof (step_handles_tracked st ev Ht) as Ht1.
  destruct (step st ev) as [st1 out1]. specialize (IH st1 Ht1).
  by destruct (run st1 evs).
Qed.




Lemma delete_snoc_last {A} (l : list A) (a : A) :
  delete (length l) (l ++ [a]) = l.
Proof. induction l as [|b l IH]; [done|]. simpl. by f_equal. Qed.

Lemma set_reading_back st a :
  set_reading (delete (length (reading st)) (reading st ++ [a]))
    (set_reading (reading st ++ [a]) st) = set_reading (reading st) st.
Proof. by rewrite delete_snoc_last. Qed.

Lemma set_reading_same st : set_reading (reading st) st = st.
Proof. by destruct st. Qed.

Lemma lookup_snoc_last {A} (l : list A) (a : A) :
  (l ++ [a]) !! length l = Some a.
Proof. induction l; [done|]. by cbn. Qed.


(** *** The statistics endpoint *)


(** *** The file watcher *)


(** C7. When the read or the parse of a request's recomputation fails,
    the request is answered with that error through [next], and the
    cache variables are left as they are: a request that found the cache
    absent and whose read fails leaves the state as it found it. *)
Theorem request_reload_failure st req outcome err now0 now :
  fails_with outcome err ->
  (forall st1 i,
     reading st1 !! i = Some (FromRequest req) ->
     step st1 (read_done i outcome now) =
     (set_reading (delete i (reading st1)) st1, [next req err])) /\
  (statsCache st = None ->
   run st [http_get req now0;
           read_done (length (reading st)) outcome now] =
   (st, [next req err])).
Proof.
  intros Hf.
  split; [intros; by rewrite (step_read_failed _ _ (FromRequest req) _ err)|].
  intros Hc. cbn [run]. rewrite step_get_absent by done.
  rewrite (step_read_failed _ _ (FromRequest req) _ err);
    [|apply lookup_snoc_last|done].
  cbn. by rewrite set_reading_back, set_reading_same.
Qed.

(** C8. The summary and its timestamp are set together or not at all:
    this holds when the module loads, every callback (a successful or a
    failed read, a change event, the request handler, setup, cleanup)
    keeps it, and so it holds in every state the module can reach. *)
Theorem cache_paired :
  paired (initial (N := N)) /\
  (forall st ev, paired st -> paired (step st ev).1) /\
  (forall evs, paired (run initial evs).1).
Proof.
  split; [apply initial_paired|]. split; [apply step_paired|].
  intros evs. apply run_paired, initial_paired.
Qed.

(** C9. Setup while a watcher exists does nothing; cleanup without a
    watcher does nothing, and a second cleanup does nothing more than the
    first; cleanup with a watcher closes its handle and forgets it.  In
    every state the module can reach, the open handles are exactly the
    watcher the module holds, so none is open after a cleanup. *)
Theorem watcher_lifecycle :
  (forall st h w,
     watcher st = Some h -> step st (call_setupFileWatcher w) = (st, [])) /\
  (forall st, watcher st = None -> step st call_cleanup = (st, [])) /\
  (forall st,
     step (step st call_cleanup).1 call_cleanup =
     ((step st call_cleanup).1, [])) /\
  (forall st h,
     watcher st = Some h ->
     watcher (step st call_cleanup).1 = None /\
     h ∉ open_handles (step st call_cleanup).1) /\
  (forall evs, handles_tracked (run initial evs).1) /\
  (forall evs,
     watcher (run initial (evs ++ [call_cleanup])).1 = None /\
     open_handles (run initial (evs ++ [call_cleanup])).1 = ∅).
Proof.
  assert (forall evs, handles_tracked (run (initial (N := N)) evs).1)
    as Htracked by (intros; by apply run_handles_tracked).
  assert (forall st, watcher (step st call_cleanup).1 = None) as Hnone.
  { intros st. destruct (watcher st) as [h|] eqn:Hw.
    - by rewrite (step_cleanup_watching st h).
    - by rewrite step_cleanup_unstarted. }
  split; [apply step_setup_watching|].
  split; [apply step_cleanup_unstarted|].
  split; [intros; by apply step_cleanup_unstarted|].
  split.
  { intros st h Hw. split; [done|].
    rewrite (step_cleanup_watching st h) by done. cbn.
    apply not_elem_of_difference. right. by apply elem_of_singleton. }
  split; [done|].
  intros evs. specialize (Htracked (evs ++ [call_cleanup])).
  rewrite run_app in Htracked |- *.
  destruct (run initial evs) as [st out]. cbn [run] in *.
  specialize (Hnone st).
  destruct (step st call_cleanup) as [st1 out1]. cbn in *.
  unfold handles_tracked in Htracked. by rewrite Hnone in Htracked.
Qed.

End CallbackFacts.

(** ** The endpoint on a sample session *)

Section Sessions.

Import Binary64 Samples.




Lemma request_reload_failure_initial :
  fails_with (N := float) (ReadFailed enoent) enoent /\
  run (initial (N := float))
    [http_get 1 1000; read_done 0 (ReadFailed enoent) 1010] =
  (initial, [next 1 enoent]).
Proof.
  assert (fails_with (N := float) (ReadFailed enoent) enoent) as Hf
    by (left; reflexivity).
  split; [exact Hf|].
  apply (request_reload_failure initial 1 _ _ 1000 1010 Hf). reflexivity.
Defined.

Lemma cache_paired_session :
  paired loaded /\ paired (step loaded (fs_event 0 "change")).1.
Proof.
  destruct (cache_paired (N := float)) as (_ & Hstep & Hrun).
  split; [apply Hrun | apply Hstep, Hrun].
Defined.

Lemma watcher_lifecycle_watching :
  watcher watching = Some 0%nat /\
  step watching (call_setupFileWatcher WatchStarted) = (watching, []) /\
  watcher (step watching call_cleanup).1 = None /\
  0%nat ∉ open_handles (step watching call_cleanup).1.
Proof.
  destruct (watcher_lifecycle (N := float)) as (Hsetup & _ & _ & Hclose & _).
  assert (watcher watching = Some 0%nat) as Hw by reflexivity.
  split; [exact Hw|]. split; [by apply (Hsetup watching 0%nat)|].
  by apply Hclose.
Defined.

(** The cache over a session: the first request is answered with
    [cached: false]; the next one with [cached: true] and an age that is
    not negative; after a change event and the refresh it starts, the
    summary is the one of the new store. *)
Example session_cache :
  (run initial session).2 =
    [ console_log "File watcher initialized for stats caching";
      res_json 1 {| stats := calculateStats (JsArray store);
                    cached := false; cacheAge := None |} ] /\
  (step loaded (http_get 2 1500)).2 =
    [ res_json 2 {| stats := calculateStats (JsArray store);
                    cached := true; cacheAge := Some 490 |} ] /\
  (run loaded [ fs_event 0 "change";
                read_done 0 (Parsed (JsArray store6)) 2000;
                http_get 3 2100 ]).2 =
    [ console_log "Data file changed, invalidating stats cache...";
      console_log "Stats cache refreshed";
      res_json 3 {| stats := calculateStats (JsArray store6);
                    cached := true; cacheAge := Some 100 |} ] /\
  total (calculateStats (JsArray store6)) = 6%nat.
Proof. repeat split; reflexivity. Qed.

End Sessions.

(** * Further properties

    ** The category breakdown *)

Section BreakdownFacts.

Context {N : Type} `{JsNumber N}.

Implicit Types (items : list (Item N)) (m : gmap string (Bucket N)).

Lemma counted_insert_fresh m k b :
  m !! k = None -> counted (<[k:=b]> m) = (count b + counted m)%nat.
Proof.
  intros Hk. unfold counted. rewrite map_fold_insert_L; [done| |done].
  intros. lia.
Qed.

Lemma counted_delete m k b :
  m !! k = Some b -> counted m = (count b + counted (delete k m))%nat.
Proof.
  intros Hk. unfold counted. rewrite (map_fold_delete_L _ _ k b); [done| |done].
  intros. lia.
Qed.

Lemma counted_insert_over m k b b' :
  m !! k = Some b ->
  (counted (<[k:=b']> m) + count b = count b' + counted m)%nat.
Proof.
  intros Hk. rewrite <-(insert_delete_eq m k b').
  rewrite counted_insert_fresh by apply lookup_delete_eq.
  rewrite (counted_delete m k b Hk). lia.
Qed.

Lemma bucketed_snoc items i :
  bucketed (items ++ [i]) =
  if inherited (category i) then bucketed items else bucketed items ++ [i].
Proof.
  unfold bucketed. rewrite filter_app, filter_cons, filter_nil.
  destruct (inherited (category i)); case_decide; try done.
  by rewrite app_nil_r.
Qed.

Lemma categories_own_not_inherited items k b :
  fold_left categories_step items ∅ !! k = Some b -> inherited k = false.
Proof. rewrite categories_lookup. by destruct (inherited k). Qed.

Lemma counted_categories items :
  counted (fold_left categories_step items ∅) = length (bucketed items).
Proof.
  induction items as [|i items IH] using rev_ind; [done|].
  rewrite fold_left_snoc, bucketed_snoc.
  set (acc := fold_left categories_step items ∅) in *.
  unfold categories_step.
  destruct (acc !! category i) as [b|] eqn:Hb.
  - rewrite (categories_own_not_inherited items _ b Hb).
    pose proof (counted_insert_over acc (category i) b
      {| count := S (count b);
         bucketValue := add (bucketValue b) (price i) |} Hb) as Hc.
    cbn [count] in Hc. rewrite length_app. simpl. lia.
  - destruct (inherited (category i)); [done|].
    rewrite counted_insert_fresh by done. rewrite length_app. simpl. lia.
Qed.

(** X1. The counts of the breakdown add up to the number of items whose
    category is not a name inherited from [Object.prototype]; when no item
    has such a category they add up to [total]. *)
Theorem counts_add_up items :
  counted (categories (calculateStats (JsArray items))) =
    length (bucketed items) /\
  (bucketed items = items ->
   counted (categories (calculateStats (JsArray items))) =
     total (calculateStats (JsArray items))).
Proof.
  rewrite calculateStats_categories, calculateStats_total, counted_categories.
  split; [done|]. by intros ->.
Qed.

End BreakdownFacts.

(** ** The price range in exact arithmetic *)

Section ExactSummaryFacts.

Import Exact.

Implicit Types (items : list (Item Qc)).

Lemma min2_le_l (a b : Qc) : Qcle (min2 a b) a.
Proof.
  unfold min2. destruct (Qclt_le_dec b a);
    [by apply Qclt_le_weak | apply Qcle_refl].
Qed.

Lemma min2_le_r (a b : Qc) : Qcle (min2 a b) b.
Proof. unfold min2. destruct (Qclt_le_dec b a); [apply Qcle_refl | done]. Qed.

Lemma max2_ge_l (a b : Qc) : Qcle a (max2 a b).
Proof.
  unfold max2. destruct (Qclt_le_dec a b);
    [by apply Qclt_le_weak | apply Qcle_refl].
Qed.

Lemma max2_ge_r (a b : Qc) : Qcle b (max2 a b).
Proof. unfold max2. destruct (Qclt_le_dec a b); [apply Qcle_refl | done]. Qed.

Lemma fold_min2_least (xs : list Qc) (a : Qc) :
  fold_left min2 xs a ∈ a :: xs /\
  forall y, y ∈ a :: xs -> Qcle (fold_left min2 xs a) y.
Proof.
  revert a. induction xs as [|x xs IH]; intros a; simpl.
  - split; [left|]. intros y ->%list_elem_of_singleton. apply Qcle_refl.
  - destruct (IH (min2 a x)) as [Hin Hle]. split.
    + apply elem_of_cons in Hin as [Heq|Hin]; [|by do 2 right].
      rewrite Heq. unfold min2. destruct (Qclt_le_dec x a); [right|]; left.
    + intros y Hy.
      assert (Qcle (fold_left min2 xs (min2 a x)) (min2 a x)) as Hm
        by (apply Hle; left).
      apply elem_of_cons in Hy as [->|Hy].
      { eapply Qcle_trans; [exact Hm | apply min2_le_l]. }
      apply elem_of_cons in Hy as [->|Hy].
      { eapply Qcle_trans; [exact Hm | apply min2_le_r]. }
      apply Hle. by right.
Qed.

Lemma fold_max2_greatest (xs : list Qc) (a : Qc) :
  fold_left max2 xs a ∈ a :: xs /\
  forall y, y ∈ a :: xs -> Qcle y (fold_left max2 xs a).
Proof.
  revert a. induction xs as [|x xs IH]; intros a; simpl.
  - split; [left|]. intros y ->%list_elem_of_singleton. apply Qcle_refl.
  - destruct (IH (max2 a x)) as [Hin Hle]. split.
    + apply elem_of_cons in Hin as [Heq|Hin]; [|by do 2 right].
      rewrite Heq. unfold max2. destruct (Qclt_le_dec a x); [right|]; left.
    + intros y Hy.
      assert (Qcle (max2 a x) (fold_left max2 xs (max2 a x))) as Hm
        by (apply Hle; left).
      apply elem_of_cons in Hy as [->|Hy].
      { eapply Qcle_trans; [apply max2_ge_l | exact Hm]. }
      apply elem_of_cons in Hy as [->|Hy].
      { eapply Qcle_trans; [apply max2_ge_r | exact Hm]. }
      apply Hle. by right.
Qed.

Lemma priceRange_extremes items :
  items <> [] ->
  let r := priceRange (calculateStats (JsArray items)) in
  min r ∈ map price items /\
  max r ∈ map price items /\
  (forall i, i ∈ items -> Qcle (min r) (price i) /\ Qcle (price i) (max r)) /\
  Qcle (min r) (max r).
Proof.
  intros Hne. destruct items as [|i0 items]; [done|].
  cbn zeta. unfold calculateStats. cbn [priceRange min max].
  cbn [Math_min Math_max number map min_list max_list].
  destruct (fold_min2_least (map price items) (price i0)) as [Hmin Hleast].
  destruct (fold_max2_greatest (map price items) (price i0)) as [Hmax Hgreatest].
  split; [done|]. split; [done|]. split.
  - intros i Hi.
    assert (price i ∈ price i0 :: map price items) as Hp
      by (change (price i ∈ map price (i0 :: items));
          by apply list_elem_of_fmap_2).
    split; [by apply Hleast | by apply Hgreatest].
  - eapply Qcle_trans; [apply Hleast | apply Hgreatest]; left.
Qed.

(** X3. For a non-empty sequence of items, in exact arithmetic,
    [priceRange.min] and [priceRange.max] are prices of items of the
    sequence, every price lies between them, and so [min <= max]. *)
Theorem priceRange_bounds items :
  items <> [] ->
  let r := priceRange (calculateStats (JsArray items)) in
  min r ∈ map price items /\
  max r ∈ map price items /\
  (forall i, i ∈ items -> Qcle (min r) (price i) /\ Qcle (price i) (max r)) /\
  Qcle (min r) (max r).
Proof. apply priceRange_extremes. Qed.

End ExactSummaryFacts.

(** ** The life of a cache entry *)

Section CacheFacts.

Context {N : Type} `{JsNumber N}.

Implicit Types (st : State N) (ev : Event N) (evs : list (Event N)).

Ltac run_step :=
  unfold step, run_callback, router_get, setupFileWatcher, cleanup,
    watch_listener, loadStats_callback, loadStats, resolved, rejected,
    settle_read, fs_readFile, fs_watch, close, assign_statsCache,
    assign_cacheTimestamp, assign_watcher, modify, emit, read, ret,
    mbind, callback_bind, bind.

(** What each event does to the two cache variables. *)
Lemma step_cache st ev :
  (exists h, ev = fs_event h "change" /\ h ∈ open_handles st /\
     statsCache (step st ev).1 = None /\
     cacheTimestamp (step st ev).1 = None) \/
  (exists i a items now,
     ev = read_done i (Parsed items) now /\ reading st !! i = Some a /\
     statsCache (step st ev).1 = Some (calculateStats items) /\
     cacheTimestamp (step st ev).1 = Some now) \/
  (statsCache (step st ev).1 = statsCache st /\
   cacheTimestamp (step st ev).1 = cacheTimestamp st).
Proof.
  destruct ev as [w| |h ty|req now|i outcome now].
  - right; right. destruct (watcher st) as [h|] eqn:Hw.
    + by rewrite (step_setup_watching st h).
    + destruct w; run_step; by rewrite Hw.
  - right; right. destruct (watcher st) as [h|] eqn:Hw.
    + by rewrite (step_cleanup_watching st h).
    + by rewrite step_cleanup_unstarted.
  - destruct (decide (h ∈ open_handles st)) as [Hh|Hh].
    + destruct (decide (ty = "change")) as [->|Hty].
      * left. exists h. by rewrite step_change.
      * right; right. run_step. rewrite decide_True by done.
        by rewrite (decide_False (P := ty = "change")).
    + right; right. run_step. by rewrite decide_False.
  - right; right. destruct (statsCache st) eqn:Hc.
    + by erewrite step_get_cached.
    + by rewrite step_get_absent.
  - destruct (reading st !! i) as [a|] eqn:Hi.
    + destruct outcome as [err|err|items].
      * right; right. by erewrite step_read_failed; [|done|by left].
      * right; right. by erewrite step_read_failed; [|done|by right].
      * right; left. exists i, a, items, now.
        by rewrite (step_read_parsed st i a).
    + right; right. run_step. by rewrite Hi.
Qed.

(** X4. A cache entry is removed only by a [change] event of an open
    watcher, and one is created only by a read of the store that comes back
    parsed: no other callback, and no passing of time, touches it. *)
Theorem cache_entry_transitions st ev :
  (is_Some (statsCache st) -> statsCache (step st ev).1 = None ->
   exists h, ev = fs_event h "change" /\ h ∈ open_handles st) /\
  (statsCache st = None -> is_Some (statsCache (step st ev).1) ->
   exists i a items now,
     ev = read_done i (Parsed items) now /\ reading st !! i = Some a /\
     statsCache (step st ev).1 = Some (calculateStats items)).
Proof.
  destruct (step_cache st ev)
    as [(h & -> & Hh & Hc & _)|[(i & a & items & now & -> & Hi & Hc & _)|[Hc _]]].
  - split; [by eauto|]. rewrite Hc. by intros _ [? ?].
  - split; [by rewrite Hc|]. intros _ _. by exists i, a, items, now.
  - rewrite Hc. split.
    + intros [s Hs] Hn. congruence.
    + intros Hn [s Hs]. congruence.
Qed.

(** *** No expiry *)

Lemma step_settled s t st ev :
  settled s t st -> ~ starts_watcher ev ->
  settled s t (step st ev).1 /\
  answers (step st ev).2 = cached_answers s t [ev].
Proof.
  intros (Hs & Ht & Ho & Hr) Hev.
  destruct ev as [w| |h ty|req now|i outcome now].
  - destruct (watcher st) as [h|] eqn:Hw.
    + by rewrite (step_setup_watching st h).
    + destruct w as [|err]; [by destruct Hev|].
      run_step. by rewrite Hw.
  - destruct (watcher st) as [h|] eqn:Hw.
    + rewrite (step_cleanup_watching st h) by done. cbn.
      split; [|done]. unfold settled. cbn. by rewrite Ho, empty_difference_L.
    + by rewrite step_cleanup_unstarted.
  - run_step. by rewrite decide_False by (rewrite Ho; apply not_elem_of_empty).
  - rewrite (step_get_cached st req now s) by done. by rewrite Ht.
  - run_step. by rewrite Hr.
Qed.

Lemma requested_app evs evs' :
  requested (evs ++ evs') = requested evs ++ requested evs'.
Proof. apply omap_app. Qed.

Lemma answered_app (out out' : list (Effect N)) :
  answered (out ++ out') = answered out ++ answered out'.
Proof. apply omap_app. Qed.

(** X5. The cache has no expiry. Once an entry is there and no watcher is
    open and no read is in flight (after [router._cleanup], or when
    [fs.watch] failed), then as long as no watcher is started the entry
    stays as it is whatever happens, and the answers given are exactly one
    for each request that comes in, in order, each with that same summary,
    [cached: true] and the age of the entry: no request is answered with
    an error, with another summary or twice, and none is left waiting. *)
Theorem cache_never_expires s st evs :
  statsCache st = Some s -> open_handles st = ∅ -> reading st = [] ->
  Forall (fun ev => ~ starts_watcher ev) evs ->
  statsCache (run st evs).1 = Some s /\
  cacheTimestamp (run st evs).1 = cacheTimestamp st /\
  reading (run st evs).1 = [] /\
  answers (run st evs).2 = cached_answers s (cacheTimestamp st) evs.
Proof.
  intros Hs Ho Hr Hall.
  assert (settled s (cacheTimestamp st) st) as Hset by done.
  clear Hs Ho Hr. revert Hset. generalize (cacheTimestamp st) as t.
  intros t. revert st.
  induction Hall as [|ev evs Hev _ IH]; intros st Hset.
  - by destruct Hset as (? & ? & ? & ?).
  - destruct (step_settled s t st ev Hset Hev) as (Hset1 & Hans1).
    cbn [run]. destruct (step st ev) as [st1 out1]. cbn [fst snd] in *.
    destruct (IH st1 Hset1) as (Hc & Ht & Hr & Hans).
    destruct (run st1 evs) as [st2 out2]. cbn [fst snd] in *.
    split; [done|]. split; [done|]. split; [done|].
    unfold answers, cached_answers in *.
    change (ev :: evs) with ([ev] ++ evs).
    by rewrite !omap_app, Hans1, Hans.
Qed.

(** *** Requests and answers *)

Lemma awaiting_delete (l : list Awaiter) i a :
  l !! i = Some a ->
  omap (fun a => match a with FromRequest req => Some req | _ => None end) l ≡ₚ
  match a with FromRequest req => [req] | FromWatcher => [] end ++
  omap (fun a => match a with FromRequest req => Some req | _ => None end)
    (delete i l).
Proof.
  revert i. induction l as [|b l IH]; intros [|i] Hi; [done|done| |].
  - injection Hi as ->. by destruct a.
  - specialize (IH i Hi). cbn [delete list_delete].
    destruct b as [r|]; cbn [omap list_omap]; [|exact IH].
    rewrite IH. destruct a; [apply Permutation_swap | done].
Qed.

Lemma awaiting_snoc st a :
  awaiting (set_reading (reading st ++ [a]) st) =
  awaiting st ++ match a with FromRequest req => [req] | FromWatcher => [] end.
Proof. unfold awaiting. cbn. rewrite omap_app. by destruct a. Qed.

Lemma step_accounting st ev :
  answered (step st ev).2 ++ awaiting (step st ev).1 ≡ₚ
  awaiting st ++ requested [ev].
Proof.
  destruct ev as [w| |h ty|req now|i outcome now].
  - destruct (watcher st) as [h|] eqn:Hw.
    + rewrite (step_setup_watching st h) by done. cbn. by rewrite app_nil_r.
    + destruct w; run_step; rewrite Hw; cbn; by rewrite app_nil_r.
  - destruct (watcher st) as [h|] eqn:Hw.
    + rewrite (step_cleanup_watching st h) by done. cbn. by rewrite app_nil_r.
    + rewrite step_cleanup_unstarted by done. cbn. by rewrite app_nil_r.
  - run_step. repeat case_decide; cbn; rewrite ?app_nil_r; try done.
    unfold awaiting. cbn. rewrite omap_app. cbn. by rewrite app_nil_r.
  - destruct (statsCache st) eqn:Hc.
    + erewrite step_get_cached by done. cbn. apply Permutation_cons_append.
    + rewrite step_get_absent by done. cbn [fst snd].
      by rewrite (awaiting_snoc st (FromRequest req)).
  - destruct (reading st !! i) as [a|] eqn:Hi.
    + assert (awaiting st ≡ₚ
              match a with FromRequest req => [req] | FromWatcher => [] end ++
              awaiting (set_reading (delete i (reading st)) st)) as Hdel
        by (by apply awaiting_delete).
      cbn [requested omap]. rewrite app_nil_r, Hdel.
      destruct outcome as [err|err|items].
      * erewrite step_read_failed; [|done|by left]. by destruct a.
      * erewrite step_read_failed; [|done|by right]. by destruct a.
      * rewrite (step_read_parsed st i a) by done. by destruct a.
    + run_step. rewrite Hi. cbn. by rewrite app_nil_r.
Qed.

Lemma run_accounting st evs :
  answered (run st evs).2 ++ awaiting (run st evs).1 ≡ₚ
  awaiting st ++ requested evs.
Proof.
  revert st. induction evs as [|ev evs IH]; intros st.
  - cbn. by rewrite app_nil_r.
  - cbn [run]. pose proof (step_accounting st ev) as Hstep.
    destruct (step st ev) as [st1 out1]. specialize (IH st1).
    destruct (run st1 evs) as [st2 out2]. cbn [fst snd] in *.
    change (ev :: evs) with ([ev] ++ evs).
    rewrite requested_app, answered_app, app_assoc, <-Hstep, <-!app_assoc.
    by rewrite IH.
Qed.

(** X6. No request is dropped and none is answered twice: at any time the
    requests answered so far (with a body or with an error) together with
    those whose read is still in flight are exactly the requests
    received. *)
Theorem requests_accounted evs :
  answered (run initial evs).2 ++ awaiting (run initial evs).1 ≡ₚ
  requested evs.
Proof. by rewrite run_accounting. Qed.

(** *** Where a summary comes from *)

Lemma step_provenance st ev :
  (forall s, statsCache (step st ev).1 = Some s ->
     statsCache st = Some s /\
     cacheTimestamp (step st ev).1 = cacheTimestamp st \/
     exists i items now,
       ev = read_done i (Parsed items) now /\ s = calculateStats items /\
       cacheTimestamp (step st ev).1 = Some now) /\
  (forall req body, res_json req body ∈ (step st ev).2 ->
     statsCache st = Some (stats body) \/
     exists i items now,
       ev = read_done i (Parsed items) now /\
       stats body = calculateStats items).
Proof.
  split.
  - intros s Hs.
    destruct (step_cache st ev)
      as [(h & _ & _ & Hc & _)|[(i & a & items & now & -> & _ & Hc & Ht)|[Hc Ht]]].
    + congruence.
    + right. exists i, items, now. split; [done|]. split; [congruence|done].
    + left. split; [congruence|done].
  - intros req body Hin.
    destruct ev as [w| |h ty|req' now|i outcome now].
    + destruct (watcher st) as [h|] eqn:Hw.
      * rewrite (step_setup_watching st h) in Hin by done.
        by apply elem_of_nil in Hin.
      * destruct w; revert Hin; run_step; rewrite Hw; cbn;
          by intros ?%list_elem_of_singleton.
    + revert Hin. run_step. destruct (watcher st); cbn;
        by intros ?%elem_of_nil.
    + revert Hin. run_step. repeat case_decide; cbn;
        [by intros ?%list_elem_of_singleton | by intros ?%elem_of_nil..].
    + destruct (statsCache st) eqn:Hc.
      * erewrite step_get_cached in Hin by done.
        apply list_elem_of_singleton in Hin as [= _ ->]. by left.
      * rewrite step_get_absent in Hin by done. by apply elem_of_nil in Hin.
    + destruct (reading st !! i) as [a|] eqn:Hi.
      * destruct outcome as [err|err|items].
        -- erewrite step_read_failed in Hin; [|done|by left].
           destruct a; by apply list_elem_of_singleton in Hin.
        -- erewrite step_read_failed in Hin; [|done|by right].
           destruct a; by apply list_elem_of_singleton in Hin.
        -- rewrite (step_read_parsed st i a) in Hin by done.
           destruct a; apply list_elem_of_singleton in Hin; [|done].
           injection Hin as _ ->. right. by exists i, items, now.
      * revert Hin. run_step. rewrite Hi. by intros ?%elem_of_nil.
Qed.

Lemma run_provenance st evs :
  (forall s, statsCache (run st evs).1 = Some s ->
     statsCache st = Some s \/
     exists i items now,
       read_done i (Parsed items) now ∈ evs /\ s = calculateStats items) /\
  (forall req body, res_json req body ∈ (run st evs).2 ->
     statsCache st = Some (stats body) \/
     exists i items now,
       read_done i (Parsed items) now ∈ evs /\
       stats body = calculateStats items).
Proof.
  revert st. induction evs as [|ev evs IH]; intros st.
  - cbn. split; [by left|]. by intros ?? ?%elem_of_nil.
  - cbn [run]. destruct (step_provenance st ev) as [Hc1 Ho1].
    destruct (step st ev) as [st1 out1]. destruct (IH st1) as [Hc Ho].
    destruct (run st1 evs) as [st2 out2]. cbn [fst snd] in *.
    assert (forall s, statsCache st1 = Some s ->
              statsCache st = Some s \/
              exists i items now,
                read_done i (Parsed items) now ∈ ev :: evs /\
                s = calculateStats items) as Hfirst.
    { intros s [[? _]|(i & items & now & -> & -> & _)]%Hc1; [by left|].
      right. exists i, items, now. split; [left|done]. }
    split.
    + intros s [Hs|(i & items & now & Hin & ->)]%Hc; [by apply Hfirst|].
      right. exists i, items, now. split; [by right|done].
    + intros req body [Hin|Hin]%elem_of_app.
      * apply Ho1 in Hin as [?|(i & items & now & -> & ?)]; [by left|].
        right. exists i, items, now. split; [left|done].
      * apply Ho in Hin as [Hs|(i & items & now & Hin & ?)].
        -- by apply Hfirst.
        -- right. exists i, items, now. split; [by right|done].
Qed.

(** X7. Nothing is made up: whatever the events since the module loaded,
    the summary in the cache and the summary of every response is
    [calculateStats] of what some read of the store returned. *)
Theorem summaries_come_from_reads evs :
  (forall s, statsCache (run initial evs).1 = Some s ->
     exists i items now,
       read_done i (Parsed items) now ∈ evs /\ s = calculateStats items) /\
  (forall req body, res_json req body ∈ (run initial evs).2 ->
     exists i items now,
       read_done i (Parsed items) now ∈ evs /\
       stats body = calculateStats items).
Proof.
  destruct (run_provenance initial evs) as [Hc Ho]. split.
  - by intros s [?|?]%Hc.
  - by intros req body [?|?]%Ho.
Qed.

End CacheFacts.

(** ** The order of the store *)

Section OrderFacts.

Context {N : Type} `{JsNumber N}.

Implicit Types (items : list (Item N)) (k : string).

Lemma in_category_perm k items items' :
  items ≡ₚ items' -> in_category k items ≡ₚ in_category k items'.
Proof. intros Hp. unfold in_category. by rewrite Hp. Qed.

(** X8. Reordering the store changes neither [total] nor the keys of the
    breakdown nor the [count] of any bucket, whatever the arithmetic of the
    numbers. *)
Theorem counts_order_independent items items' :
  items ≡ₚ items' ->
  total (calculateStats (JsArray items)) =
    total (calculateStats (JsArray items')) /\
  forall k,
    count <$> categories (calculateStats (JsArray items)) !! k =
    count <$> categories (calculateStats (JsArray items')) !! k.
Proof.
  intros Hp. rewrite !calculateStats_total, !calculateStats_categories.
  split; [by apply Permutation_length|].
  intros k. rewrite !categories_lookup.
  destruct (inherited k); [done|].
  pose proof (in_category_perm k _ _ Hp) as Hk.
  destruct (in_category k items) as [|i l] eqn:Hl.
  - apply Permutation_nil in Hk. by rewrite Hk.
  - destruct (in_category k items') as [|i' l'] eqn:Hl'.
    + symmetry in Hk. by apply Permutation_nil_cons in Hk.
    + cbn. f_equal. by apply Permutation_length in Hk.
Qed.

End OrderFacts.

(** ** The summary in binary64 *)

Section Binary64SummaryFacts.

Import Binary64.

Implicit Types (items : list (Item float)) (key : string).

(** X2. In binary64, for prices that are finite and not below zero and
    add up to [2 ^ (k - 1)] at most, every bucket of the breakdown holds
    the number [n] of the items of its category and, within the tolerance
    [(n + 2) * 2 ^ (k - 54)], the exact sum of their prices. *)
Theorem bucket_values_within_tolerance items key (b : Bucket float) (k : Z) :
  Forall (fun i => not_below_zero (price i)) items ->
  1 <= k <= 44 ->
  Z.of_nat (length items) < 2 ^ 53 ->
  Qcle (exact_sum items) (Q2Qc (inject_Z (2 ^ (k - 1)))) ->
  categories (calculateStats (JsArray items)) !! key = Some b ->
  let l := in_category key items in
  count b = length l /\ l <> [] /\
  Qcle (Qcminus (exact_sum l) (tolerance (length l) k))
    (to_Qc (bucketValue b)) /\
  Qcle (to_Qc (bucketValue b))
    (Qcplus (exact_sum l) (tolerance (length l) k)).
Proof.
  intros Hall Hk Hlen Hsum Hb l.
  rewrite calculateStats_categories, categories_lookup in Hb.
  destruct (inherited key); [done|]. fold l in Hb.
  assert (l <> [] /\ b = bucket_of l) as [Hne ->]
    by (destruct l; [done|]; by injection Hb as <-).
  split; [done|]. split; [done|]. cbn [bucket_of bucketValue].
  pose proof (exact_sum_bound items k ltac:(lia) Hsum) as HU.
  assert (Forall (fun i => not_below_zero (price i)) l) as Hall'.
  { apply Forall_forall. intros i [_ Hi]%list_elem_of_filter.
    by eapply Forall_forall in Hall. }
  pose proof (price_units_filter (fun i => category i = key) items Hall) as Hle.
  fold (in_category key items) in Hle. fold l in Hle.
  pose proof (length_filter (fun i => category i = key) items) as Hlen'.
  fold (in_category key items) in Hlen'. fold l in Hlen'.
  destruct (sum_prices_units l k Hall' ltac:(lia)) as [_ Herr].
  { apply price_units_room; [lia|lia|lia]. }
  rewrite to_Qc_units, exact_sum_units. by apply units_within.
Qed.


(** X10. In binary64, for prices that are finite and not below zero and
    add up to [2 ^ (k - 1)] at most, the exact mean of the prices lies in
    [priceRange], and [averagePrice] is the quotient [c / 100] of an
    integer [c] of hundredths that lies within half a hundredth and the
    tolerance [4 * 2 ^ (k - 54)] of that mean: the average is within the
    range of the prices up to that rounding. *)
Theorem averagePrice_within_range items (k : Z) :
  items <> [] ->
  Forall (fun i => not_below_zero (price i)) items ->
  1 <= k <= 44 ->
  Z.of_nat (length items) < 2 ^ 53 ->
  Qcle (exact_sum items) (Q2Qc (inject_Z (2 ^ (k - 1)))) ->
  let s := calculateStats (JsArray items) in
  Qcle (to_Qc (min (priceRange s))) (exact_mean items) /\
  Qcle (exact_mean items) (to_Qc (max (priceRange s))) /\
  exists c : Z,
    averagePrice s = (of_Z c / 100)%float /\
    Qcle (Qcminus (Qcminus (exact_mean items) Exact.half_cent)
            (tolerance 2 k))
      (Exact.cents c) /\
    Qcle (Exact.cents c)
      (Qcplus (Qcplus (exact_mean items) Exact.half_cent) (tolerance 2 k)).
Proof.
  intros Hne Hall Hk Hlen Hsum s.
  pose proof (exact_sum_bound items k ltac:(lia) Hsum) as HU.
  assert (0 < length items)%nat as Hn by (destruct items; [done|cbn; lia]).
  assert (Z.of_nat (length items) = Z.pos (Pos.of_nat (length items))) as Hpos
    by (rewrite <-(Nat2Pos.id (length items)) at 1 by lia;
        by rewrite positive_nat_Z).
  assert (averagePrice s =
            round2 (sum_prices items / of_nat (length items))%float /\
          priceRange s = {| min := min_list (map price items);
                            max := max_list (map price items) |}) as [Havg ->]
    by (subst s; by destruct items).
  cbn [min max]. rewrite exact_mean_units by done.
  destruct (price_range_units items Hne Hall) as (_ & _ & Hlo & Hhi).
  rewrite Hpos in Hlo, Hhi. rewrite !to_Qc_units.
  destruct (mean_between _ _ _ _ Hlo Hhi) as [Hmin Hmax].
  split; [done|]. split; [done|].
  destruct (round2_average_units items k Hne Hall Hk HU Hlen) as (c & Hc & Herr).
  exists c. split; [by rewrite Havg|].
  rewrite Hpos in Herr. by apply mean_cents_within.
Qed.

End Binary64SummaryFacts.

(** ** The items route: pages *)

Section PageFacts.

Import ItemsRoute.

Context {N : Type} `{JsNegative N} (toLowerCase trim : string -> string).

Local Abbreviation list_items := (list_items toLowerCase trim).
Local Abbreviation search := (search toLowerCase trim).

Implicit Types (arr : list (Item N)) (q : option string) (n p : Z).

(** Up to [2 ^ 53] the integers are binary64 numbers; beyond, the nearest
    binary64 number is not below [2 ^ 53]. *)
Lemma nearest_safe (z : Z) : - 2 ^ 53 <= z <= 2 ^ 53 -> nearest z = Int z.
Proof.
  intros Hz. unfold nearest. cbn zeta.
  by rewrite (proj2 (Z.leb_le (Z.abs z) (2 ^ 53))) by lia.
Qed.

Lemma nearest_large (z : Z) :
  2 ^ 53 <= z ->
  nearest z = Infinity false \/ exists z', nearest z = Int z' /\ 2 ^ 53 <= z'.
Proof.
  intros Hz. destruct (decide (z <= 2 ^ 53)) as [Hle|Hgt].
  { right. exists z. split; [apply nearest_safe; lia|done]. }
  unfold nearest. cbn zeta.
  rewrite (proj2 (Z.leb_gt (Z.abs z) (2 ^ 53))) by lia.
  rewrite (Z.abs_eq z) by lia.
  rewrite (proj2 (Z.ltb_ge z 0)) by lia.
  set (shift := Z.log2 z - 52). set (q := z / 2 ^ shift).
  set (q' := if _ : bool then q else q + 1).
  destruct (2 ^ 1024 <=? q' * 2 ^ shift); [by left|]. right.
  eexists. split; [done|].
  assert (53 <= Z.log2 z) as Hlog
    by (change 53 with (Z.log2 (2 ^ 53)); apply Z.log2_le_mono; lia).
  assert (0 < 2 ^ shift) as Hpow by (apply Z.pow_pos_nonneg; lia).
  assert (2 ^ 52 * 2 ^ shift <= z) as Hlow.
  { rewrite <-Z.pow_add_r by lia. replace (52 + shift) with (Z.log2 z) by lia.
    apply Z.log2_spec. lia. }
  assert (2 ^ 52 <= q) as Hq by (apply Z.div_le_lower_bound; lia).
  assert (q <= q') as Hq' by (subst q'; case_match; lia).
  assert (2 ^ 53 <= 2 ^ 52 * 2 ^ shift).
  { rewrite <-Z.pow_add_r by lia. apply Z.pow_le_mono_r; lia. }
  rewrite Z.sgn_pos by lia. nia.
Qed.

Lemma search_length q arr : (length (search q arr) <= length arr)%nat.
Proof.
  unfold ItemsRoute.search. destruct q as [s|]; [|done].
  case_decide; [done|]. apply length_filter.
Qed.

Lemma slice_window {A} (l : list A) (s n : Z) :
  0 <= s -> 0 <= n ->
  slice l (Int s) (Int (s + n)) = take (Z.to_nat n) (drop (Z.to_nat s) l).
Proof.
  intros Hs Hn. unfold slice, relative_index.
  rewrite (proj2 (Z.ltb_ge s 0)), (proj2 (Z.ltb_ge (s + n) 0)) by lia.
  destruct (decide (Z.of_nat (length l) <= s)) as [Hge|Hlt].
  - rewrite !Z.min_r by lia. rewrite Nat2Z.id, Nat.sub_diag.
    rewrite (drop_ge l (Z.to_nat s)) by lia. by rewrite take_nil.
  - rewrite (Z.min_l s) by lia. set (d := drop (Z.to_nat s) l).
    assert (length d = (length l - Z.to_nat s)%nat) as Hd
      by (subst d; apply length_drop).
    destruct (decide (s + n <= Z.of_nat (length l))) as [Hin|Hout].
    + rewrite Z.min_l by lia. f_equal. lia.
    + rewrite Z.min_r by lia. rewrite Nat2Z.id.
      rewrite !take_ge; [done|lia..].
Qed.

(** A page whose indices are computed exactly. *)
Lemma indices_exact q n p :
  1 <= n -> 1 <= p -> p * n <= 2 ^ 53 ->
  startIndex (page_of q n p) = Int ((p - 1) * n) /\
  endIndex (page_of q n p) = Int ((p - 1) * n + n).
Proof.
  intros Hn Hp Hpn. unfold endIndex, startIndex, pageNum, limitNum. cbn.
  rewrite (nearest_safe (p - 1)) by nia. cbn.
  rewrite (nearest_safe ((p - 1) * n)) by nia. cbn.
  by rewrite (nearest_safe ((p - 1) * n + n)) by nia.
Qed.

Lemma list_items_window q n p arr :
  1 <= n -> 1 <= p -> p * n <= 2 ^ 53 ->
  data (list_items (page_of q n p) arr) =
  take (Z.to_nat n) (drop (Z.to_nat ((p - 1) * n)) (search q arr)).
Proof.
  intros Hn Hp Hpn. unfold ItemsRoute.list_items. cbn [data].
  destruct (indices_exact q n p Hn Hp Hpn) as [-> ->].
  apply slice_window; nia.
Qed.

(** A page whose indices are beyond [2 ^ 53], and so beyond the array. *)
Lemma indices_beyond q n p (len : nat) :
  1 <= n -> 1 <= p -> Z.of_nat len + n <= 2 ^ 53 -> 2 ^ 53 < p * n ->
  relative_index len (startIndex (page_of q n p)) = len /\
  less_than (endIndex (page_of q n p)) len = false.
Proof.
  intros Hn Hp Hlen Hpn.
  assert (forall a,
            a = Infinity false \/ (exists z, a = Int z /\ Z.of_nat len <= z) ->
            relative_index len a = len /\
            (plus a (Int n) = Infinity false \/
             exists z, plus a (Int n) = Int z /\ Z.of_nat len <= z)) as Hfar.
  { intros a [->|(z & -> & Hz)]; [by split; [|left]|].
    split.
    - unfold relative_index. rewrite (proj2 (Z.ltb_ge z 0)) by lia. lia.
    - cbn. destruct (decide (z + n <= 2 ^ 53)) as [Hle|Hgt].
      + right. exists (z + n). split; [apply nearest_safe; lia|lia].
      + destruct (nearest_large (z + n)) as [->|(z' & -> & Hz')]; [lia|by left|].
        right. exists z'. split; [done|lia]. }
  assert (startIndex (page_of q n p) = Infinity false \/
          exists z, startIndex (page_of q n p) = Int z /\ Z.of_nat len <= z)
    as Hstart.
  { unfold startIndex, pageNum, limitNum. cbn.
    assert (forall z, 0 <= z -> 2 ^ 53 - n < z * n ->
              nearest (z * n) = Infinity false \/
              exists z', nearest (z * n) = Int z' /\ Z.of_nat len <= z')
      as Hmul.
    { intros z Hz Hzn. destruct (decide (z * n <= 2 ^ 53)) as [Hle|Hgt].
      - right. exists (z * n). split; [apply nearest_safe; lia|lia].
      - destruct (nearest_large (z * n)) as [->|(z' & -> & Hz')];
          [lia|by left|]. right. exists z'. split; [done|lia]. }
    destruct (decide (p - 1 <= 2 ^ 53)) as [Hle|Hgt].
    - rewrite (nearest_safe (p - 1)) by lia. cbn. apply Hmul; lia.
    - destruct (nearest_large (p - 1)) as [->|(z' & -> & Hz')]; [lia| |].
      + left. cbn. rewrite (proj2 (Z.eqb_neq n 0)) by lia.
        by rewrite (proj2 (Z.ltb_ge n 0)) by lia.
      + cbn. apply Hmul; nia. }
  destruct (Hfar _ Hstart) as [Hrel Hend]. split; [done|].
  change (endIndex (page_of q n p))
    with (plus (startIndex (page_of q n p)) (Int n)).
  destruct Hend as [->|(z & -> & Hz)]; [done|]. cbn. lia.
Qed.

Lemma list_items_beyond q n p arr :
  1 <= n -> 1 <= p -> Z.of_nat (length arr) + n <= 2 ^ 53 ->
  2 ^ 53 < p * n ->
  data (list_items (page_of q n p) arr) = [] /\
  hasMore (pagination (list_items (page_of q n p) arr)) = false.
Proof.
  intros Hn Hp Hlen Hpn. pose proof (search_length q arr) as Hs.
  destruct (indices_beyond q n p (length (search q arr)) Hn Hp) as [Hrel Hmore];
    [lia|done|].
  unfold ItemsRoute.list_items. cbn [data pagination hasMore].
  change (query_q (page_of q n p)) with q.
  split; [|done]. unfold slice. rewrite Hrel.
  by rewrite drop_all, take_nil.
Qed.

Lemma pages_concat {A} (l : list A) (n k : nat) :
  (0 < n)%nat -> (length l <= k * n)%nat ->
  concat (map (fun i => take n (drop (i * n) l)) (seq 0 k)) = l.
Proof.
  intros Hn. revert l. induction k as [|k IH]; intros l Hl.
  - destruct l; [done|simpl in Hl; lia].
  - cbn [seq map concat]. rewrite <-seq_shift, map_map, drop_0.
    trans (take n l ++ drop n l); [|apply take_drop]. f_equal.
    trans (concat (map (fun i => take n (drop (i * n) (drop n l)))
                     (seq 0 k))); [|apply IH; rewrite length_drop; lia].
    f_equal. apply map_ext. intros i. by rewrite drop_drop.
Qed.

Lemma map_seqZ {A} (f : Z -> A) (m len : Z) :
  map f (seqZ m len) = map (fun i => f (Z.of_nat i + m)) (seq 0 (Z.to_nat len)).
Proof.
  unfold seqZ. induction (seq 0 (Z.to_nat len)) as [|i l IH]; [done|].
  cbn. by rewrite <-IH.
Qed.

Lemma ceil_div_pos (len : nat) n :
  1 <= n ->
  exists tp, ceil_div len (Int n) = Some tp /\
    0 <= tp /\ (tp - 1) * n < Z.of_nat len <= tp * n.
Proof.
  intros Hn. unfold ceil_div. rewrite (proj2 (Z.eqb_neq n 0)) by lia.
  eexists. split; [done|].
  pose proof (Z.div_mod (- Z.of_nat len) n ltac:(lia)) as Hdm.
  pose proof (Z.mod_pos_bound (- Z.of_nat len) n ltac:(lia)) as Hmod.
  nia.
Qed.

(** X11. With [limit >= 1], a limit that together with the length of the
    store stays within [2 ^ 53] (where binary64 holds every integer), the
    pages of a listing partition its results: [totalPages] is a number, no
    page holds more than [limit] items, whatever its number, and the
    pages 1, ..., [totalPages], one after the other, are exactly the
    results of the search, each once and in their order. *)
Theorem pages_partition q n arr :
  1 <= n -> Z.of_nat (length arr) + n <= 2 ^ 53 ->
  exists tp,
    totalPages (pagination (list_items (page_of q n 1) arr)) = Some tp /\
    0 <= tp /\
    (forall p, 1 <= p ->
       (length (data (list_items (page_of q n p) arr)) <= Z.to_nat n)%nat) /\
    concat (map (fun p => data (list_items (page_of q n p) arr))
              (seqZ 1 tp)) = search q arr.
Proof.
  intros Hn Hlen. pose proof (search_length q arr) as Hs.
  destruct (ceil_div_pos (length (search q arr)) n Hn)
    as (tp & Htp & Hpos & Hlo & Hhi).
  exists tp. split; [exact Htp|]. split; [done|]. split.
  - intros p Hp. destruct (decide (p * n <= 2 ^ 53)) as [Hin|Hout].
    + rewrite list_items_window by done. rewrite length_take. lia.
    + destruct (list_items_beyond q n p arr) as [-> _]; [done..|lia|].
      cbn. lia.
  - rewrite map_seqZ.
    trans (concat (map (fun i => take (Z.to_nat n)
                                   (drop (i * Z.to_nat n) (search q arr)))
                     (seq 0 (Z.to_nat tp)))); [|apply pages_concat; nia].
    f_equal. apply map_ext_in. intros i Hi%in_seq.
    rewrite list_items_window by nia. do 2 f_equal. nia.
Qed.

(** X12. With [page >= 1] and [limit >= 1], a limit that together with the
    length of the store stays within [2 ^ 53], the metadata of a page is
    consistent with it: [page] and [limit] are those asked for, [total] is
    the number of results of the search, [totalPages] is [total / limit]
    rounded up, [hasMore] holds exactly on the pages before the last, and
    a page holds no item exactly when it lies beyond the last page. *)
Theorem page_metadata q n p arr :
  1 <= n -> 1 <= p -> Z.of_nat (length arr) + n <= 2 ^ 53 ->
  let body := list_items (page_of q n p) arr in
  page (pagination body) = Some p /\
  limit (pagination body) = Some n /\
  total (pagination body) = length (search q arr) /\
  exists tp,
    totalPages (pagination body) = Some tp /\
    (tp - 1) * n < Z.of_nat (total (pagination body)) <= tp * n /\
    (hasMore (pagination body) = true <-> p < tp) /\
    (data body = [] <-> tp < p).
Proof.
  intros Hn Hp Hlen body. pose proof (search_length q arr) as Hs.
  destruct (ceil_div_pos (length (search q arr)) n Hn)
    as (tp & Htp & Hpos & Hlo & Hhi).
  split; [done|]. split; [done|]. split; [done|].
  exists tp. split; [exact Htp|]. split; [done|].
  destruct (decide (p * n <= 2 ^ 53)) as [Hin|Hout].
  - split.
    + subst body. unfold ItemsRoute.list_items. cbn [pagination hasMore].
      destruct (indices_exact q n p Hn Hp Hin) as [_ ->]. cbn.
      rewrite Z.ltb_lt. nia.
    + subst body. rewrite list_items_window by done.
      set (results := search q arr) in *.
      assert (length (take (Z.to_nat n) (drop (Z.to_nat ((p - 1) * n)) results))
              = Nat.min (Z.to_nat n)
                  (length results - Z.to_nat ((p - 1) * n))) as Hlen'
        by (by rewrite length_take, length_drop).
      split.
      * intros Hnil. rewrite Hnil in Hlen'. simpl in Hlen'. nia.
      * intros Hlt. apply length_zero_iff_nil. rewrite Hlen'. nia.
  - destruct (list_items_beyond q n p arr) as [Hdata Hmore]; [done..|lia|].
    fold body in Hdata, Hmore. rewrite Hdata, Hmore.
    split; (split; [|intros ?]); [done|nia|nia|done].
Qed.

(** X13. [page] and [limit] are not validated.  With [limit=0] every page
    (of a number up to [2 ^ 53]) is empty, [totalPages] is [null], and
    [hasMore] is true as soon as the search has a result.  With a [page]
    or a [limit] that is not a number the page is empty, that number and
    [hasMore] are [null] and [false].  With [page=1] and [limit=-k] the
    page holds all the results but the last [k].  With a [limit] written
    with so many digits that it parses to [Infinity], every page is empty,
    [limit] is [null] and [totalPages] is [0], whatever the search
    found. *)
Theorem unchecked_page_and_limit q arr :
  (forall p,
     - 2 ^ 53 < p <= 2 ^ 53 ->
     let body := list_items (page_of q 0 p) arr in
     data body = [] /\ totalPages (pagination body) = None /\
     (hasMore (pagination body) = true <-> search q arr <> [])) /\
  (forall a b,
     a = NaN \/ b = NaN ->
     let body :=
       list_items {| query_page := Some a; query_limit := Some b;
                     query_q := q |} arr in
     data body = [] /\ hasMore (pagination body) = false /\
     (a = NaN -> page (pagination body) = None) /\
     (b = NaN -> limit (pagination body) = None /\
                 totalPages (pagination body) = None)) /\
  (forall k,
     1 <= k <= 2 ^ 53 ->
     data (list_items (page_of q (- k) 1) arr) =
     take (length (search q arr) - Z.to_nat k) (search q arr)) /\
  (forall p,
     1 <= p <= 2 ^ 53 ->
     let body :=
       list_items {| query_page := Some (Int p);
                     query_limit := Some (Infinity false);
                     query_q := q |} arr in
     data body = [] /\ hasMore (pagination body) = false /\
     limit (pagination body) = None /\
     totalPages (pagination body) = Some 0 /\
     total (pagination body) = length (search q arr)).
Proof.
  split; [|split; [|split]].
  - intros p Hp body. subst body.
    unfold ItemsRoute.list_items, endIndex, startIndex, pageNum, limitNum, slice.
    cbn. rewrite (nearest_safe (p - 1)) by lia. cbn.
    rewrite Z.mul_0_r. cbn. split; [|split; [done|]].
    + by rewrite Nat.sub_diag, take_0.
    + destruct (search q arr); cbn; [done|]. split; [done|].
      intros _. apply Z.ltb_lt. lia.
  - intros a b Hnan body. subst body.
    unfold ItemsRoute.list_items, endIndex, startIndex, pageNum, limitNum, slice.
    cbn. destruct Hnan as [-> | ->].
    + cbn. split; [by rewrite take_0|]. split; [done|]. split; [done|].
      by intros ->.
    + assert (times (minus a (Int 1)) NaN = NaN) as ->
        by (by destruct (minus a (Int 1))).
      cbn. split; [by rewrite take_0|]. split; [done|].
      split; [by intros ->|done].
  - intros k Hk.
    unfold ItemsRoute.list_items, endIndex, startIndex, pageNum, limitNum, slice.
    cbn. rewrite (nearest_safe (1 - 1)) by lia. cbn [times].
    rewrite (nearest_safe ((1 - 1) * - k)) by lia.
    replace ((1 - 1) * - k) with 0 by lia. cbn.
    rewrite (nearest_safe (0 + - k)) by lia. cbn [relative_index].
    rewrite (proj2 (Z.ltb_lt (0 + - k) 0)) by lia.
    rewrite Z.min_l by lia. change (Z.to_nat 0) with 0%nat.
    rewrite drop_0, Nat.sub_0_r. f_equal. lia.
  - intros p Hp body. subst body.
    unfold ItemsRoute.list_items, endIndex, startIndex, pageNum, limitNum, slice.
    cbn. rewrite (nearest_safe (p - 1)) by lia. cbn.
    destruct (p - 1 =? 0) eqn:Hp1; cbn.
    + by rewrite take_0.
    + rewrite (proj2 (Z.ltb_ge (p - 1) 0)) by lia. cbn.
      by rewrite drop_all, Nat.sub_diag.
Qed.

End PageFacts.

(** ** The items route: search and lookup *)

Section SearchFacts.

Import ItemsRoute.

Context {N : Type} `{JsNegative N} (toLowerCase trim : string -> string).

Local Abbreviation list_items := (list_items toLowerCase trim).
Local Abbreviation search := (search toLowerCase trim).
Local Abbreviation matches := (matches toLowerCase).

Implicit Types (arr : list (Item N)) (q : option string) (item : Item N).



Lemma find_item_Some wanted arr item :
  find_item wanted arr = Some item <->
  exists l1 l2,
    arr = l1 ++ item :: l2 /\ wanted = Int (id item) /\
    Forall (fun i => wanted <> Int (id i)) l1.
Proof.
  unfold find_item. induction arr as [|i arr IH]; cbn.
  - split; [done|]. intros (l1 & l2 & Heq & _). by destruct l1.
  - destruct (strict_equal (id i) wanted) eqn:Hi.
    + assert (wanted = Int (id i)) as Hw
        by (destruct wanted; try done; apply Z.eqb_eq in Hi; by subst).
      split.
      * intros [= ->]. exists [], arr. by split_and!.
      * intros ([|j l1] & l2 & Heq & Hitem & Hall); simplify_eq/=; [done|].
        by apply Forall_cons_1 in Hall as [? _].
    + assert (wanted <> Int (id i)) as Hw.
      { intros ->. cbn in Hi. by rewrite Z.eqb_refl in Hi. }
      rewrite IH. split.
      * intros (l1 & l2 & -> & Hitem & Hall).
        exists (i :: l1), l2. split_and!; [done|done|by constructor].
      * intros ([|j l1] & l2 & Heq & Hitem & Hall); simplify_eq/=.
        exists l1, l2. split_and!; [done|done|].
        by apply Forall_cons_1 in Hall as [_ ?].
Qed.

Lemma find_item_None wanted arr :
  find_item wanted arr = None <-> Forall (fun i => wanted <> Int (id i)) arr.
Proof.
  unfold find_item. induction arr as [|i arr IH]; cbn; [done|].
  destruct (strict_equal (id i) wanted) eqn:Hi.
  - split; [done|]. intros [Hne _]%Forall_cons_1. exfalso. apply Hne.
    destruct wanted; try done. apply Z.eqb_eq in Hi. by subst.
  - rewrite IH. split.
    + intros Hall. constructor; [|done]. intros ->. cbn in Hi.
      by rewrite Z.eqb_refl in Hi.
    + by intros [_ ?]%Forall_cons_1.
Qed.

(** X15. The lookup by id answers with the first item of the store that
    has the id asked for, and finds none exactly when no item has it; an
    id that is not a number finds none. *)
Theorem find_item_first wanted arr :
  (forall item,
     find_item wanted arr = Some item <->
     exists l1 l2,
       arr = l1 ++ item :: l2 /\ wanted = Int (id item) /\
       Forall (fun i => wanted <> Int (id i)) l1) /\
  (find_item wanted arr = None <->
   Forall (fun i => wanted <> Int (id i)) arr) /\
  find_item NaN arr = None.
Proof.
  split; [intros; apply find_item_Some|]. split; [apply find_item_None|].
  apply find_item_None. by apply Forall_forall.
Qed.

End SearchFacts.

(** ** The items route: creating an item *)

Section PostFacts.

Import ItemsRoute.

Context {N : Type} `{JsNegative N} `{JsonNumber N}.
Context (toLowerCase trim : string -> string).

Local Abbreviation validate := (validate trim).
Local Abbreviation newItem := (newItem trim).
Local Abbreviation store_step := (store_step toLowerCase trim).
Local Abbreviation store_run := (store_run toLowerCase trim).
Local Abbreviation job_well_formed := (job_well_formed trim).

Implicit Types (st : Store N) (b : PostBody N) (n c : string) (p : N).
Implicit Types (arr : list (Item (option N))).

Lemma blank_false (s : string) :
  blank trim s = false <-> s <> "" /\ trim s <> "".
Proof.
  unfold blank. rewrite orb_false_iff, !bool_decide_eq_false. tauto.
Qed.

Lemma validate_inr b n c p :
  validate b = inr (n, c, p) <->
  body_name b = JsString n /\ n <> "" /\ trim n <> "" /\
  body_category b = JsString c /\ c <> "" /\ trim c <> "" /\
  body_price b = JsNumber p /\ negative p = false.
Proof.
  unfold ItemsRoute.validate.
  destruct (body_name b) as [| | | |n'|]; try (split; [done|by intros [? _]]).
  destruct (blank trim n') eqn:Hn.
  { split; [done|]. intros ([= ->] & ? & ? & _).
    assert (blank trim n = false) as Hf by (by apply blank_false).
    congruence. }
  apply blank_false in Hn as [Hn1 Hn2].
  destruct (body_category b) as [| | | |c'|];
    try (split; [done|by intros (_ & _ & _ & ? & _)]).
  destruct (blank trim c') eqn:Hc.
  { split; [done|]. intros (_ & _ & _ & [= ->] & ? & ? & _).
    assert (blank trim c = false) as Hf by (by apply blank_false).
    congruence. }
  apply blank_false in Hc as [Hc1 Hc2].
  destruct (body_price b) as [| | |p'| |];
    try (split; [done|by intros (_ & _ & _ & _ & _ & _ & ? & _)]).
  destruct (negative p') eqn:Hp.
  { split; [done|]. intros (_ & _ & _ & _ & _ & _ & [= ->] & ?). congruence. }
  split.
  - intros [= -> -> ->]. by split_and!.
  - intros ([= ->] & _ & _ & [= ->] & _ & _ & [= ->] & _). done.
Qed.

(** X16. A [POST] is let in exactly when its name and its category are
    strings that are not empty, also once trimmed, and its price is a
    number that is not below zero; any other body is answered with status
    400 at once: no read is started and the store is left as it is. *)
Theorem post_validation st req b :
  (forall n c p,
     validate b = inr (n, c, p) <->
     body_name b = JsString n /\ n <> "" /\ trim n <> "" /\
     body_category b = JsString c /\ c <> "" /\ trim c <> "" /\
     body_price b = JsNumber p /\ negative p = false) /\
  ((forall n c p, validate b <> inr (n, c, p)) ->
   exists message,
     store_step st (arrives req (post_item b)) =
     (st, [(req, next_status 400 message)])).
Proof.
  split; [intros; apply validate_inr|].
  intros Hno. cbn. destruct (validate b) as [message|[[n c] p]].
  - by exists message.
  - by destruct (Hno n c p).
Qed.

Lemma store_run_app st evs evs' :
  store_run st (evs ++ evs') =
  let '(st1, out1) := store_run st evs in
  let '(st2, out2) := store_run st1 evs' in
  (st2, out1 ++ out2).
Proof.
  revert st. induction evs as [|ev evs IH]; intros st; cbn [app store_run].
  - by destruct (store_run st evs').
  - cbn [ItemsRoute.store_run].
    destruct (store_step st ev) as [st1 out1]. rewrite IH.
    destruct (store_run st1 evs) as [st2 out2].
    destruct (store_run st2 evs') as [st3 out3]. by rewrite app_assoc.
Qed.

Lemma find_item_app_l {M} wanted (l l' : list (Item M)) item :
  find_item wanted l = Some item ->
  find_item wanted (l ++ l') = Some item.
Proof.
  unfold find_item. induction l as [|i l IH]; [done|]. cbn.
  by destruct (strict_equal (id i) wanted).
Qed.

Lemma find_item_app_r {M} wanted (l l' : list (Item M)) :
  find_item wanted l = None ->
  find_item wanted (l ++ l') = find_item wanted l'.
Proof.
  unfold find_item. induction l as [|i l IH]; [done|]. cbn.
  by destruct (strict_equal (id i) wanted).
Qed.

(** Writing the items again keeps their ids, and so what a lookup finds. *)
Lemma find_item_rewritten wanted arr :
  find_item wanted (rewritten <$> arr) = rewritten <$> find_item wanted arr.
Proof.
  unfold find_item. induction arr as [|i arr IH]; [done|]. cbn.
  by destruct (strict_equal (id i) wanted).
Qed.

Lemma rewritten_fixed arr :
  Forall (fun old => rewritten old = old) arr -> rewritten <$> arr = arr.
Proof. induction 1 as [|i arr Hi _ IH]; [done|]. cbn. by rewrite Hi, IH. Qed.

(** X17. A [POST] that is let in and runs alone on a file that holds an
    array (read, then write, with nothing else in flight) appends one item
    to the store and answers 201 with that item: its [id] is the clock at
    the read, its name and category are trimmed, and its price is what
    [JSON.stringify] makes of the price of the body, [null] for an
    infinity.  The items before it are written again, which leaves them as
    they are when they came from [JSON.stringify].  A lookup of the new
    [id] then answers with the new item, unless an older item has the same
    [id]: then it keeps answering with the older one.  Lookups of other
    ids are unchanged. *)
Theorem post_appends st req b n c p now now' arr :
  file st = Holds arr -> jobs st = [] ->
  validate b = inr (n, c, p) ->
  let item := new_json (newItem n c p now) in
  let kept := rewritten <$> arr in
  store_run st [arrives req (post_item b); io_done 0 now; io_done 0 now'] =
    ({| file := Holds (kept ++ [item]); jobs := [] |},
     [(req, json_item 201 item)]) /\
  id item = now /\ name item = trim n /\ category item = trim c /\
  price item = JSON_number p /\
  (Forall (fun old => rewritten old = old) arr -> kept = arr) /\
  (find_item (Int now) arr = None ->
   find_item (Int now) (kept ++ [item]) = Some item) /\
  (forall old, find_item (Int now) arr = Some old ->
   find_item (Int now) (kept ++ [item]) = Some (rewritten old)) /\
  (forall z, z <> now ->
   find_item (Int z) (kept ++ [item]) = rewritten <$> find_item (Int z) arr).
Proof.
  intros Hfile Hjobs Hb item kept. split_and!; try done.
  - cbn. rewrite Hb, Hjobs. cbn. rewrite Hfile. reflexivity.
  - apply rewritten_fixed.
  - intros Hnone. rewrite find_item_app_r
      by (subst kept; by rewrite find_item_rewritten, Hnone).
    unfold find_item. cbn. by rewrite Z.eqb_refl.
  - intros old Hold. apply find_item_app_l.
    subst kept. by rewrite find_item_rewritten, Hold.
  - intros z Hz. destruct (find_item (Int z) arr) as [old|] eqn:Hold.
    + apply find_item_app_l. subst kept. by rewrite find_item_rewritten, Hold.
    + rewrite find_item_app_r
        by (subst kept; by rewrite find_item_rewritten, Hold).
      unfold find_item. cbn. by rewrite (proj2 (Z.eqb_neq now z)).
Qed.

(** X18. Two [POST]s that both read the store before either has written
    lose an item: each writes back what it read plus its own item, so
    after both writes the store holds the first one's array replaced by
    the second one's, and the first item is gone although both requests
    were answered 201. *)
Theorem concurrent_posts_lose_an_item
    st req1 req2 b1 b2 n1 c1 p1 n2 c2 p2 t1 t2 t3 t4 arr :
  file st = Holds arr -> jobs st = [] ->
  validate b1 = inr (n1, c1, p1) ->
  validate b2 = inr (n2, c2, p2) ->
  let item1 := new_json (newItem n1 c1 p1 t1) in
  let item2 := new_json (newItem n2 c2 p2 t2) in
  store_run st
    [ arrives req1 (post_item b1); arrives req2 (post_item b2);
      io_done 0 t1; io_done 1 t2; io_done 0 t3; io_done 0 t4 ] =
  ({| file := Holds ((rewritten <$> arr) ++ [item2]); jobs := [] |},
   [(req1, json_item 201 item1); (req2, json_item 201 item2)]).
Proof.
  intros Hfile Hjobs Hb1 Hb2 item1 item2. cbn. rewrite Hb1. cbn.
  rewrite Hb2, Hjobs. cbn. rewrite Hfile. reflexivity.
Qed.

(** *** Requests and replies *)

Lemma pending_delete st j job (new : Content N) :
  jobs st !! j = Some job ->
  ItemsRoute.pending st ≡ₚ
  job_request job ::
    ItemsRoute.pending {| file := new; jobs := delete j (jobs st) |}.
Proof.
  intros Hj. unfold ItemsRoute.pending. cbn.
  by rewrite (delete_Permutation (jobs st) j job Hj) at 1.
Qed.

Lemma store_step_accounting st ev :
  replied (store_step st ev).2 ++ ItemsRoute.pending (store_step st ev).1 ≡ₚ
  ItemsRoute.pending st ++ arrived [ev].
Proof.
  destruct ev as [req [query|i|b]|j now|j err|j err rest];
    cbn -[ItemsRoute.pending].
  - unfold ItemsRoute.pending. cbn. by rewrite fmap_app.
  - unfold ItemsRoute.pending. cbn. by rewrite fmap_app.
  - destruct (ItemsRoute.validate trim b) as [message|[[n c] p]];
      cbn -[ItemsRoute.pending].
    + apply Permutation_cons_append.
    + unfold ItemsRoute.pending. cbn. by rewrite fmap_app.
  - rewrite app_nil_r.
    destruct (jobs st !! j) as [job|] eqn:Hj; [|done].
    destruct job as [req query|req i|req n c p|req item written],
      (file st) as [arr|parseErr] eqn:Hfile;
      cbn -[ItemsRoute.pending];
      try (symmetry; exact (pending_delete st j _ _ Hj)).
    unfold ItemsRoute.pending. cbn. rewrite list_fmap_insert. cbn.
    rewrite list_insert_id; [done|]. by rewrite list_lookup_fmap, Hj.
  - rewrite app_nil_r.
    destruct (jobs st !! j) as [job|] eqn:Hj; [|done].
    destruct job as [req query|req i|req n c p|req item written];
      cbn -[ItemsRoute.pending];
      first [symmetry; exact (pending_delete st j _ _ Hj) | done].
  - rewrite app_nil_r.
    destruct (jobs st !! j) as [job|] eqn:Hj; [|done].
    destruct job as [req query|req i|req n c p|req item written];
      cbn -[ItemsRoute.pending];
      first [symmetry; exact (pending_delete st j _ _ Hj) | done].
Qed.

(** X22. No request to the items route is dropped and none is answered
    twice, however the reads and writes interleave and whether they fail
    or not: the requests answered so far together with those suspended at
    a read or a write are exactly those received. *)
Theorem route_requests_accounted st evs :
  jobs st = [] ->
  replied (store_run st evs).2 ++ ItemsRoute.pending (store_run st evs).1 ≡ₚ
  arrived evs.
Proof.
  intros Hjobs.
  assert (forall st',
            replied (store_run st' evs).2 ++
              ItemsRoute.pending (store_run st' evs).1 ≡ₚ
            ItemsRoute.pending st' ++ arrived evs) as Hgen.
  { clear st Hjobs. induction evs as [|ev evs IH]; intros st.
    - cbn. by rewrite app_nil_r.
    - cbn [ItemsRoute.store_run].
      pose proof (store_step_accounting st ev) as Hstep.
      destruct (store_step st ev) as [st1 out1]. specialize (IH st1).
      destruct (store_run st1 evs) as [st2 out2]. cbn [fst snd] in *.
      change (ev :: evs) with ([ev] ++ evs).
      unfold replied, arrived in *.
      rewrite fmap_app, omap_app, app_assoc, <-Hstep, <-!app_assoc.
      by rewrite IH. }
  rewrite Hgen. unfold ItemsRoute.pending. by rewrite Hjobs.
Qed.

(** X23. The data file changes only when the write of a [POST] is over or
    has failed.  When it is over the file holds the array that [POST]
    wrote; when it has failed the file is as it was, holds that array, or
    holds a part of the text, on which [JSON.parse] throws.  Listings,
    lookups, rejected bodies, reads in flight and failed reads leave the
    file as it is. *)
Theorem file_changes_only_by_post_write st ev :
  file (store_step st ev).1 = file st \/
  exists j req item written,
    jobs st !! j = Some (post_writes req item written) /\
    ((exists now, ev = io_done j now) /\
     file (store_step st ev).1 = Holds written \/
     (exists err, ev = write_fails j err Written_out) /\
     file (store_step st ev).1 = Holds written \/
     (exists err parseErr, ev = write_fails j err (Cut_short parseErr) /\
        file (store_step st ev).1 = Garbled parseErr)).
Proof.
  destruct ev as [req [query|i|b]|j now|j err|j err rest]; cbn.
  - by left.
  - by left.
  - left. by destruct (ItemsRoute.validate trim b) as [message|[[n c] p]].
  - destruct (jobs st !! j) as [[req query|req i|req n c p|req item written]|]
      eqn:Hj; cbn;
      try (left; destruct (file st) eqn:Hf; cbn; congruence).
    right. exists j, req, item, written. split; [done|].
    left. split; [by eexists|]. by destruct (file st).
  - left.
    by destruct (jobs st !! j) as [[req query|req i|req n c p|req item written]|].
  - destruct (jobs st !! j) as [[req query|req i|req n c p|req item written]|]
      eqn:Hj; cbn; try (by left).
    destruct rest as [|parseErr|]; [by left| |].
    + right. exists j, req, item, written. split; [done|].
      right; right. by exists err, parseErr.
    + right. exists j, req, item, written. split; [done|].
      right; left. split; [by eexists|done].
Qed.

(** *** What the store holds *)

Section WellFormed.

(** [JSON.stringify] writes a number that is not below zero as one that is
    not below zero, or as [null]. *)
Hypothesis JSON_number_not_negative :
  forall x y : N, JSON_number x = Some y -> negative x = false ->
                  negative y = false.

Lemma new_json_well_formed b n c p now :
  validate b = inr (n, c, p) -> well_formed (new_json (newItem n c p now)).
Proof.
  intros (_ & _ & Hn & _ & _ & Hc & _ & Hp)%validate_inr.
  split; [done|]. split; [done|]. cbn.
  destruct (JSON_number p) as [y|] eqn:Hy; [|done].
  by apply (JSON_number_not_negative p).
Qed.

Lemma rewritten_well_formed (old : Item (option N)) :
  well_formed old -> well_formed (rewritten old).
Proof.
  intros (Hn & Hc & Hp). split; [done|]. split; [done|]. cbn.
  destruct (price old) as [x|]; [|done]. cbn.
  destruct (JSON_number x) as [y|] eqn:Hy; [|done].
  by apply (JSON_number_not_negative x).
Qed.

Lemma store_step_well_formed st ev :
  file_well_formed (file st) -> Forall job_well_formed (jobs st) ->
  file_well_formed (file (store_step st ev).1) /\
  Forall job_well_formed (jobs (store_step st ev).1).
Proof.
  intros Hfile Hjobs.
  destruct ev as [req [query|i|b]|j now|j err|j err rest]; cbn.
  - split; [done|]. apply Forall_app. by split; [|repeat constructor].
  - split; [done|]. apply Forall_app. by split; [|repeat constructor].
  - destruct (validate b) as [message|[[n c] p]] eqn:Hb; [done|]. cbn.
    split; [done|]. apply Forall_app. split; [done|].
    apply validate_inr in Hb as (_ & _ & Hn & _ & _ & Hc & _ & Hp).
    by repeat constructor.
  - destruct (jobs st !! j) as [job|] eqn:Hj; [|done].
    pose proof (Forall_lookup_1 _ _ _ _ Hjobs Hj) as Hjob.
    destruct job as [req query|req i|req n c p|req item written],
      (file st) as [arr|parseErr] eqn:Hc; cbn;
      try (split; [by rewrite ?Hc|]; by apply Forall_delete).
    split; [done|]. apply Forall_insert; [done|].
    destruct Hjob as (Hn & Hc' & Hp). cbn.
    apply Forall_app. split.
    + apply Forall_fmap. eapply Forall_impl; [exact Hfile|].
      intros old. apply rewritten_well_formed.
    + constructor; [|done]. split; [done|]. split; [done|]. cbn.
      destruct (JSON_number p) as [y|] eqn:Hy; [|done].
      by apply (JSON_number_not_negative p).
  - destruct (jobs st !! j) as [[req query|req i|req n c p|req item written]|]
      eqn:Hj; cbn; try done; (split; [done|]; by apply Forall_delete).
  - destruct (jobs st !! j) as [[req query|req i|req n c p|req item written]|]
      eqn:Hj; cbn; try done.
    pose proof (Forall_lookup_1 _ _ _ _ Hjobs Hj) as Hjob.
    split; [by destruct rest|]. by apply Forall_delete.
Qed.

(** X19. The route keeps the store well formed: if every item of the data
    file has a name and a category that are not empty and a price that is
    [null] or not below zero, and nothing is in flight, then this is still
    so whenever the file holds an array, after any sequence of requests,
    reads and writes, failed or not. *)
Theorem store_stays_well_formed st evs :
  file_well_formed (file st) -> jobs st = [] ->
  file_well_formed (file (store_run st evs).1).
Proof.
  intros Hfile Hjobs.
  assert (Forall job_well_formed (jobs st)) as Hj by (by rewrite Hjobs).
  clear Hjobs. revert st Hfile Hj.
  induction evs as [|ev evs IH]; intros st Hfile Hj; [done|].
  cbn [ItemsRoute.store_run].
  destruct (store_step_well_formed st ev Hfile Hj) as [Hfile1 Hj1].
  destruct (store_step st ev) as [st1 out1]. specialize (IH st1 Hfile1 Hj1).
  by destruct (store_run st1 evs).
Qed.

End WellFormed.

End PostFacts.

(** ** A new item in the summary *)

Section AppendFacts.

Context {N : Type} `{JsNumber N}.

Implicit Types (arr : list (Item N)) (item : Item N) (k : string).

(** X20. Appending an item to the store, as [POST /api/items] does, raises
    [total] by one and adds its price to the running sum; it leaves every
    other bucket of the breakdown as it is and, unless the category is a
    name inherited from [Object.prototype] (then the breakdown does not
    change at all), raises the count of its own bucket by one and adds its
    price to it, a bucket that was not there starting from count 0 and
    value 0. *)
Theorem appended_item_in_summary arr item :
  let s := calculateStats (JsArray arr) in
  let s' := calculateStats (JsArray (arr ++ [item])) in
  total s' = S (total s) /\
  sum_prices (arr ++ [item]) = add (sum_prices arr) (price item) /\
  (forall k, k <> category item -> categories s' !! k = categories s !! k) /\
  (inherited (category item) = true -> categories s' = categories s) /\
  (inherited (category item) = false ->
   categories s' !! category item =
   Some {| count := S (from_option count 0%nat (categories s !! category item));
           bucketValue :=
             add (from_option bucketValue (num 0)
                    (categories s !! category item))
               (price item) |}).
Proof.
  cbn zeta. rewrite !calculateStats_total, !calculateStats_categories.
  rewrite length_app, fold_left_snoc. unfold sum_prices at 1.
  rewrite fold_left_snoc. fold (sum_prices arr).
  set (acc := fold_left categories_step arr ∅).
  split; [simpl; lia|]. split; [done|].
  assert (inherited (category item) = true -> acc !! category item = None)
    as Hinh.
  { intros Hi. subst acc. by rewrite categories_lookup, Hi. }
  split; [|split].
  - intros k Hk. unfold categories_step.
    destruct (acc !! category item);
      [|destruct (inherited (category item))];
      by rewrite ?lookup_insert_ne.
  - intros Hi. unfold categories_step. by rewrite (Hinh Hi), Hi.
  - intros Hi. unfold categories_step.
    destruct (acc !! category item) as [b|] eqn:Hb.
    + by rewrite lookup_insert_eq.
    + rewrite Hi. by rewrite lookup_insert_eq.
Qed.

End AppendFacts.

(** ** The pagination bar *)

Section PageBarFacts.

Import ItemsPage.

(** X21. On page [currentPage] of [totalPages] pages, with
    [1 <= currentPage <= totalPages], the bar shows consecutive page
    numbers, five of them or all of them when there are fewer, all between
    1 and [totalPages], the current page among them, and centred on it
    when it is at least two pages away from both ends.  With no page at
    all the bar shows no number. *)
Theorem pageNumbers_window (currentPage totalPages : Z) :
  (1 <= currentPage <= totalPages ->
   exists first,
     pageNumbers currentPage totalPages = seqZ first (Z.min 5 totalPages) /\
     1 <= first /\ first + Z.min 5 totalPages - 1 <= totalPages /\
     first <= currentPage < first + Z.min 5 totalPages /\
     (3 <= currentPage <= totalPages - 2 -> first = currentPage - 2)) /\
  (1 <= currentPage -> totalPages <= 0 ->
   pageNumbers currentPage totalPages = []).
Proof.
  unfold pageNumbers, maxPagesToShow. change (5 / 2) with 2. split.
  - intros Hcur.
    destruct (Z.min totalPages (Z.max 1 (currentPage - 2) + 5 - 1) -
              Z.max 1 (currentPage - 2) <? 5 - 1) eqn:Hshort.
    + apply Z.ltb_lt in Hshort. eexists. split; [f_equal; lia|]. lia.
    + apply Z.ltb_ge in Hshort. eexists. split; [f_equal; lia|]. lia.
  - intros Hcur Htp. apply seqZ_nil.
    destruct (Z.min totalPages (Z.max 1 (currentPage - 2) + 5 - 1) -
              Z.max 1 (currentPage - 2) <? 5 - 1) eqn:Hshort; lia.
Qed.

End PageBarFacts.

(** ** The further properties on the samples *)

Section MoreScenarios.

Import Binary64 Exact Samples.

Lemma counts_add_up_store :
  bucketed store = store /\
  counted (categories (calculateStats (JsArray store))) =
    total (calculateStats (JsArray store)).
Proof.
  assert (bucketed store = store) as Hb by reflexivity.
  split; [exact Hb|]. by apply (counts_add_up store).
Defined.

Lemma bucket_values_within_tolerance_store :
  Forall (fun i : Item float => not_below_zero (price i)) store /\
  1 <= 12 <= 44 /\
  Z.of_nat (length store) < 2 ^ 53 /\
  Qcle (exact_sum store) (Q2Qc (inject_Z (2 ^ (12 - 1)))) /\
  categories (calculateStats (JsArray store)) !! "Electronics" =
    Some {| count := 2; bucketValue := 1029.98%float |} /\
  Qcle (Qcminus (exact_sum (in_category "Electronics" store))
          (tolerance (length (in_category "Electronics" store)) 12))
    (to_Qc 1029.98%float) /\
  Qcle (to_Qc 1029.98%float)
    (Qcplus (exact_sum (in_category "Electronics" store))
       (tolerance (length (in_category "Electronics" store)) 12)).
Proof.
  assert (Forall (fun i : Item float => not_below_zero (price i)) store)
    as Hall by (repeat constructor).
  assert (1 <= 12 <= 44) as Hk by lia.
  assert (Z.of_nat (length store) < 2 ^ 53) as Hlen by (cbn; lia).
  assert (Qcle (exact_sum store) (Q2Qc (inject_Z (2 ^ (12 - 1))))) as Hsum
    by (vm_compute; discriminate).
  assert (categories (calculateStats (JsArray store)) !! "Electronics" =
          Some {| count := 2; bucketValue := 1029.98%float |}) as Hb
    by (vm_compute; reflexivity).
  split; [exact Hall|]. split; [exact Hk|]. split; [exact Hlen|].
  split; [exact Hsum|]. split; [exact Hb|].
  destruct (bucket_values_within_tolerance store "Electronics" _ 12
              Hall Hk Hlen Hsum Hb) as (_ & _ & Hlo & Hhi).
  split; [exact Hlo|exact Hhi].
Defined.

Lemma averagePrice_within_range_store :
  store <> [] /\
  Forall (fun i : Item float => not_below_zero (price i)) store /\
  1 <= 12 <= 44 /\
  Z.of_nat (length store) < 2 ^ 53 /\
  Qcle (exact_sum store) (Q2Qc (inject_Z (2 ^ (12 - 1)))) /\
  Qcle (to_Qc (min (priceRange (calculateStats (JsArray store)))))
    (exact_mean store) /\
  Qcle (exact_mean store)
    (to_Qc (max (priceRange (calculateStats (JsArray store))))) /\
  exists c : Z,
    averagePrice (calculateStats (JsArray store)) = (of_Z c / 100)%float /\
    Qcle (Qcminus (Qcminus (exact_mean store) half_cent) (tolerance 2 12))
      (cents c) /\
    Qcle (cents c)
      (Qcplus (Qcplus (exact_mean store) half_cent) (tolerance 2 12)).
Proof.
  assert (store <> []) as Hne by discriminate.
  assert (Forall (fun i : Item float => not_below_zero (price i)) store)
    as Hall by (repeat constructor).
  assert (1 <= 12 <= 44) as Hk by lia.
  assert (Z.of_nat (length store) < 2 ^ 53) as Hlen by (cbn; lia).
  assert (Qcle (exact_sum store) (Q2Qc (inject_Z (2 ^ (12 - 1))))) as Hsum
    by (vm_compute; discriminate).
  split; [exact Hne|]. split; [exact Hall|]. split; [exact Hk|].
  split; [exact Hlen|]. split; [exact Hsum|].
  exact (averagePrice_within_range store 12 Hne Hall Hk Hlen Hsum).
Defined.

Lemma priceRange_bounds_store :
  store_exact <> [] /\
  Qcle (min (priceRange (calculateStats (JsArray store_exact))))
    (max (priceRange (calculateStats (JsArray store_exact)))).
Proof.
  assert (store_exact <> []) as Hne by discriminate.
  split; [exact Hne|]. by apply (priceRange_bounds store_exact Hne).
Defined.

Lemma cache_entry_transitions_loaded :
  is_Some (statsCache loaded) /\
  statsCache (step loaded (fs_event 0 "change")).1 = None /\
  exists h, fs_event (N := float) 0 "change" = fs_event h "change" /\
            h ∈ open_handles loaded.
Proof.
  assert (is_Some (statsCache loaded)) as Hs by (by eexists).
  assert (statsCache (step loaded (fs_event 0 "change")).1 = None) as Hn
    by reflexivity.
  split; [exact Hs|]. split; [exact Hn|].
  by apply (cache_entry_transitions loaded (fs_event 0 "change")).
Defined.

Lemma cache_never_expires_cleaned_up :
  statsCache RouteSamples.cleaned_up = Some (calculateStats (JsArray store)) /\
  open_handles RouteSamples.cleaned_up = ∅ /\ reading RouteSamples.cleaned_up = [] /\
  statsCache
    (run RouteSamples.cleaned_up
       [http_get 5 3000; fs_event 0 "change"; http_get 6 4000]).1 =
    Some (calculateStats (JsArray store)) /\
  answers
    (run RouteSamples.cleaned_up
       [http_get 5 3000; fs_event 0 "change"; http_get 6 4000]).2 =
  cached_answers (calculateStats (JsArray store))
    (cacheTimestamp RouteSamples.cleaned_up)
    [http_get 5 3000; fs_event 0 "change"; http_get 6 4000].
Proof.
  assert (statsCache RouteSamples.cleaned_up = Some (calculateStats (JsArray store)))
    as Hs by reflexivity.
  assert (open_handles RouteSamples.cleaned_up = ∅) as Ho by (vm_compute; reflexivity).
  assert (reading RouteSamples.cleaned_up = []) as Hr by reflexivity.
  assert (Forall (fun ev : Event float => ~ starts_watcher ev)
            [http_get 5 3000; fs_event 0 "change"; http_get 6 4000]) as Hall
    by (repeat constructor; discriminate).
  split; [exact Hs|]. split; [exact Ho|]. split; [exact Hr|].
  destruct (cache_never_expires _ RouteSamples.cleaned_up _ Hs Ho Hr Hall)
    as (Hc & _ & _ & Ha).
  split; [exact Hc|exact Ha].
Defined.

Lemma summaries_come_from_reads_session :
  statsCache (run initial session).1 = Some (calculateStats (JsArray store)) /\
  exists i items now,
    read_done i (Parsed items) now ∈ session /\
    calculateStats (JsArray store) = calculateStats items.
Proof.
  assert (statsCache (run initial session).1 =
          Some (calculateStats (JsArray store))) as Hs by reflexivity.
  split; [exact Hs|].
  by apply (summaries_come_from_reads session).
Defined.

Lemma counts_order_independent_fractions :
  fractions ≡ₚ rev fractions /\
  total (calculateStats (JsArray fractions)) =
    total (calculateStats (JsArray (rev fractions))).
Proof.
  assert (fractions ≡ₚ rev fractions) as Hp by apply Permutation_swap.
  split; [exact Hp|]. by apply (counts_order_independent _ _ Hp).
Defined.


End MoreScenarios.

Section RouteScenarios.

Import Binary64 Samples ItemsRoute RouteSamples.

Local Abbreviation list_items := (ItemsRoute.list_items toLowerCase trim).
Local Abbreviation search := (ItemsRoute.search toLowerCase trim).
Local Abbreviation validate := (ItemsRoute.validate trim).
Local Abbreviation newItem := (ItemsRoute.newItem trim).
Local Abbreviation store_run := (ItemsRoute.store_run toLowerCase trim).

Lemma pages_partition_store :
  1 <= 2 /\ Z.of_nat (length store) + 2 <= 2 ^ 53 /\
  exists tp,
    totalPages (pagination (list_items (page_of None 2 1) store)) = Some tp /\
    0 <= tp /\
    (forall p, 1 <= p ->
       (length (data (list_items (page_of None 2 p) store)) <= Z.to_nat 2)%nat) /\
    concat (map (fun p => data (list_items (page_of None 2 p) store))
              (seqZ 1 tp)) = search None store.
Proof.
  assert (1 <= 2) as Hn by lia.
  assert (Z.of_nat (length store) + 2 <= 2 ^ 53) as Hlen by (cbn; lia).
  split; [exact Hn|]. split; [exact Hlen|].
  apply (pages_partition toLowerCase trim None 2 store Hn Hlen).
Defined.

Lemma page_metadata_store :
  1 <= 2 /\ 1 <= 3 /\ Z.of_nat (length store) + 2 <= 2 ^ 53 /\
  page (pagination (list_items (page_of None 2 3) store)) = Some 3 /\
  limit (pagination (list_items (page_of None 2 3) store)) = Some 2 /\
  ItemsRoute.total (pagination (list_items (page_of None 2 3) store)) =
    length (search None store).
Proof.
  assert (1 <= 2) as Hn by lia. assert (1 <= 3) as Hp by lia.
  assert (Z.of_nat (length store) + 2 <= 2 ^ 53) as Hlen by (cbn; lia).
  split; [exact Hn|]. split; [exact Hp|]. split; [exact Hlen|].
  destruct (page_metadata toLowerCase trim None 2 3 store Hn Hp Hlen)
    as (H1 & H2 & H3 & _).
  split; [exact H1|]. split; [exact H2|exact H3].
Defined.

Lemma post_validation_nameless :
  (forall n c p, validate nameless <> inr (n, c, p)) /\
  exists message,
    ItemsRoute.store_step toLowerCase trim at_rest
      (arrives 7 (post_item nameless)) =
    (at_rest, [(7%nat, next_status 400 message)]).
Proof.
  assert (forall n c p, validate nameless <> inr (n, c, p)) as Hno
    by (intros n c p; vm_compute; discriminate).
  split; [exact Hno|].
  by apply (post_validation toLowerCase trim at_rest 7 nameless).
Defined.

Lemma post_appends_lamp :
  file at_rest = Holds on_file /\ jobs at_rest = [] /\
  validate lamp = inr (" Lamp ", "Furniture", 15.5%float) /\
  store_run at_rest
    [arrives 7 (post_item lamp); io_done 0 5000; io_done 0 5010] =
  ({| file :=
        Holds ((rewritten <$> on_file) ++
               [new_json (newItem " Lamp " "Furniture" 15.5%float 5000)]);
      jobs := [] |},
   [(7%nat,
     json_item 201 (new_json (newItem " Lamp " "Furniture" 15.5%float 5000)))]).
Proof.
  assert (file at_rest = Holds on_file) as Hf by reflexivity.
  assert (jobs at_rest = []) as Hj by reflexivity.
  assert (validate lamp = inr (" Lamp ", "Furniture", 15.5%float)) as Hb
    by (vm_compute; reflexivity).
  split; [exact Hf|]. split; [exact Hj|]. split; [exact Hb|].
  by apply (post_appends toLowerCase trim at_rest 7 lamp _ _ _ 5000 5010
              on_file Hf Hj Hb).
Defined.

Lemma concurrent_posts_lose_the_lamp :
  file at_rest = Holds on_file /\ jobs at_rest = [] /\
  validate lamp = inr (" Lamp ", "Furniture", 15.5%float) /\
  validate rug = inr ("Rug", "Furniture ", 80%float) /\
  store_run at_rest
    [ arrives 7 (post_item lamp); arrives 8 (post_item rug);
      io_done 0 5000; io_done 1 5001; io_done 0 5002; io_done 0 5003 ] =
  ({| file :=
        Holds ((rewritten <$> on_file) ++
               [new_json (newItem "Rug" "Furniture " 80%float 5001)]);
      jobs := [] |},
   [(7%nat,
     json_item 201 (new_json (newItem " Lamp " "Furniture" 15.5%float 5000)));
    (8%nat,
     json_item 201 (new_json (newItem "Rug" "Furniture " 80%float 5001)))]).
Proof.
  assert (file at_rest = Holds on_file) as Hf by reflexivity.
  assert (jobs at_rest = []) as Hj by reflexivity.
  assert (validate lamp = inr (" Lamp ", "Furniture", 15.5%float)) as Hb1
    by (vm_compute; reflexivity).
  assert (validate rug = inr ("Rug", "Furniture ", 80%float)) as Hb2
    by (vm_compute; reflexivity).
  split; [exact Hf|]. split; [exact Hj|]. split; [exact Hb1|].
  split; [exact Hb2|].
  apply (concurrent_posts_lose_an_item toLowerCase trim at_rest 7 8 lamp rug
           _ _ _ _ _ _ 5000 5001 5002 5003 on_file Hf Hj Hb1 Hb2).
Defined.

(** In binary64 [JSON.stringify] writes a number that is not below zero
    as one that is not below zero, or as [null]. *)
Lemma binary64_JSON_number_not_negative (x y : float) :
  JSON_number x = Some y -> negative x = false -> negative y = false.
Proof.
  unfold JSON_number, JSON_binary64.
  destruct (PrimFloat.is_nan x || PrimFloat.is_infinity x); [done|].
  destruct (PrimFloat.eqb x PrimFloat.zero); by intros [= <-].
Qed.

Lemma store_well_formed :
  file_well_formed (N := float) (Holds on_file).
Proof. repeat constructor; (discriminate || reflexivity). Qed.

Lemma store_stays_well_formed_at_rest :
  (forall x y : float,
     JSON_number x = Some y -> negative x = false -> negative y = false) /\
  file_well_formed (file at_rest) /\ jobs at_rest = [] /\
  file_well_formed
    (file (store_run at_rest
             [arrives 7 (post_item lamp); io_done 0 5000; io_done 0 5010]).1).
Proof.
  assert (jobs at_rest = []) as Hj by reflexivity.
  split; [exact binary64_JSON_number_not_negative|].
  split; [exact store_well_formed|]. split; [exact Hj|].
  apply (store_stays_well_formed toLowerCase trim
           binary64_JSON_number_not_negative at_rest _ store_well_formed Hj).
Defined.

(** A body whose price is [1e999] is let in: the item is stored and sent
    back with the price [null]. *)
Example post_infinite_price :
  store_run at_rest
    [arrives 9 (post_item priceless); io_done 0 6000; io_done 0 6010] =
  ({| file :=
        Holds (on_file ++
               [ {| id := 6000; name := "Vase"; category := "Kitchen";
                    price := None |} ]);
      jobs := [] |},
   [(9%nat,
     json_item 201 {| id := 6000; name := "Vase"; category := "Kitchen";
                      price := None |})]).
Proof. vm_compute. reflexivity. Qed.

Lemma appended_item_in_summary_lamp :
  inherited (category (newItem " Lamp " "Furniture" 15.5%float 5000)) = false /\
  categories
    (calculateStats
       (JsArray (store ++ [newItem " Lamp " "Furniture" 15.5%float 5000])))
    !! "Furniture" =
  Some {| count := 3; bucketValue := 485%float |}.
Proof.
  assert (inherited (category (newItem " Lamp " "Furniture" 15.5%float 5000))
          = false) as Hi by reflexivity.
  split; [exact Hi|].
  destruct (appended_item_in_summary store
              (newItem " Lamp " "Furniture" 15.5%float 5000))
    as (_ & _ & _ & _ & Hown).
  etrans; [exact (Hown Hi)|]. vm_compute. reflexivity.
Defined.

(** The sample functions at work: the search ignores case and the blanks
    around the query, and the stored name of the lamp is trimmed. *)
Example search_and_trim :
  map name (search (Some " LAPTOP ") store) = ["Laptop"] /\
  map name (search (Some "furn") store) = ["Desk"; "Chair"] /\
  name (newItem " Lamp " "Furniture" 15.5%float 5000) = "Lamp".
Proof. repeat split; vm_compute; reflexivity. Qed.

(** In binary64 the value of a bucket does depend on the order of the
    store: [0.1 + 0.2 + 0.3] is not [0.3 + 0.2 + 0.1]. *)
Example binary64_bucket_depends_on_order :
  sum_prices [item 1 "a" "Tools" 0.1%float; item 2 "b" "Tools" 0.2%float;
              item 3 "c" "Tools" 0.3%float] = 0.6000000000000001%float /\
  sum_prices [item 3 "c" "Tools" 0.3%float; item 2 "b" "Tools" 0.2%float;
              item 1 "a" "Tools" 0.1%float] = 0.6%float.
Proof. split; vm_compute; reflexivity. Qed.

Lemma unchecked_page_and_limit_store :
  1 <= 2 <= 2 ^ 53 /\
  data (list_items (page_of None (- 2) 1) store) =
  take (length (search None store) - Z.to_nat 2) (search None store).
Proof.
  assert (1 <= 2 <= 2 ^ 53) as Hk by lia. split; [exact Hk|].
  destruct (unchecked_page_and_limit toLowerCase trim None store)
    as (_ & _ & Hneg & _).
  exact (Hneg 2 Hk).
Defined.


Lemma pageNumbers_window_seven_of_ten :
  1 <= 7 <= 10 /\
  exists first,
    ItemsPage.pageNumbers 7 10 = seqZ first (Z.min 5 10) /\
    1 <= first /\ first + Z.min 5 10 - 1 <= 10 /\
    first <= 7 < first + Z.min 5 10 /\
    (3 <= 7 <= 10 - 2 -> first = 7 - 2).
Proof.
  assert (1 <= 7 <= 10) as Hcur by lia. split; [exact Hcur|].
  exact (proj1 (pageNumbers_window 7 10) Hcur).
Defined.

Lemma route_requests_accounted_at_rest :
  jobs at_rest = [] /\
  replied
    (store_run at_rest
       [arrives 7 (post_item lamp); arrives 8 (get_list (page_of None 2 1));
        io_done 1 5000]).2 ++
  ItemsRoute.pending
    (store_run at_rest
       [arrives 7 (post_item lamp); arrives 8 (get_list (page_of None 2 1));
        io_done 1 5000]).1 ≡ₚ [7; 8]%nat.
Proof.
  assert (jobs at_rest = []) as Hj by reflexivity.
  split; [exact Hj|].
  exact (route_requests_accounted toLowerCase trim at_rest
           [arrives 7 (post_item lamp);
            arrives 8 (get_list (page_of None 2 1)); io_done 1 5000] Hj).
Defined.

End RouteScenarios.
